(** * RSS-to-Telegram notifier: a model of [rss_to_telegram.py]

    The script polls syndication feeds, derives an identity for every entry,
    skips the identities it has already stored for that feed, filters the
    remaining entries by keyword and forwards them to a chat.

    The development follows the script from its leaves to [main]:
    - [PyStr]: the operations of Python's [str] that the script uses;
    - [Sha256]: [hashlib.sha256(...).hexdigest()], from FIPS 180-4;
    - [PyVal]: the values an entry dictionary holds, [str()], truth values
      and [json.dumps(..., sort_keys=True, ensure_ascii=False)];
    - [make_entry_key], [passes_filters], [build_message],
      [format_published];
    - [telegram_send] and [main] in a small exception-and-world monad.

    Text is modelled by Rocq's [string] as the bytes of its UTF-8 encoding
    (the script hashes and sends it in that encoding); a [str] that cannot
    be encoded, one that holds a lone surrogate, is outside the model.
    Whitespace and case are those of Unicode, as [str.strip], [str.lower]
    and the pattern [\s] see them. *)

From Stdlib Require Import ZArith String Ascii List Lia.
From stdpp Require Import gmap strings list sorting.

#[local] Set Warnings "-clear-no-such-hyp,-level-tolerance,-abstract-large-number".

Local Open Scope string_scope.

#[local] Arguments String.append !_ _ / : simpl nomatch.

(* ===================================================================== *)
(** ** Python's [str] operations *)
(* ===================================================================== *)

Module PyStr.

(** *** Characters

    A text is carried as its UTF-8 bytes. A character is a byte that is no
    continuation byte together with the continuation bytes that follow it;
    [code] is its code point. *)

Definition byte (c : ascii) : N := N_of_ascii c.

(** A continuation byte, [10xxxxxx]. *)
Definition is_cont (c : ascii) : bool := ((128 <=? byte c) && (byte c <? 192))%N.

Definition starts_cont (s : string) : bool :=
  match s with String b _ => is_cont b | EmptyString => false end.

(** The characters of a text, in order. *)
Fixpoint chars (s : string) : list string :=
  match s with
  | EmptyString => []
  | String a r =>
      match chars r with
      | ch :: l => if starts_cont ch then String a ch :: l else String a "" :: ch :: l
      | [] => [String a ""]
      end
  end.

(** The text of a list of characters, [''.join(l)]. *)
Definition unchars (l : list string) : string := fold_right String.append "" l.

(** The code point of a character: one byte below 128, or a lead byte with
    one, two or three continuation bytes, in the shortest form and outside
    the surrogates. *)
Definition code (ch : string) : option N :=
  match ch with
  | String a EmptyString => if (byte a <? 128)%N then Some (byte a) else None
  | String a (String b EmptyString) =>
      if ((194 <=? byte a) && (byte a <? 224))%N && is_cont b
      then Some ((byte a - 192) * 64 + (byte b - 128))%N
      else None
  | String a (String b (String c EmptyString)) =>
      let n := ((byte a - 224) * 4096 + (byte b - 128) * 64 + (byte c - 128))%N in
      if ((224 <=? byte a) && (byte a <? 240))%N && is_cont b && is_cont c
         && (2048 <=? n)%N && negb ((55296 <=? n) && (n <? 57344))%N
      then Some n
      else None
  | String a (String b (String c (String d EmptyString))) =>
      let n := ((byte a - 240) * 262144 + (byte b - 128) * 4096
                + (byte c - 128) * 64 + (byte d - 128))%N in
      if ((240 <=? byte a) && (byte a <? 245))%N && is_cont b && is_cont c && is_cont d
         && (65536 <=? n)%N && (n <? 1114112)%N
      then Some n
      else None
  | _ => None
  end.

(** The character of a code point, [chr(n).encode("utf-8")]. *)
Definition utf8 (n : N) : string :=
  if (n <? 128)%N then String (ascii_of_N n) ""
  else if (n <? 2048)%N then
    String (ascii_of_N (192 + n / 64)) (String (ascii_of_N (128 + n mod 64)) "")
  else if (n <? 65536)%N then
    String (ascii_of_N (224 + n / 4096))
      (String (ascii_of_N (128 + (n / 64) mod 64)) (String (ascii_of_N (128 + n mod 64)) ""))
  else
    String (ascii_of_N (240 + n / 262144))
      (String (ascii_of_N (128 + (n / 4096) mod 64))
         (String (ascii_of_N (128 + (n / 64) mod 64))
            (String (ascii_of_N (128 + n mod 64)) ""))).

(** *** Whitespace

    [chr(n).isspace()]: the class that [str.strip()] removes and that the
    pattern [\s] of [re] matches in a [str]. *)
Definition whitespaces : list N :=
  [0x9; 0xa; 0xb; 0xc; 0xd; 0x1c; 0x1d; 0x1e; 0x1f; 0x20; 0x85; 0xa0; 0x1680;
   0x2000; 0x2001; 0x2002; 0x2003; 0x2004; 0x2005; 0x2006; 0x2007; 0x2008; 0x2009; 0x200a;
   0x2028; 0x2029; 0x202f; 0x205f; 0x3000]%N.

Definition whitespace (n : N) : bool := existsb (N.eqb n) whitespaces.

Definition is_space (ch : string) : bool :=
  match code ch with Some n => whitespace n | None => false end.

Definition is_empty (s : string) : bool :=
  match s with EmptyString => true | String _ _ => false end.

Fixpoint lstrip_chars (l : list string) : list string :=
  match l with
  | [] => []
  | ch :: r => if is_space ch then lstrip_chars r else l
  end.

(** A character goes when it is whitespace and everything after it went. *)
Fixpoint rstrip_chars (l : list string) : list string :=
  match l with
  | [] => []
  | ch :: r =>
      let r' := rstrip_chars r in
      if is_space ch && (match r' with [] => true | _ => false end) then [] else ch :: r'
  end.

(** [s.strip()] *)
Definition strip (s : string) : string := unchars (rstrip_chars (lstrip_chars (chars s))).

(** Every maximal run of whitespace becomes one blank; [in_run] says that
    the previous character was whitespace. *)
Fixpoint sub_ws_chars (in_run : bool) (l : list string) : list string :=
  match l with
  | [] => []
  | ch :: r =>
      if is_space ch
      then (if in_run then sub_ws_chars true r else " " :: sub_ws_chars true r)
      else ch :: sub_ws_chars false r
  end.

(** [re.sub(r"\s+", " ", s)] *)
Definition sub_ws (s : string) : string := unchars (sub_ws_chars false (chars s)).

(** *** Case

    The lowercase mappings and the properties Cased and Case_Ignorable of
    the Unicode character database, version 14.0 (that of CPython 3.11).
    A row [(lo, hi, step, t)] of [lower_rows] maps [lo], [lo + step], ...,
    up to [hi], to [t], [t + step], ...; the rows are in ascending order.
    The other two tables list ranges, in ascending order. *)

Definition lower_rows : list (N * N * N * N) :=
  [
   (0x41, 0x5a, 1, 0x61); (0xc0, 0xd6, 1, 0xe0); (0xd8, 0xde, 1, 0xf8); (0x100, 0x12e, 2, 0x101);
   (0x132, 0x136, 2, 0x133); (0x139, 0x147, 2, 0x13a); (0x14a, 0x176, 2, 0x14b);
   (0x178, 0x178, 1, 0xff); (0x179, 0x17d, 2, 0x17a); (0x181, 0x181, 1, 0x253);
   (0x182, 0x184, 2, 0x183); (0x186, 0x186, 1, 0x254); (0x187, 0x187, 1, 0x188);
   (0x189, 0x18a, 1, 0x256); (0x18b, 0x18b, 1, 0x18c); (0x18e, 0x18e, 1, 0x1dd);
   (0x18f, 0x18f, 1, 0x259); (0x190, 0x190, 1, 0x25b); (0x191, 0x191, 1, 0x192);
   (0x193, 0x193, 1, 0x260); (0x194, 0x194, 1, 0x263); (0x196, 0x196, 1, 0x269);
   (0x197, 0x197, 1, 0x268); (0x198, 0x198, 1, 0x199); (0x19c, 0x19c, 1, 0x26f);
   (0x19d, 0x19d, 1, 0x272); (0x19f, 0x19f, 1, 0x275); (0x1a0, 0x1a4, 2, 0x1a1);
   (0x1a6, 0x1a6, 1, 0x280); (0x1a7, 0x1a7, 1, 0x1a8); (0x1a9, 0x1a9, 1, 0x283);
   (0x1ac, 0x1ac, 1, 0x1ad); (0x1ae, 0x1ae, 1, 0x288); (0x1af, 0x1af, 1, 0x1b0);
   (0x1b1, 0x1b2, 1, 0x28a); (0x1b3, 0x1b5, 2, 0x1b4); (0x1b7, 0x1b7, 1, 0x292);
   (0x1b8, 0x1b8, 1, 0x1b9); (0x1bc, 0x1bc, 1, 0x1bd); (0x1c4, 0x1c4, 1, 0x1c6);
   (0x1c5, 0x1c5, 1, 0x1c6); (0x1c7, 0x1c7, 1, 0x1c9); (0x1c8, 0x1c8, 1, 0x1c9);
   (0x1ca, 0x1ca, 1, 0x1cc); (0x1cb, 0x1db, 2, 0x1cc); (0x1de, 0x1ee, 2, 0x1df);
   (0x1f1, 0x1f1, 1, 0x1f3); (0x1f2, 0x1f4, 2, 0x1f3); (0x1f6, 0x1f6, 1, 0x195);
   (0x1f7, 0x1f7, 1, 0x1bf); (0x1f8, 0x21e, 2, 0x1f9); (0x220, 0x220, 1, 0x19e);
   (0x222, 0x232, 2, 0x223); (0x23a, 0x23a, 1, 0x2c65); (0x23b, 0x23b, 1, 0x23c);
   (0x23d, 0x23d, 1, 0x19a); (0x23e, 0x23e, 1, 0x2c66); (0x241, 0x241, 1, 0x242);
   (0x243, 0x243, 1, 0x180); (0x244, 0x244, 1, 0x289); (0x245, 0x245, 1, 0x28c);
   (0x246, 0x24e, 2, 0x247); (0x370, 0x372, 2, 0x371); (0x376, 0x376, 1, 0x377);
   (0x37f, 0x37f, 1, 0x3f3); (0x386, 0x386, 1, 0x3ac); (0x388, 0x38a, 1, 0x3ad);
   (0x38c, 0x38c, 1, 0x3cc); (0x38e, 0x38f, 1, 0x3cd); (0x391, 0x3a1, 1, 0x3b1);
   (0x3a3, 0x3ab, 1, 0x3c3); (0x3cf, 0x3cf, 1, 0x3d7); (0x3d8, 0x3ee, 2, 0x3d9);
   (0x3f4, 0x3f4, 1, 0x3b8); (0x3f7, 0x3f7, 1, 0x3f8); (0x3f9, 0x3f9, 1, 0x3f2);
   (0x3fa, 0x3fa, 1, 0x3fb); (0x3fd, 0x3ff, 1, 0x37b); (0x400, 0x40f, 1, 0x450);
   (0x410, 0x42f, 1, 0x430); (0x460, 0x480, 2, 0x461); (0x48a, 0x4be, 2, 0x48b);
   (0x4c0, 0x4c0, 1, 0x4cf); (0x4c1, 0x4cd, 2, 0x4c2); (0x4d0, 0x52e, 2, 0x4d1);
   (0x531, 0x556, 1, 0x561); (0x10a0, 0x10c5, 1, 0x2d00); (0x10c7, 0x10c7, 1, 0x2d27);
   (0x10cd, 0x10cd, 1, 0x2d2d); (0x13a0, 0x13ef, 1, 0xab70); (0x13f0, 0x13f5, 1, 0x13f8);
   (0x1c90, 0x1cba, 1, 0x10d0); (0x1cbd, 0x1cbf, 1, 0x10fd); (0x1e00, 0x1e94, 2, 0x1e01);
   (0x1e9e, 0x1e9e, 1, 0xdf); (0x1ea0, 0x1efe, 2, 0x1ea1); (0x1f08, 0x1f0f, 1, 0x1f00);
   (0x1f18, 0x1f1d, 1, 0x1f10); (0x1f28, 0x1f2f, 1, 0x1f20); (0x1f38, 0x1f3f, 1, 0x1f30);
   (0x1f48, 0x1f4d, 1, 0x1f40); (0x1f59, 0x1f5f, 2, 0x1f51); (0x1f68, 0x1f6f, 1, 0x1f60);
   (0x1f88, 0x1f8f, 1, 0x1f80); (0x1f98, 0x1f9f, 1, 0x1f90); (0x1fa8, 0x1faf, 1, 0x1fa0);
   (0x1fb8, 0x1fb9, 1, 0x1fb0); (0x1fba, 0x1fbb, 1, 0x1f70); (0x1fbc, 0x1fbc, 1, 0x1fb3);
   (0x1fc8, 0x1fcb, 1, 0x1f72); (0x1fcc, 0x1fcc, 1, 0x1fc3); (0x1fd8, 0x1fd9, 1, 0x1fd0);
   (0x1fda, 0x1fdb, 1, 0x1f76); (0x1fe8, 0x1fe9, 1, 0x1fe0); (0x1fea, 0x1feb, 1, 0x1f7a);
   (0x1fec, 0x1fec, 1, 0x1fe5); (0x1ff8, 0x1ff9, 1, 0x1f78); (0x1ffa, 0x1ffb, 1, 0x1f7c);
   (0x1ffc, 0x1ffc, 1, 0x1ff3); (0x2126, 0x2126, 1, 0x3c9); (0x212a, 0x212a, 1, 0x6b);
   (0x212b, 0x212b, 1, 0xe5); (0x2132, 0x2132, 1, 0x214e); (0x2160, 0x216f, 1, 0x2170);
   (0x2183, 0x2183, 1, 0x2184); (0x24b6, 0x24cf, 1, 0x24d0); (0x2c00, 0x2c2f, 1, 0x2c30);
   (0x2c60, 0x2c60, 1, 0x2c61); (0x2c62, 0x2c62, 1, 0x26b); (0x2c63, 0x2c63, 1, 0x1d7d);
   (0x2c64, 0x2c64, 1, 0x27d); (0x2c67, 0x2c6b, 2, 0x2c68); (0x2c6d, 0x2c6d, 1, 0x251);
   (0x2c6e, 0x2c6e, 1, 0x271); (0x2c6f, 0x2c6f, 1, 0x250); (0x2c70, 0x2c70, 1, 0x252);
   (0x2c72, 0x2c72, 1, 0x2c73); (0x2c75, 0x2c75, 1, 0x2c76); (0x2c7e, 0x2c7f, 1, 0x23f);
   (0x2c80, 0x2ce2, 2, 0x2c81); (0x2ceb, 0x2ced, 2, 0x2cec); (0x2cf2, 0x2cf2, 1, 0x2cf3);
   (0xa640, 0xa66c, 2, 0xa641); (0xa680, 0xa69a, 2, 0xa681); (0xa722, 0xa72e, 2, 0xa723);
   (0xa732, 0xa76e, 2, 0xa733); (0xa779, 0xa77b, 2, 0xa77a); (0xa77d, 0xa77d, 1, 0x1d79);
   (0xa77e, 0xa786, 2, 0xa77f); (0xa78b, 0xa78b, 1, 0xa78c); (0xa78d, 0xa78d, 1, 0x265);
   (0xa790, 0xa792, 2, 0xa791); (0xa796, 0xa7a8, 2, 0xa797); (0xa7aa, 0xa7aa, 1, 0x266);
   (0xa7ab, 0xa7ab, 1, 0x25c); (0xa7ac, 0xa7ac, 1, 0x261); (0xa7ad, 0xa7ad, 1, 0x26c);
   (0xa7ae, 0xa7ae, 1, 0x26a); (0xa7b0, 0xa7b0, 1, 0x29e); (0xa7b1, 0xa7b1, 1, 0x287);
   (0xa7b2, 0xa7b2, 1, 0x29d); (0xa7b3, 0xa7b3, 1, 0xab53); (0xa7b4, 0xa7c2, 2, 0xa7b5);
   (0xa7c4, 0xa7c4, 1, 0xa794); (0xa7c5, 0xa7c5, 1, 0x282); (0xa7c6, 0xa7c6, 1, 0x1d8e);
   (0xa7c7, 0xa7c9, 2, 0xa7c8); (0xa7d0, 0xa7d0, 1, 0xa7d1); (0xa7d6, 0xa7d8, 2, 0xa7d7);
   (0xa7f5, 0xa7f5, 1, 0xa7f6); (0xff21, 0xff3a, 1, 0xff41); (0x10400, 0x10427, 1, 0x10428);
   (0x104b0, 0x104d3, 1, 0x104d8); (0x10570, 0x1057a, 1, 0x10597); (0x1057c, 0x1058a, 1, 0x105a3);
   (0x1058c, 0x10592, 1, 0x105b3); (0x10594, 0x10595, 1, 0x105bb); (0x10c80, 0x10cb2, 1, 0x10cc0);
   (0x118a0, 0x118bf, 1, 0x118c0); (0x16e40, 0x16e5f, 1, 0x16e60); (0x1e900, 0x1e921, 1, 0x1e922)
  ]%N.

Definition cased_ranges : list (N * N) :=
  [
   (0x41, 0x5a); (0x61, 0x7a); (0xaa, 0xaa); (0xb5, 0xb5); (0xba, 0xba); (0xc0, 0xd6);
   (0xd8, 0xf6); (0xf8, 0x1ba); (0x1bc, 0x1bf); (0x1c4, 0x293); (0x295, 0x2b8); (0x2c0, 0x2c1);
   (0x2e0, 0x2e4); (0x345, 0x345); (0x370, 0x373); (0x376, 0x377); (0x37a, 0x37d); (0x37f, 0x37f);
   (0x386, 0x386); (0x388, 0x38a); (0x38c, 0x38c); (0x38e, 0x3a1); (0x3a3, 0x3f5); (0x3f7, 0x481);
   (0x48a, 0x52f); (0x531, 0x556); (0x560, 0x588); (0x10a0, 0x10c5); (0x10c7, 0x10c7);
   (0x10cd, 0x10cd); (0x10d0, 0x10fa); (0x10fd, 0x10ff); (0x13a0, 0x13f5); (0x13f8, 0x13fd);
   (0x1c80, 0x1c88); (0x1c90, 0x1cba); (0x1cbd, 0x1cbf); (0x1d00, 0x1dbf); (0x1e00, 0x1f15);
   (0x1f18, 0x1f1d); (0x1f20, 0x1f45); (0x1f48, 0x1f4d); (0x1f50, 0x1f57); (0x1f59, 0x1f59);
   (0x1f5b, 0x1f5b); (0x1f5d, 0x1f5d); (0x1f5f, 0x1f7d); (0x1f80, 0x1fb4); (0x1fb6, 0x1fbc);
   (0x1fbe, 0x1fbe); (0x1fc2, 0x1fc4); (0x1fc6, 0x1fcc); (0x1fd0, 0x1fd3); (0x1fd6, 0x1fdb);
   (0x1fe0, 0x1fec); (0x1ff2, 0x1ff4); (0x1ff6, 0x1ffc); (0x2071, 0x2071); (0x207f, 0x207f);
   (0x2090, 0x209c); (0x2102, 0x2102); (0x2107, 0x2107); (0x210a, 0x2113); (0x2115, 0x2115);
   (0x2119, 0x211d); (0x2124, 0x2124); (0x2126, 0x2126); (0x2128, 0x2128); (0x212a, 0x212d);
   (0x212f, 0x2134); (0x2139, 0x2139); (0x213c, 0x213f); (0x2145, 0x2149); (0x214e, 0x214e);
   (0x2160, 0x217f); (0x2183, 0x2184); (0x24b6, 0x24e9); (0x2c00, 0x2ce4); (0x2ceb, 0x2cee);
   (0x2cf2, 0x2cf3); (0x2d00, 0x2d25); (0x2d27, 0x2d27); (0x2d2d, 0x2d2d); (0xa640, 0xa66d);
   (0xa680, 0xa69d); (0xa722, 0xa787); (0xa78b, 0xa78e); (0xa790, 0xa7ca); (0xa7d0, 0xa7d1);
   (0xa7d3, 0xa7d3); (0xa7d5, 0xa7d9); (0xa7f5, 0xa7f6); (0xa7f8, 0xa7fa); (0xab30, 0xab5a);
   (0xab5c, 0xab68); (0xab70, 0xabbf); (0xfb00, 0xfb06); (0xfb13, 0xfb17); (0xff21, 0xff3a);
   (0xff41, 0xff5a); (0x10400, 0x1044f); (0x104b0, 0x104d3); (0x104d8, 0x104fb);
   (0x10570, 0x1057a); (0x1057c, 0x1058a); (0x1058c, 0x10592); (0x10594, 0x10595);
   (0x10597, 0x105a1); (0x105a3, 0x105b1); (0x105b3, 0x105b9); (0x105bb, 0x105bc);
   (0x10780, 0x10780); (0x10783, 0x10785); (0x10787, 0x107b0); (0x107b2, 0x107ba);
   (0x10c80, 0x10cb2); (0x10cc0, 0x10cf2); (0x118a0, 0x118df); (0x16e40, 0x16e7f);
   (0x1d400, 0x1d454); (0x1d456, 0x1d49c); (0x1d49e, 0x1d49f); (0x1d4a2, 0x1d4a2);
   (0x1d4a5, 0x1d4a6); (0x1d4a9, 0x1d4ac); (0x1d4ae, 0x1d4b9); (0x1d4bb, 0x1d4bb);
   (0x1d4bd, 0x1d4c3); (0x1d4c5, 0x1d505); (0x1d507, 0x1d50a); (0x1d50d, 0x1d514);
   (0x1d516, 0x1d51c); (0x1d51e, 0x1d539); (0x1d53b, 0x1d53e); (0x1d540, 0x1d544);
   (0x1d546, 0x1d546); (0x1d54a, 0x1d550); (0x1d552, 0x1d6a5); (0x1d6a8, 0x1d6c0);
   (0x1d6c2, 0x1d6da); (0x1d6dc, 0x1d6fa); (0x1d6fc, 0x1d714); (0x1d716, 0x1d734);
   (0x1d736, 0x1d74e); (0x1d750, 0x1d76e); (0x1d770, 0x1d788); (0x1d78a, 0x1d7a8);
   (0x1d7aa, 0x1d7c2); (0x1d7c4, 0x1d7cb); (0x1df00, 0x1df09); (0x1df0b, 0x1df1e);
   (0x1e900, 0x1e943); (0x1f130, 0x1f149); (0x1f150, 0x1f169); (0x1f170, 0x1f189)
  ]%N.

Definition case_ignorable_ranges : list (N * N) :=
  [
   (0x27, 0x27); (0x2e, 0x2e); (0x3a, 0x3a); (0x5e, 0x5e); (0x60, 0x60); (0xa8, 0xa8);
   (0xad, 0xad); (0xaf, 0xaf); (0xb4, 0xb4); (0xb7, 0xb8); (0x2b0, 0x36f); (0x374, 0x375);
   (0x37a, 0x37a); (0x384, 0x385); (0x387, 0x387); (0x483, 0x489); (0x559, 0x559); (0x55f, 0x55f);
   (0x591, 0x5bd); (0x5bf, 0x5bf); (0x5c1, 0x5c2); (0x5c4, 0x5c5); (0x5c7, 0x5c7); (0x5f4, 0x5f4);
   (0x600, 0x605); (0x610, 0x61a); (0x61c, 0x61c); (0x640, 0x640); (0x64b, 0x65f); (0x670, 0x670);
   (0x6d6, 0x6dd); (0x6df, 0x6e8); (0x6ea, 0x6ed); (0x70f, 0x70f); (0x711, 0x711); (0x730, 0x74a);
   (0x7a6, 0x7b0); (0x7eb, 0x7f5); (0x7fa, 0x7fa); (0x7fd, 0x7fd); (0x816, 0x82d); (0x859, 0x85b);
   (0x888, 0x888); (0x890, 0x891); (0x898, 0x89f); (0x8c9, 0x902); (0x93a, 0x93a); (0x93c, 0x93c);
   (0x941, 0x948); (0x94d, 0x94d); (0x951, 0x957); (0x962, 0x963); (0x971, 0x971); (0x981, 0x981);
   (0x9bc, 0x9bc); (0x9c1, 0x9c4); (0x9cd, 0x9cd); (0x9e2, 0x9e3); (0x9fe, 0x9fe); (0xa01, 0xa02);
   (0xa3c, 0xa3c); (0xa41, 0xa42); (0xa47, 0xa48); (0xa4b, 0xa4d); (0xa51, 0xa51); (0xa70, 0xa71);
   (0xa75, 0xa75); (0xa81, 0xa82); (0xabc, 0xabc); (0xac1, 0xac5); (0xac7, 0xac8); (0xacd, 0xacd);
   (0xae2, 0xae3); (0xafa, 0xaff); (0xb01, 0xb01); (0xb3c, 0xb3c); (0xb3f, 0xb3f); (0xb41, 0xb44);
   (0xb4d, 0xb4d); (0xb55, 0xb56); (0xb62, 0xb63); (0xb82, 0xb82); (0xbc0, 0xbc0); (0xbcd, 0xbcd);
   (0xc00, 0xc00); (0xc04, 0xc04); (0xc3c, 0xc3c); (0xc3e, 0xc40); (0xc46, 0xc48); (0xc4a, 0xc4d);
   (0xc55, 0xc56); (0xc62, 0xc63); (0xc81, 0xc81); (0xcbc, 0xcbc); (0xcbf, 0xcbf); (0xcc6, 0xcc6);
   (0xccc, 0xccd); (0xce2, 0xce3); (0xd00, 0xd01); (0xd3b, 0xd3c); (0xd41, 0xd44); (0xd4d, 0xd4d);
   (0xd62, 0xd63); (0xd81, 0xd81); (0xdca, 0xdca); (0xdd2, 0xdd4); (0xdd6, 0xdd6); (0xe31, 0xe31);
   (0xe34, 0xe3a); (0xe46, 0xe4e); (0xeb1, 0xeb1); (0xeb4, 0xebc); (0xec6, 0xec6); (0xec8, 0xecd);
   (0xf18, 0xf19); (0xf35, 0xf35); (0xf37, 0xf37); (0xf39, 0xf39); (0xf71, 0xf7e); (0xf80, 0xf84);
   (0xf86, 0xf87); (0xf8d, 0xf97); (0xf99, 0xfbc); (0xfc6, 0xfc6); (0x102d, 0x1030);
   (0x1032, 0x1037); (0x1039, 0x103a); (0x103d, 0x103e); (0x1058, 0x1059); (0x105e, 0x1060);
   (0x1071, 0x1074); (0x1082, 0x1082); (0x1085, 0x1086); (0x108d, 0x108d); (0x109d, 0x109d);
   (0x10fc, 0x10fc); (0x135d, 0x135f); (0x1712, 0x1714); (0x1732, 0x1733); (0x1752, 0x1753);
   (0x1772, 0x1773); (0x17b4, 0x17b5); (0x17b7, 0x17bd); (0x17c6, 0x17c6); (0x17c9, 0x17d3);
   (0x17d7, 0x17d7); (0x17dd, 0x17dd); (0x180b, 0x180f); (0x1843, 0x1843); (0x1885, 0x1886);
   (0x18a9, 0x18a9); (0x1920, 0x1922); (0x1927, 0x1928); (0x1932, 0x1932); (0x1939, 0x193b);
   (0x1a17, 0x1a18); (0x1a1b, 0x1a1b); (0x1a56, 0x1a56); (0x1a58, 0x1a5e); (0x1a60, 0x1a60);
   (0x1a62, 0x1a62); (0x1a65, 0x1a6c); (0x1a73, 0x1a7c); (0x1a7f, 0x1a7f); (0x1aa7, 0x1aa7);
   (0x1ab0, 0x1ace); (0x1b00, 0x1b03); (0x1b34, 0x1b34); (0x1b36, 0x1b3a); (0x1b3c, 0x1b3c);
   (0x1b42, 0x1b42); (0x1b6b, 0x1b73); (0x1b80, 0x1b81); (0x1ba2, 0x1ba5); (0x1ba8, 0x1ba9);
   (0x1bab, 0x1bad); (0x1be6, 0x1be6); (0x1be8, 0x1be9); (0x1bed, 0x1bed); (0x1bef, 0x1bf1);
   (0x1c2c, 0x1c33); (0x1c36, 0x1c37); (0x1c78, 0x1c7d); (0x1cd0, 0x1cd2); (0x1cd4, 0x1ce0);
   (0x1ce2, 0x1ce8); (0x1ced, 0x1ced); (0x1cf4, 0x1cf4); (0x1cf8, 0x1cf9); (0x1d2c, 0x1d6a);
   (0x1d78, 0x1d78); (0x1d9b, 0x1dff); (0x1fbd, 0x1fbd); (0x1fbf, 0x1fc1); (0x1fcd, 0x1fcf);
   (0x1fdd, 0x1fdf); (0x1fed, 0x1fef); (0x1ffd, 0x1ffe); (0x200b, 0x200f); (0x2018, 0x2019);
   (0x2024, 0x2024); (0x2027, 0x2027); (0x202a, 0x202e); (0x2060, 0x2064); (0x2066, 0x206f);
   (0x2071, 0x2071); (0x207f, 0x207f); (0x2090, 0x209c); (0x20d0, 0x20f0); (0x2c7c, 0x2c7d);
   (0x2cef, 0x2cf1); (0x2d6f, 0x2d6f); (0x2d7f, 0x2d7f); (0x2de0, 0x2dff); (0x2e2f, 0x2e2f);
   (0x3005, 0x3005); (0x302a, 0x302d); (0x3031, 0x3035); (0x303b, 0x303b); (0x3099, 0x309e);
   (0x30fc, 0x30fe); (0xa015, 0xa015); (0xa4f8, 0xa4fd); (0xa60c, 0xa60c); (0xa66f, 0xa672);
   (0xa674, 0xa67d); (0xa67f, 0xa67f); (0xa69c, 0xa69f); (0xa6f0, 0xa6f1); (0xa700, 0xa721);
   (0xa770, 0xa770); (0xa788, 0xa78a); (0xa7f2, 0xa7f4); (0xa7f8, 0xa7f9); (0xa802, 0xa802);
   (0xa806, 0xa806); (0xa80b, 0xa80b); (0xa825, 0xa826); (0xa82c, 0xa82c); (0xa8c4, 0xa8c5);
   (0xa8e0, 0xa8f1); (0xa8ff, 0xa8ff); (0xa926, 0xa92d); (0xa947, 0xa951); (0xa980, 0xa982);
   (0xa9b3, 0xa9b3); (0xa9b6, 0xa9b9); (0xa9bc, 0xa9bd); (0xa9cf, 0xa9cf); (0xa9e5, 0xa9e6);
   (0xaa29, 0xaa2e); (0xaa31, 0xaa32); (0xaa35, 0xaa36); (0xaa43, 0xaa43); (0xaa4c, 0xaa4c);
   (0xaa70, 0xaa70); (0xaa7c, 0xaa7c); (0xaab0, 0xaab0); (0xaab2, 0xaab4); (0xaab7, 0xaab8);
   (0xaabe, 0xaabf); (0xaac1, 0xaac1); (0xaadd, 0xaadd); (0xaaec, 0xaaed); (0xaaf3, 0xaaf4);
   (0xaaf6, 0xaaf6); (0xab5b, 0xab5f); (0xab69, 0xab6b); (0xabe5, 0xabe5); (0xabe8, 0xabe8);
   (0xabed, 0xabed); (0xfb1e, 0xfb1e); (0xfbb2, 0xfbc2); (0xfe00, 0xfe0f); (0xfe13, 0xfe13);
   (0xfe20, 0xfe2f); (0xfe52, 0xfe52); (0xfe55, 0xfe55); (0xfeff, 0xfeff); (0xff07, 0xff07);
   (0xff0e, 0xff0e); (0xff1a, 0xff1a); (0xff3e, 0xff3e); (0xff40, 0xff40); (0xff70, 0xff70);
   (0xff9e, 0xff9f); (0xffe3, 0xffe3); (0xfff9, 0xfffb); (0x101fd, 0x101fd); (0x102e0, 0x102e0);
   (0x10376, 0x1037a); (0x10780, 0x10785); (0x10787, 0x107b0); (0x107b2, 0x107ba);
   (0x10a01, 0x10a03); (0x10a05, 0x10a06); (0x10a0c, 0x10a0f); (0x10a38, 0x10a3a);
   (0x10a3f, 0x10a3f); (0x10ae5, 0x10ae6); (0x10d24, 0x10d27); (0x10eab, 0x10eac);
   (0x10f46, 0x10f50); (0x10f82, 0x10f85); (0x11001, 0x11001); (0x11038, 0x11046);
   (0x11070, 0x11070); (0x11073, 0x11074); (0x1107f, 0x11081); (0x110b3, 0x110b6);
   (0x110b9, 0x110ba); (0x110bd, 0x110bd); (0x110c2, 0x110c2); (0x110cd, 0x110cd);
   (0x11100, 0x11102); (0x11127, 0x1112b); (0x1112d, 0x11134); (0x11173, 0x11173);
   (0x11180, 0x11181); (0x111b6, 0x111be); (0x111c9, 0x111cc); (0x111cf, 0x111cf);
   (0x1122f, 0x11231); (0x11234, 0x11234); (0x11236, 0x11237); (0x1123e, 0x1123e);
   (0x112df, 0x112df); (0x112e3, 0x112ea); (0x11300, 0x11301); (0x1133b, 0x1133c);
   (0x11340, 0x11340); (0x11366, 0x1136c); (0x11370, 0x11374); (0x11438, 0x1143f);
   (0x11442, 0x11444); (0x11446, 0x11446); (0x1145e, 0x1145e); (0x114b3, 0x114b8);
   (0x114ba, 0x114ba); (0x114bf, 0x114c0); (0x114c2, 0x114c3); (0x115b2, 0x115b5);
   (0x115bc, 0x115bd); (0x115bf, 0x115c0); (0x115dc, 0x115dd); (0x11633, 0x1163a);
   (0x1163d, 0x1163d); (0x1163f, 0x11640); (0x116ab, 0x116ab); (0x116ad, 0x116ad);
   (0x116b0, 0x116b5); (0x116b7, 0x116b7); (0x1171d, 0x1171f); (0x11722, 0x11725);
   (0x11727, 0x1172b); (0x1182f, 0x11837); (0x11839, 0x1183a); (0x1193b, 0x1193c);
   (0x1193e, 0x1193e); (0x11943, 0x11943); (0x119d4, 0x119d7); (0x119da, 0x119db);
   (0x119e0, 0x119e0); (0x11a01, 0x11a0a); (0x11a33, 0x11a38); (0x11a3b, 0x11a3e);
   (0x11a47, 0x11a47); (0x11a51, 0x11a56); (0x11a59, 0x11a5b); (0x11a8a, 0x11a96);
   (0x11a98, 0x11a99); (0x11c30, 0x11c36); (0x11c38, 0x11c3d); (0x11c3f, 0x11c3f);
   (0x11c92, 0x11ca7); (0x11caa, 0x11cb0); (0x11cb2, 0x11cb3); (0x11cb5, 0x11cb6);
   (0x11d31, 0x11d36); (0x11d3a, 0x11d3a); (0x11d3c, 0x11d3d); (0x11d3f, 0x11d45);
   (0x11d47, 0x11d47); (0x11d90, 0x11d91); (0x11d95, 0x11d95); (0x11d97, 0x11d97);
   (0x11ef3, 0x11ef4); (0x13430, 0x13438); (0x16af0, 0x16af4); (0x16b30, 0x16b36);
   (0x16b40, 0x16b43); (0x16f4f, 0x16f4f); (0x16f8f, 0x16f9f); (0x16fe0, 0x16fe1);
   (0x16fe3, 0x16fe4); (0x1aff0, 0x1aff3); (0x1aff5, 0x1affb); (0x1affd, 0x1affe);
   (0x1bc9d, 0x1bc9e); (0x1bca0, 0x1bca3); (0x1cf00, 0x1cf2d); (0x1cf30, 0x1cf46);
   (0x1d167, 0x1d169); (0x1d173, 0x1d182); (0x1d185, 0x1d18b); (0x1d1aa, 0x1d1ad);
   (0x1d242, 0x1d244); (0x1da00, 0x1da36); (0x1da3b, 0x1da6c); (0x1da75, 0x1da75);
   (0x1da84, 0x1da84); (0x1da9b, 0x1da9f); (0x1daa1, 0x1daaf); (0x1e000, 0x1e006);
   (0x1e008, 0x1e018); (0x1e01b, 0x1e021); (0x1e023, 0x1e024); (0x1e026, 0x1e02a);
   (0x1e130, 0x1e13d); (0x1e2ae, 0x1e2ae); (0x1e2ec, 0x1e2ef); (0x1e8d0, 0x1e8d6);
   (0x1e944, 0x1e94b); (0x1f3fb, 0x1f3ff); (0xe0001, 0xe0001); (0xe0020, 0xe007f);
   (0xe0100, 0xe01ef)
  ]%N.

(** The lowercase of [n] when that is one other character
    ([_PyUnicode_ToLowerFull] but for U+0130). *)
Fixpoint lower_code (n : N) (rows : list (N * N * N * N)) : option N :=
  match rows with
  | [] => None
  | (lo, hi, step, t) :: r =>
      if (n <? lo)%N then None
      else if (n <=? hi)%N && ((n - lo) mod step =? 0)%N then Some (t + (n - lo))%N
      else lower_code n r
  end.

Fixpoint in_ranges (n : N) (rs : list (N * N)) : bool :=
  match rs with
  | [] => false
  | (lo, hi) :: r => if (n <? lo)%N then false else (n <=? hi)%N || in_ranges n r
  end.

Definition cased (n : N) : bool := in_ranges n cased_ranges.
Definition case_ignorable (n : N) : bool := in_ranges n case_ignorable_ranges.

(** The first character of [l] that is not case-ignorable is cased. *)
Fixpoint cased_first (l : list string) : bool :=
  match l with
  | [] => false
  | ch :: r =>
      match code ch with
      | Some n => if case_ignorable n then cased_first r else cased n
      | None => false
      end
  end.

(** The context in which a capital sigma becomes a final sigma: a cased
    character before it and none after it, case-ignorable characters apart.
    [before] holds the characters before it, the nearest first. *)
Definition final_sigma (before after : list string) : bool :=
  cased_first before && negb (cased_first after).

(** The lowercase of one character. U+03A3 depends on its context, U+0130
    becomes two characters, a character not in the table stays. *)
Definition lower_char (before after : list string) (ch : string) : list string :=
  match code ch with
  | Some n =>
      if (n =? 0x3a3)%N then [utf8 (if final_sigma before after then 0x3c2 else 0x3c3)%N]
      else if (n =? 0x130)%N then [utf8 0x69; utf8 0x307]
      else match lower_code n lower_rows with
           | Some t => [utf8 t]
           | None => [ch]
           end
  | None => [ch]
  end.

Fixpoint lower_chars (before l : list string) : list string :=
  match l with
  | [] => []
  | ch :: r => (lower_char before r ch ++ lower_chars (ch :: before) r)%list
  end.

(** [s.lower()] *)
Definition lower (s : string) : string := unchars (lower_chars [] (chars s)).

(** *** Searching, joining, slicing *)

Fixpoint starts_with (k h : string) : bool :=
  match k, h with
  | EmptyString, _ => true
  | String a k', String b h' => if ascii_dec a b then starts_with k' h' else false
  | String _ _, EmptyString => false
  end.

(** [k in h] for two strings: [k] occurs in [h] as a substring. In UTF-8 no
    character starts inside another, so a text occurs in a text exactly when
    its bytes occur in the bytes. *)
Fixpoint contains (k h : string) : bool :=
  starts_with k h ||
  match h with
  | EmptyString => false
  | String _ h' => contains k h'
  end.

(** [sep.join(parts)] *)
Fixpoint join (sep : string) (parts : list string) : string :=
  match parts with
  | [] => EmptyString
  | [p] => p
  | p :: rest => p ++ sep ++ join sep rest
  end.

(** [s[:n]] for [n >= 0]: the first [n] characters. *)
Definition prefix (n : nat) (s : string) : string := unchars (take n (chars s)).

(** *** Numbers *)

Definition digit_char (d : Z) : ascii := ascii_of_nat (48 + Z.to_nat d).

(** The decimal digits of [n >= 0]; [fuel] bounds their number. *)
Fixpoint decimal (fuel : nat) (n : Z) : string :=
  match fuel with
  | O => EmptyString
  | S f =>
      if (n <? 10)%Z then String (digit_char n) EmptyString
      else decimal f (n / 10) ++ String (digit_char (n mod 10)) EmptyString
  end.

(** [str(n)] for an integer. A number has no more decimal than binary
    digits. *)
Definition of_Z (z : Z) : string :=
  if (z <? 0)%Z then "-" ++ decimal (S (Z.to_nat (Z.log2 (- z)))) (- z)
  else decimal (S (Z.to_nat (Z.log2 z))) z.

(** ["%02d"]-style field of [strftime]: at least [w] digits, zero padded. *)
Fixpoint zeros (n : nat) : string :=
  match n with O => EmptyString | S n' => String "0" (zeros n') end.

Definition zero_pad (w : nat) (z : Z) : string :=
  let d := of_Z z in zeros (w - String.length d) ++ d.

End PyStr.

(* ===================================================================== *)
(** ** SHA-256 (FIPS 180-4), on 32-bit words carried in [Z] *)
(* ===================================================================== *)

Module Sha256.
Local Open Scope Z_scope.

(** Reduction modulo [2^32]: the low 32 bits. *)
Definition wrap (x : Z) : Z := Z.land x (Z.ones 32).
Definition add32 (x y : Z) : Z := wrap (x + y).
Definition rotr (n x : Z) : Z := Z.lor (Z.shiftr x n) (wrap (Z.shiftl x (32 - n))).
Definition not32 (x : Z) : Z := Z.lxor x (Z.ones 32).

Definition ch (x y z : Z) : Z := Z.lxor (Z.land x y) (Z.land (not32 x) z).
Definition maj (x y z : Z) : Z :=
  Z.lxor (Z.lxor (Z.land x y) (Z.land x z)) (Z.land y z).
Definition big_sigma0 (x : Z) : Z := Z.lxor (Z.lxor (rotr 2 x) (rotr 13 x)) (rotr 22 x).
Definition big_sigma1 (x : Z) : Z := Z.lxor (Z.lxor (rotr 6 x) (rotr 11 x)) (rotr 25 x).
Definition small_sigma0 (x : Z) : Z := Z.lxor (Z.lxor (rotr 7 x) (rotr 18 x)) (Z.shiftr x 3).
Definition small_sigma1 (x : Z) : Z := Z.lxor (Z.lxor (rotr 17 x) (rotr 19 x)) (Z.shiftr x 10).

(** The constants are defined as the standard defines them: the first 32
    bits of the fractional parts of the square roots (initial hash value)
    and cube roots (round constants) of the first primes. *)
Definition is_prime (n : Z) : bool :=
  forallb (fun d => negb (n mod d =? 0)) (map Z.of_nat (seq 2 (Z.to_nat n - 2))).

Definition first_primes : list Z :=
  Eval vm_compute in List.filter is_prime (map Z.of_nat (seq 2 310)).

(** The largest [r] below [2^bits] (above the start value) with [r^3 <= n]. *)
Fixpoint cube_root (n : Z) (bits : nat) (r : Z) : Z :=
  match bits with
  | O => r
  | S b =>
      let r' := r + 2 ^ Z.of_nat b in
      cube_root n b (if r' * r' * r' <=? n then r' else r)
  end.

Definition initial_hash : list Z :=
  Eval vm_compute in
    map (fun p => wrap (Z.sqrt (p * 2 ^ 64))) (firstn 8 first_primes).

Definition round_constants : list Z :=
  Eval vm_compute in
    map (fun p => wrap (cube_root (p * 2 ^ 96) 40 0)) (firstn 64 first_primes).

(** Padding: the byte 0x80, zero bytes up to 56 modulo 64, and the length
    in bits as a 64-bit big-endian number. *)
Definition be_bytes (n : nat) (x : Z) : list Z :=
  map (fun i => Z.shiftr x (8 * Z.of_nat i) mod 256) (rev (seq 0 n)).

Definition pad (msg : list Z) : list Z :=
  let len := Z.of_nat (length msg) in
  msg ++ [128] ++ repeat 0 (Z.to_nat ((55 - len) mod 64)) ++ be_bytes 8 (8 * len).

Fixpoint be_words (fuel : nat) (bs : list Z) : list Z :=
  match fuel, bs with
  | S f, b0 :: b1 :: b2 :: b3 :: rest =>
      (Z.shiftl b0 24 + Z.shiftl b1 16 + Z.shiftl b2 8 + b3) :: be_words f rest
  | _, _ => []
  end.

Fixpoint blocks (fuel : nat) (ws : list Z) : list (list Z) :=
  match fuel, ws with
  | _, [] => []
  | O, _ => []
  | S f, _ => firstn 16 ws :: blocks f (skipn 16 ws)
  end.

(** The message schedule, most recent word first: [W(t-2)], [W(t-7)],
    [W(t-15)] and [W(t-16)] are at positions 1, 6, 14 and 15. *)
Fixpoint schedule (n : nat) (w : list Z) : list Z :=
  match n with
  | O => w
  | S n' =>
      let x := add32 (add32 (small_sigma1 (nth 1 w 0)) (nth 6 w 0))
                     (add32 (small_sigma0 (nth 14 w 0)) (nth 15 w 0)) in
      schedule n' (x :: w)
  end.

Record regs := Regs { ra : Z; rb : Z; rc : Z; rd : Z; re : Z; rf : Z; rg : Z; rh : Z }.

Definition round (s : regs) (kw : Z * Z) : regs :=
  let t1 := add32 (add32 (add32 (rh s) (big_sigma1 (re s)))
                         (add32 (ch (re s) (rf s) (rg s)) (fst kw))) (snd kw) in
  let t2 := add32 (big_sigma0 (ra s)) (maj (ra s) (rb s) (rc s)) in
  Regs (add32 t1 t2) (ra s) (rb s) (rc s) (add32 (rd s) t1) (re s) (rf s) (rg s).

Definition compress (h : regs) (block : list Z) : regs :=
  let w := rev (schedule 48 (rev block)) in
  let s := fold_left round (combine round_constants w) h in
  Regs (add32 (ra h) (ra s)) (add32 (rb h) (rb s)) (add32 (rc h) (rc s))
       (add32 (rd h) (rd s)) (add32 (re h) (re s)) (add32 (rf h) (rf s))
       (add32 (rg h) (rg s)) (add32 (rh h) (rh s)).

Definition start : regs :=
  let h i := nth i initial_hash 0 in
  Regs (h 0%nat) (h 1%nat) (h 2%nat) (h 3%nat) (h 4%nat) (h 5%nat) (h 6%nat) (h 7%nat).

Definition hex_digit (n : Z) : ascii :=
  match String.get (Z.to_nat n) "0123456789abcdef" with
  | Some c => c
  | None => "0"%char
  end.

Definition hex_byte (b : Z) : string :=
  String (hex_digit (Z.shiftr b 4)) (String (hex_digit (Z.land b 15)) EmptyString).

Definition hex_word (w : Z) : string :=
  String.concat "" (map hex_byte (be_bytes 4 w)).

Definition digest (msg : list Z) : regs :=
  let ws := be_words (length msg + 72) (pad msg) in
  fold_left compress (blocks (length ws) ws) start.

Definition bytes_of (s : string) : list Z :=
  map (fun c => Z.of_nat (nat_of_ascii c)) (list_ascii_of_string s).

(** [hashlib.sha256(s.encode("utf-8")).hexdigest()] *)
Definition hexdigest (s : string) : string :=
  let r := digest (bytes_of s) in
  String.concat ""
    (map hex_word [ra r; rb r; rc r; rd r; re r; rf r; rg r; rh r]).

End Sha256.

Example sha256_empty :
  Sha256.hexdigest "" = "e3b0c44298fc1c149afbf4c8996fb92427ae41e4649b934ca495991b7852b855".
Proof. vm_compute. reflexivity. Qed.

Example sha256_abc :
  Sha256.hexdigest "abc" = "ba7816bf8f01cfea414140de5dae2223b00361a396177a9cb410ff61f20015ad".
Proof. vm_compute. reflexivity. Qed.

Example sha256_two_blocks :
  Sha256.hexdigest "abcdbcdecdefdefgefghfghighijhijkijkljklmklmnlmnomnopnopq"
  = "248d6a61d20638b8e5c026930c3e6039a33ce45964ff2167f6ecedd419db06c1".
Proof. vm_compute. reflexivity. Qed.

(* ===================================================================== *)
(** ** Entry values *)
(* ===================================================================== *)

(** The values held by the entry fields the script reads: [None], booleans,
    integers, strings and tuples of integers. A [time.struct_time] (the
    [*_parsed] fields) is carried as the tuple of its fields: truth value,
    slicing, the [datetime] constructor and [json.dumps] treat it as that
    tuple. *)
Inductive pyval : Type :=
| VNone
| VBool (b : bool)
| VInt (z : Z)
| VStr (s : string)
| VTuple (t : list Z).

(** An entry, [Dict[str, Any]]. *)
Abbreviation entry := (gmap string pyval).

Module PyVal.
Import PyStr.

(** [str(v)] *)
Definition str (v : pyval) : string :=
  match v with
  | VNone => "None"
  | VBool true => "True"
  | VBool false => "False"
  | VInt z => of_Z z
  | VStr s => s
  | VTuple [z] => "(" ++ of_Z z ++ ",)"
  | VTuple t => "(" ++ join ", " (map of_Z t) ++ ")"
  end.

(** [bool(v)] *)
Definition truthy (v : pyval) : bool :=
  match v with
  | VNone => false
  | VBool b => b
  | VInt z => negb (z =? 0)%Z
  | VStr s => negb (is_empty s)
  | VTuple t => match t with [] => false | _ => true end
  end.

(** [v or ""] *)
Definition or_empty (v : pyval) : pyval := if truthy v then v else VStr "".

(** [d.get(k, dflt)] *)
Definition get (k : string) (dflt : pyval) (d : entry) : pyval :=
  default dflt (d !! k).

(** *** [json.dumps(d, sort_keys=True, ensure_ascii=False)] *)

Definition dquote : string := String (ascii_of_nat 34) EmptyString.
Definition backslash : string := String (ascii_of_nat 92) EmptyString.

Definition json_escape_char (c : ascii) : string :=
  let n := nat_of_ascii c in
  if (n =? 34)%nat then backslash ++ dquote
  else if (n =? 92)%nat then backslash ++ backslash
  else if (n =? 10)%nat then backslash ++ "n"
  else if (n =? 13)%nat then backslash ++ "r"
  else if (n =? 9)%nat then backslash ++ "t"
  else if (n =? 8)%nat then backslash ++ "b"
  else if (n =? 12)%nat then backslash ++ "f"
  else if (n <? 32)%nat then backslash ++ "u00" ++ Sha256.hex_byte (Z.of_nat n)
  else String c EmptyString.

Fixpoint json_escape (s : string) : string :=
  match s with
  | EmptyString => EmptyString
  | String c r => json_escape_char c ++ json_escape r
  end.

Definition json_string (s : string) : string := dquote ++ json_escape s ++ dquote.

Definition json_value (v : pyval) : string :=
  match v with
  | VNone => "null"
  | VBool true => "true"
  | VBool false => "false"
  | VInt z => of_Z z
  | VStr s => json_string s
  | VTuple t => "[" ++ join ", " (map of_Z t) ++ "]"
  end.

Definition key_le (p q : string * pyval) : Prop := String.leb (fst p) (fst q) = true.

#[local] Instance key_le_dec p q : Decision (key_le p q).
Proof. unfold key_le. apply _. Defined.

Definition json_dumps (d : entry) : string :=
  "{" ++ join ", " (map (fun kv => json_string (fst kv) ++ ": " ++ json_value (snd kv))
                        (merge_sort key_le (map_to_list d))) ++ "}".

End PyVal.

(* ===================================================================== *)
(** ** The pure functions of the script *)
(* ===================================================================== *)

Import PyStr PyVal.

(** [norm]: [re.sub(r"\s+", " ", (s or "")).strip().lower()] *)
Definition norm (s : string) : string := lower (strip (sub_ws s)).

(** The six fields an identity is built from, in the order of [parts]. *)
Definition identity_keys : list string :=
  ["id"; "guid"; "link"; "title"; "published"; "updated"].

(** [parts]: [str(entry.get(k, ""))] for each of the six keys. *)
Definition identity_parts (e : entry) : list string :=
  map (fun k => str (get k (VStr "") e)) identity_keys.

(** [raw] before the test [if not raw]. *)
Definition joined_parts (e : entry) : string := strip (join "||" (identity_parts e)).

(** [raw] as it is hashed. *)
Definition hash_input (e : entry) : string :=
  let raw := joined_parts e in
  if is_empty raw then prefix 500 (json_dumps e) else raw.

Definition make_entry_key (e : entry) : string := Sha256.hexdigest (hash_input e).

#[global] Arguments Sha256.hexdigest : simpl never.
#[global] Arguments make_entry_key : simpl never.

(** [for kw in exclude_any or []: ... return False] *)
Fixpoint exclude_hit (hay : string) (exclude_any : list string) : bool :=
  match exclude_any with
  | [] => false
  | kw :: rest =>
      let kw_n := norm kw in
      if negb (is_empty kw_n) && contains kw_n hay then true else exclude_hit hay rest
  end.

(** [any((kw_n := norm(kw)) and kw_n in hay for kw in include_any)] *)
Fixpoint include_hit (hay : string) (include_any : list string) : bool :=
  match include_any with
  | [] => false
  | kw :: rest =>
      let kw_n := norm kw in
      if negb (is_empty kw_n) && contains kw_n hay then true else include_hit hay rest
  end.

(** [hay = f"{norm(title)} {norm(summary)}"] *)
Definition haystack (title summary : string) : string :=
  norm title ++ " " ++ norm summary.

(** [passes_filters]. A keyword list may be [None] ([x or []]). *)
Definition passes_filters (title summary : string)
    (include_any exclude_any : option (list string)) : bool :=
  let hay := haystack title summary in
  if exclude_hit hay (default [] exclude_any) then false
  else
    match default [] include_any with
    | [] => true
    | inc => include_hit hay inc
    end.

Definition newline : string := String (ascii_of_nat 10) EmptyString.

(** The two markers of a message, U+1F4F0 and U+1F552, as their UTF-8 bytes. *)
Definition newspaper_mark : string :=
  string_of_list_ascii (map ascii_of_nat [240; 159; 147; 176]%nat).
Definition clock_mark : string :=
  string_of_list_ascii (map ascii_of_nat [240; 159; 149; 146]%nat).

Definition build_message (feed_name title link published : string) : string :=
  let head_line := newspaper_mark ++ " " ++ feed_name in
  let time_line := clock_mark ++ " " ++ published in
  let bits :=
    ([head_line; strip title]
     ++ (if is_empty published then [] else [time_line])
     ++ (if is_empty link then [] else [strip link]))%list in
  strip (join newline bits).

(** *** [datetime(...)] and [strftime] *)

Record datetime := Datetime {
  dt_year : Z; dt_month : Z; dt_day : Z; dt_hour : Z; dt_minute : Z; dt_second : Z }.

Definition is_leap (y : Z) : bool :=
  ((y mod 4 =? 0) && (negb (y mod 100 =? 0) || (y mod 400 =? 0)))%Z.

Definition days_in_month (y m : Z) : Z :=
  if (m =? 2)%Z then (if is_leap y then 29 else 28)
  else if ((m =? 4) || (m =? 6) || (m =? 9) || (m =? 11))%Z then 30 else 31.

Definition in_range (lo x hi : Z) : bool := ((lo <=? x) && (x <=? hi))%Z.

(** The [datetime] constructor on the unpacked arguments, at most six
    integers: year, month and day are
    required, the time fields default to 0, and every field is range
    checked. [None] stands for the [TypeError] or [ValueError] raised. *)
Definition make_datetime (args : list Z) : option datetime :=
  match args with
  | y :: m :: d :: rest =>
      let hh := nth 0 rest 0%Z in
      let mi := nth 1 rest 0%Z in
      let ss := nth 2 rest 0%Z in
      if in_range 1 y 9999 && in_range 1 m 12 && in_range 1 d (days_in_month y m)
         && in_range 0 hh 23 && in_range 0 mi 59 && in_range 0 ss 59
      then Some (Datetime y m d hh mi ss)
      else None
  | _ => None
  end.

(** [dt.strftime("%d.%m.%Y %H:%M")]. [%Y] is the year in decimal as the C
    library prints it: four digits from the year 1000 on, unpadded below. *)
Definition strftime_dmY_HM (dt : datetime) : string :=
  zero_pad 2 (dt_day dt) ++ "." ++ zero_pad 2 (dt_month dt) ++ "." ++ of_Z (dt_year dt)
  ++ " " ++ zero_pad 2 (dt_hour dt) ++ ":" ++ zero_pad 2 (dt_minute dt).

(** The body of the [try]: the [datetime] of the unpacked [t[:6]], then
    [strftime]. Slicing or
    unpacking anything but a tuple of integers raises, as does an invalid
    date; [None] is the [except Exception: pass]. *)
Definition render_parsed (t : pyval) : option string :=
  match t with
  | VTuple l => strftime_dmY_HM <$> make_datetime (take 6 l)
  | _ => None
  end.

(** The [for key in ("published_parsed", "updated_parsed")] loop: [Some] is
    its [return]. *)
Fixpoint first_rendered (keys : list string) (e : entry) : option string :=
  match keys with
  | [] => None
  | key :: rest =>
      let t := get key VNone e in
      if truthy t then
        match render_parsed t with
        | Some s => Some s
        | None => first_rendered rest e
        end
      else first_rendered rest e
  end.

Definition format_published (e : entry) : string :=
  match first_rendered ["published_parsed"; "updated_parsed"] e with
  | Some s => s
  | None => strip (str (or_empty (get "published" (get "updated" (VStr "") e) e)))
  end.

(** The three texts [main] reads from an entry. *)
Definition entry_title (e : entry) : string :=
  strip (str (or_empty (get "title" (VStr "") e))).
Definition entry_summary (e : entry) : string :=
  strip (str (or_empty (get "summary" (get "description" (VStr "") e) e))).
Definition entry_link (e : entry) : string :=
  strip (str (or_empty (get "link" (VStr "") e))).

(* ===================================================================== *)
(** ** The run: configuration, collaborators and effects *)
(* ===================================================================== *)

(** A feed of [config.json]; a key that is absent is read with its default. *)
Record feed := Feed {
  f_name : option string;
  f_url : option string;
  f_include_any : option (list string);
  f_exclude_any : option (list string);
  f_max_items : option Z }.

(** What [feedparser.parse] returns, as far as the script looks at it. *)
Record parsed := Parsed { bozo : bool; entries : list entry }.

(** The call [requests.post(url, data={chat_id, text, ...})]. *)
Record request := Request { req_url : string; req_chat_id : string; req_text : string }.

(** The two exceptions of [telegram_send]: the [RuntimeError] it raises when
    a credential is missing, and the failure of the call or of
    [raise_for_status]. *)
Inductive exn : Type := MissingCredentials | DeliveryFailed.

(** The content of [state.json] under its key ["seen"]: per feed URL the
    list of identities. A missing file or key is the empty mapping. *)
Abbreviation seen_store := (gmap string (list string)).

(** What a run does to the outside, in order. *)
Inductive event : Type :=
| Fetched (url : string)
| Posted (r : request) (ok : bool)
| Printed (line : string)
| Saved (seen : seen_store)
| ErrorPrinted (e : exn).

(** The collaborators of a run: the process environment, the feed
    transport, the answer of the delivery transport (which may depend on
    what happened before) and the order in which a [set] is iterated, which
    Python leaves open. *)
Record env := Env {
  environ : gmap string string;
  feedparser_parse : string -> parsed;
  post_ok : list event -> request -> bool;
  set_order : gset string -> list string }.

Record world := World { disk : seen_store; log : list event }.

Inductive outcome (A : Type) : Type :=
| Return (a : A)
| Raise (e : exn).
Arguments Return {A} a.
Arguments Raise {A} e.

(** Computations that read and change the world and may raise. *)
Definition M (A : Type) : Type := world -> outcome A * world.

#[global] Instance M_ret : MRet M := fun A a w => (Return a, w).
#[global] Instance M_bind : MBind M := fun A B k m w =>
  match m w with
  | (Return a, w') => k a w'
  | (Raise e, w') => (Raise e, w')
  end.

Definition raise {A : Type} (e : exn) : M A := fun w => (Raise e, w).

Definition emit (ev : event) : M unit :=
  fun w => (Return tt, World (disk w) (log w ++ [ev])%list).

(** [load_json(STATE_FILE, ...)] followed by [state.get("seen", {})] *)
Definition load_state : M seen_store := fun w => (Return (disk w), w).

(** [state["seen"] = seen_map; save_json(STATE_FILE, state)] *)
Definition save_state (m : seen_store) : M unit :=
  fun w => (Return tt, World m (log w ++ [Saved m])%list).

(** [feedparser.parse(url)] *)
Definition fetch (en : env) (url : string) : M parsed :=
  emit (Fetched url) ;; mret (feedparser_parse en url).

Definition getenv (en : env) (name : string) : string :=
  strip (default "" (environ en !! name)).

Definition telegram_send (en : env) (text : string) : M unit :=
  let token := getenv en "TELEGRAM_BOT_TOKEN" in
  let chat_id := getenv en "TELEGRAM_CHAT_ID" in
  if is_empty token || is_empty chat_id then raise MissingCredentials
  else
    let req := Request ("https://api.telegram.org/bot" ++ token ++ "/sendMessage")
                       chat_id text in
    fun w =>
      let ok := post_ok en (log w) req in
      (if ok then Return tt else Raise DeliveryFailed,
       World (disk w) (log w ++ [Posted req ok])%list).

(** [l[:n]], also for a negative [n]. *)
Definition slice_to {A : Type} (n : Z) (l : list A) : list A :=
  if (0 <=? n)%Z then take (Z.to_nat n) l
  else take (length l - Z.to_nat (- n)) l.

(** [l[-n:]] for a positive [n]. *)
Definition slice_last {A : Type} (n : nat) (l : list A) : list A :=
  drop (length l - n) l.

(** The variables of the loop over the entries of one feed. *)
Record feed_state := FeedState {
  seen_hashes : gset string;
  new_hashes : list string;
  sent : nat }.

(** One turn of [for e in entries]. *)
Definition process_entry (en : env) (name : string)
    (include_any exclude_any : option (list string))
    (e : entry) (st : feed_state) : M feed_state :=
  let key := make_entry_key e in
  if decide (key ∈ seen_hashes st) then mret st
  else
    let title := entry_title e in
    let summary := entry_summary e in
    let link := entry_link e in
    let published := format_published e in
    sent' ← (if passes_filters title summary include_any exclude_any
             then
               let msg := build_message name
                            (if is_empty title then "(ohne Titel)" else title)
                            link published in
               telegram_send en msg ;; mret (S (sent st))
             else mret (sent st));
    mret (FeedState ({[key]} ∪ seen_hashes st) (new_hashes st ++ [key])%list sent').

Fixpoint process_entries (en : env) (name : string)
    (include_any exclude_any : option (list string))
    (es : list entry) (st : feed_state) : M feed_state :=
  match es with
  | [] => mret st
  | e :: rest =>
      st' ← process_entry en name include_any exclude_any e st;
      process_entries en name include_any exclude_any rest st'
  end.

(** The variables of [main] across feeds. *)
Record run_state := RunState {
  seen_map : seen_store;
  changed : bool;
  total_sent : nat }.

Definition feed_url (f : feed) : string := strip (default "" (f_url f)).

(** The entries of a fetched feed that the loop looks at. *)
Definition considered (f : feed) (p : parsed) : list entry :=
  slice_to (default 30%Z (f_max_items f)) (entries p).

(** One turn of [for f in feeds]. *)
Definition process_feed (en : env) (f : feed) (st : run_state) : M run_state :=
  let name := default "Feed" (f_name f) in
  let url := feed_url f in
  if is_empty url then mret st
  else
    p ← fetch en url;
    if bozo p then
      emit (Printed ("Warnung: Feed-Parsing-Problem bei " ++ url)) ;; mret st
    else
      let start := FeedState (list_to_set (default [] (seen_map st !! url))) []
                             (total_sent st) in
      r ← process_entries en name (f_include_any f) (f_exclude_any f)
                          (considered f p) start;
      match new_hashes r with
      | [] => mret (RunState (seen_map st) (changed st) (sent r))
      | _ =>
          let trimmed := slice_last 400 (set_order en (seen_hashes r)) in
          mret (RunState (<[url := trimmed]> (seen_map st)) true (sent r))
      end.

Fixpoint process_feeds (en : env) (feeds : list feed) (st : run_state) : M run_state :=
  match feeds with
  | [] => mret st
  | f :: rest => st' ← process_feed en f st; process_feeds en rest st'
  end.

(** [main]: its value is the exit status. *)
Definition main (en : env) (feeds : list feed) : M Z :=
  stored ← load_state;
  match feeds with
  | [] => emit (Printed "Keine Feeds in config.json gefunden.") ;; mret 1%Z
  | _ =>
      st ← process_feeds en feeds (RunState stored false 0);
      (if changed st then save_state (seen_map st) else mret tt) ;;
      emit (Printed ("Done. Sent " ++ of_Z (Z.of_nat (total_sent st)) ++ " messages.")) ;;
      mret 0%Z
  end.

(** The [__main__] block: an exception of [main] is printed and raised again. *)
Definition script (en : env) (feeds : list feed) : M Z := fun w =>
  match main en feeds w with
  | (Raise e, w') => (Raise e, World (disk w') (log w' ++ [ErrorPrinted e])%list)
  | r => r
  end.

(** The messages a run handed to the delivery transport with success. *)
Definition delivered (l : list event) : list request :=
  omap (fun ev => match ev with Posted r true => Some r | _ => None end) l.

(** The writes of the state file in a log. *)
Definition saves (l : list event) : list seen_store :=
  omap (fun ev => match ev with Saved m => Some m | _ => None end) l.

(** The calls of the delivery transport in a log. *)
Definition posts (l : list event) : list request :=
  omap (fun ev => match ev with Posted r _ => Some r | _ => None end) l.

(* ===================================================================== *)
(** ** The model at work *)
(* ===================================================================== *)

Example norm_example : norm "  Breaking:   NEWS  today " = "breaking: news today".
Proof. reflexivity. Qed.

Example chars_examples :
  chars "aä€" = ["a"; "ä"; "€"] /\ code "€" = Some 0x20ac%N /\ utf8 0x20ac = "€"
  /\ prefix 2 "äöü" = "äö".
Proof. repeat split. Qed.

Example strip_examples :
  strip (utf8 0xa0 +:+ " x  y" +:+ utf8 0x2003 +:+ newline) = "x  y"
  /\ sub_ws ("a " +:+ utf8 0xa0 +:+ newline +:+ "b") = "a b".
Proof. split; vm_compute; reflexivity. Qed.

Example lower_examples :
  lower "ÄÖÜ ẞ Straße" = "äöü ß straße" /\ lower "ΟΔΟΣ ΣΟΦΟΣ Σ" = "οδος σοφος σ"
  /\ lower "İ" = "i" +:+ utf8 0x307.
Proof. repeat split; vm_compute; reflexivity. Qed.

Example norm_unicode_example :
  norm ("  ÄRGER" +:+ utf8 0x3000 +:+ " im" +:+ utf8 0xa0 +:+ "BÜRO ") = "ärger im büro".
Proof. vm_compute. reflexivity. Qed.

Example of_Z_examples :
  of_Z 0 = "0" /\ of_Z 2024 = "2024" /\ of_Z (-17) = "-17" /\ zero_pad 2 7 = "07".
Proof. repeat split. Qed.

Example str_examples :
  str VNone = "None" /\ str (VBool true) = "True" /\ str (VTuple [2024; 5]%Z) = "(2024, 5)"
  /\ str (VTuple [7]%Z) = "(7,)".
Proof. repeat split. Qed.

Example json_dumps_example :
  json_dumps (<[ "b" := VTuple [1; 2]%Z ]> (<[ "a" := VNone ]> {[ "c" := VStr "x" ]}))
  = "{" +:+ dquote +:+ "a" +:+ dquote +:+ ": null, "
        +:+ dquote +:+ "b" +:+ dquote +:+ ": [1, 2], "
        +:+ dquote +:+ "c" +:+ dquote +:+ ": " +:+ dquote +:+ "x" +:+ dquote +:+ "}".
Proof. vm_compute. reflexivity. Qed.

Example make_entry_key_of_empty_entry :
  make_entry_key ∅ = "756514a3231dbf6ab3d5dbc1c15ae68bb074afd83ec41118ca7adfa02a8c57c9".
Proof. vm_compute. reflexivity. Qed.

Example passes_filters_exclude_wins :
  passes_filters "Breaking: Outage" "" (Some []) (Some ["outage"]) = false.
Proof. vm_compute. reflexivity. Qed.

Example passes_filters_include_misses :
  passes_filters "Weekly Digest" "fun stuff" (Some ["outage"; "breaking"]) (Some []) = false.
Proof. vm_compute. reflexivity. Qed.

Example passes_filters_include_hits :
  passes_filters "Breaking News" "" (Some ["breaking"]) (Some ["fun"]) = true.
Proof. vm_compute. reflexivity. Qed.

Example format_published_examples :
  format_published {[ "published_parsed" := VTuple [2024; 2; 29; 7; 5; 9; 3; 60; 0]%Z ]}
    = "29.02.2024 07:05"
  /\ format_published (<[ "published_parsed" := VTuple [2023; 2; 29; 7; 5; 9; 2; 60; 0]%Z ]>
                         {[ "updated" := VStr " Wed, 01 Mar 2023 " ]})
    = "Wed, 01 Mar 2023"
  /\ format_published (<[ "published" := VStr "" ]> {[ "updated" := VStr "2023-03-01" ]}) = ""
  /\ format_published ∅ = "".
Proof. repeat split; vm_compute; reflexivity. Qed.

Example build_message_example :
  build_message "Weather" " Storm warning " "https://example.org/1 " "29.02.2024 07:05"
  = newspaper_mark +:+ " Weather" +:+ newline +:+ "Storm warning" +:+ newline
    +:+ clock_mark +:+ " 29.02.2024 07:05" +:+ newline +:+ "https://example.org/1".
Proof. vm_compute. reflexivity. Qed.

Example slice_examples :
  slice_to 2 [1; 2; 3]%list = [1; 2]%list /\ slice_to (-1) [1; 2; 3]%list = [1; 2]%list
  /\ slice_last 2 [1; 2; 3]%list = [2; 3]%list /\ slice_last 5 [1; 2; 3]%list = [1; 2; 3]%list.
Proof. repeat split. Qed.

(* ===================================================================== *)
(** ** Facts about the string operations *)
(* ===================================================================== *)

Section string_facts.

Lemma append_empty_r (s : string) : s ++ "" = s.
Proof. induction s as [|c s IH]; simpl; [reflexivity | now rewrite IH]. Qed.

Lemma append_assoc (a b c : string) : (a ++ b) ++ c = a ++ b ++ c.
Proof. induction a as [|x a IH]; simpl; [reflexivity | now rewrite IH]. Qed.

Lemma is_empty_true (s : string) : is_empty s = true <-> s = "".
Proof. destruct s; simpl; split; congruence. Qed.

Lemma is_empty_false (s : string) : is_empty s = false <-> s <> "".
Proof. destruct s; simpl; split; congruence. Qed.

(** [k] occurs in [h]: some text before it and some after it. *)
Definition occurs_in (k h : string) : Prop := exists a b, h = a ++ k ++ b.

Lemma starts_with_spec (k h : string) :
  starts_with k h = true <-> exists r, h = k ++ r.
Proof.
  revert h. induction k as [|a k IH]; intros h; simpl.
  - split; [intros _; now exists h | reflexivity].
  - destruct h as [|b h].
    + split; [discriminate | intros [r Hr]; discriminate].
    + destruct (ascii_dec a b) as [->|Hne].
      * rewrite IH. split; intros [r Hr]; exists r; congruence.
      * split; [discriminate | intros [r Hr]; congruence].
Qed.

Lemma contains_spec (k h : string) : contains k h = true <-> occurs_in k h.
Proof.
  unfold occurs_in. induction h as [|c h IH].
  - simpl. rewrite orb_false_r, starts_with_spec. split.
    + intros [r Hr]. now exists "", r.
    + intros [a [b Hab]]. destruct a; simpl in Hab; [now exists b | discriminate].
  - cbn [contains]. rewrite orb_true_iff, starts_with_spec, IH. split.
    + intros [[r Hr] | [a [b Hab]]].
      * now exists "", r.
      * exists (String c a), b. simpl. now rewrite Hab.
    + intros [a [b Hab]]. destruct a as [|x a]; simpl in Hab.
      * left. now exists b.
      * right. exists a, b. congruence.
Qed.

(** *** Texts and their characters *)

Lemma unchars_app (l1 l2 : list string) : unchars (l1 ++ l2) = unchars l1 ++ unchars l2.
Proof.
  induction l1 as [|ch l1 IH]; [reflexivity|].
  cbn [app unchars fold_right]. fold (unchars (l1 ++ l2)). fold (unchars l1).
  now rewrite IH, append_assoc.
Qed.

Lemma unchars_cons (ch : string) (l : list string) : unchars (ch :: l) = ch ++ unchars l.
Proof. reflexivity. Qed.

Lemma chars_cons (a : ascii) (r : string) :
  chars (String a r) =
    match chars r with
    | ch :: l => if starts_cont ch then String a ch :: l else String a "" :: ch :: l
    | [] => [String a ""]
    end.
Proof. reflexivity. Qed.

Lemma unchars_chars (s : string) : unchars (chars s) = s.
Proof.
  induction s as [|a r IH]; [reflexivity|]. rewrite chars_cons.
  destruct (chars r) as [|ch l]; [now rewrite <- IH|].
  rewrite unchars_cons in IH. destruct (starts_cont ch); rewrite !unchars_cons, <- IH; reflexivity.
Qed.

Lemma chars_nil (s : string) : chars s = [] -> s = "".
Proof. intros H. now rewrite <- (unchars_chars s), H. Qed.

Lemma chars_head (s : string) (ch : string) (l : list string) :
  chars s = ch :: l -> starts_cont ch = starts_cont s.
Proof.
  destruct s as [|a r]; [discriminate|]. rewrite chars_cons.
  destruct (chars r) as [|c l']; [now intros [= <- _]|].
  destruct (starts_cont c); now intros [= <- _].
Qed.

(** The bytes after the first byte of a character are continuation bytes;
    the first byte of a character is none, except for continuation bytes
    that start a text. *)
Fixpoint conts (s : string) : bool :=
  match s with
  | EmptyString => true
  | String b r => is_cont b && conts r
  end.

Definition chunk (ch : string) : bool :=
  match ch with String _ r => conts r | EmptyString => false end.

Definition clean (ch : string) : bool := chunk ch && negb (starts_cont ch).

Definition proper (l : list string) : bool :=
  match l with
  | [] => true
  | ch :: r => chunk ch && forallb clean r
  end.

Lemma clean_chunk (ch : string) : clean ch = true -> chunk ch = true.
Proof. unfold clean. now intros [H _]%andb_true_iff. Qed.

Lemma forallb_clean_proper (l : list string) : forallb clean l = true -> proper l = true.
Proof.
  destruct l as [|ch r]; [reflexivity|]. cbn [forallb proper].
  intros [H1 H2]%andb_true_iff. now rewrite (clean_chunk _ H1).
Qed.

Lemma proper_tail (ch : string) (l : list string) :
  proper (ch :: l) = true -> forallb clean l = true.
Proof. cbn [proper]. now intros [_ H]%andb_true_iff. Qed.

Lemma proper_app (l1 l2 : list string) :
  proper (l1 ++ l2) = true -> proper l1 = true /\ proper l2 = true.
Proof.
  destruct l1 as [|ch l1]; [split; [reflexivity | assumption]|].
  cbn [app proper]. rewrite forallb_app, !andb_true_iff. intros [Hc [H1 H2]].
  split; [now split | now apply forallb_clean_proper].
Qed.

Lemma chars_proper (s : string) : proper (chars s) = true.
Proof.
  induction s as [|a r IH]; [reflexivity|]. rewrite chars_cons.
  destruct (chars r) as [|ch l]; [reflexivity|].
  cbn [proper] in IH. apply andb_true_iff in IH as [Hc Hl].
  destruct (starts_cont ch) eqn:E; cbn [proper chunk forallb].
  - rewrite Hl, andb_true_r. destruct ch as [|b r']; [discriminate|].
    cbn [conts]. cbn in E, Hc. now rewrite E, Hc.
  - unfold clean at 1. now rewrite Hc, E, Hl.
Qed.

Lemma chars_chunk_app (ch t : string) :
  chunk ch = true -> starts_cont t = false -> chars (ch ++ t) = ch :: chars t.
Proof.
  destruct ch as [|a r]; [discriminate|]. cbn [chunk]. intros Hr Ht.
  revert a. induction r as [|b r IH]; intros a.
  - cbn [String.append]. rewrite chars_cons.
    destruct (chars t) as [|c l] eqn:E; [reflexivity|].
    now rewrite (chars_head _ _ _ E), Ht.
  - cbn [conts] in Hr. apply andb_true_iff in Hr as [Hb Hr].
    change (String a (String b r) ++ t) with (String a (String b r ++ t)).
    rewrite chars_cons, (IH Hr b). cbn [starts_cont]. now rewrite Hb.
Qed.

Lemma unchars_clean_start (l : list string) :
  forallb clean l = true -> starts_cont (unchars l) = false.
Proof.
  destruct l as [|ch r]; [reflexivity|]. cbn [forallb]. intros [H _]%andb_true_iff.
  unfold clean in H. apply andb_true_iff in H as [Hc Hs].
  destruct ch as [|a r']; [discriminate|]. rewrite unchars_cons.
  cbn in *. now apply negb_true_iff in Hs.
Qed.

Lemma chars_unchars (l : list string) : proper l = true -> chars (unchars l) = l.
Proof.
  induction l as [|ch r IH]; [reflexivity|]. intros H.
  pose proof (proper_tail _ _ H) as Hr. cbn [proper] in H. apply andb_true_iff in H as [Hc _].
  rewrite unchars_cons, chars_chunk_app; [|exact Hc | now apply unchars_clean_start].
  now rewrite IH by now apply forallb_clean_proper.
Qed.

Lemma chars_app (a b : string) :
  starts_cont b = false -> chars (a ++ b) = (chars a ++ chars b)%list.
Proof.
  intros Hb. induction a as [|x a IH]; [reflexivity|].
  change (String x a ++ b) with (String x (a ++ b)). rewrite !chars_cons, IH.
  destruct (chars a) as [|ch l] eqn:E.
  - cbn [app]. destruct (chars b) as [|c l'] eqn:Eb; [reflexivity|].
    now rewrite (chars_head _ _ _ Eb), Hb.
  - cbn [app]. now destruct (starts_cont ch).
Qed.

Lemma chunk_not_empty (ch : string) : chunk ch = true -> ch <> "".
Proof. now destruct ch. Qed.

Lemma unchars_nil (l : list string) : proper l = true -> unchars l = "" -> l = [].
Proof.
  destruct l as [|ch r]; [reflexivity|]. cbn [proper]. intros [Hc _]%andb_true_iff.
  rewrite unchars_cons. destruct ch; [discriminate | discriminate].
Qed.

Lemma unchars_elem_not_empty (ch : string) (l : list string) :
  ch ∈ l -> ch <> "" -> unchars l <> "".
Proof.
  induction 1 as [ch l | ch c l _ IH]; intros Hne; rewrite unchars_cons.
  - destruct ch; [congruence | discriminate].
  - intros H. destruct c; [now apply IH | discriminate].
Qed.

(** An ASCII character followed by continuation bytes is no character of
    Unicode, so no whitespace. *)
Lemma ascii_lead_not_space (a : ascii) (r : string) :
  (byte a <? 128)%N = true -> is_space (String a r) = whitespace (byte a) && is_empty r.
Proof.
  intros Ha. unfold is_space, code.
  assert (H2 : ((194 <=? byte a) && (byte a <? 224))%N = false).
  { apply andb_false_iff. left. apply N.leb_gt. apply N.ltb_lt in Ha. lia. }
  assert (H3 : ((224 <=? byte a) && (byte a <? 240))%N = false).
  { apply andb_false_iff. left. apply N.leb_gt. apply N.ltb_lt in Ha. lia. }
  assert (H4 : ((240 <=? byte a) && (byte a <? 245))%N = false).
  { apply andb_false_iff. left. apply N.leb_gt. apply N.ltb_lt in Ha. lia. }
  destruct r as [|b [|c [|d [|e r]]]]; rewrite ?Ha, ?H2, ?H3, ?H4; cbn [andb is_empty];
    now rewrite ?andb_true_r, ?andb_false_r.
Qed.

(** *** Stripping *)

Definition head_not_space (l : list string) : bool :=
  match l with [] => true | ch :: _ => negb (is_space ch) end.

Definition last_not_space (l : list string) : bool :=
  match last l with Some ch => negb (is_space ch) | None => true end.

(** A text that starts with no whitespace, one that ends with none, one that
    holds nothing else. *)
Definition no_space_first (s : string) : bool := head_not_space (chars s).
Definition no_space_last (s : string) : bool := last_not_space (chars s).
Definition all_space (s : string) : bool := forallb is_space (chars s).

Lemma last_not_space_cons (ch c : string) (l : list string) :
  last_not_space (ch :: c :: l) = last_not_space (c :: l).
Proof. reflexivity. Qed.

Lemma last_not_space_app (l1 l2 : list string) :
  l2 <> [] -> last_not_space (l1 ++ l2) = last_not_space l2.
Proof.
  intros H. unfold last_not_space. destruct l2 as [|c l2]; [congruence|].
  now rewrite last_app_cons.
Qed.

Lemma lstrip_chars_fixed (l : list string) : head_not_space l = true -> lstrip_chars l = l.
Proof. destruct l as [|ch r]; [reflexivity|]. cbn. now intros ->%negb_true_iff. Qed.

Lemma rstrip_chars_fixed (l : list string) : last_not_space l = true -> rstrip_chars l = l.
Proof.
  induction l as [|ch r IH]; [reflexivity|]. intros H. cbn [rstrip_chars].
  destruct r as [|c r].
  - cbn in *. apply negb_true_iff in H. now rewrite H.
  - rewrite last_not_space_cons in H. rewrite (IH H). now rewrite andb_false_r.
Qed.

Lemma lstrip_chars_head (l : list string) : head_not_space (lstrip_chars l) = true.
Proof.
  induction l as [|ch r IH]; [reflexivity|]. cbn [lstrip_chars].
  destruct (is_space ch) eqn:E; [exact IH|]. cbn. now rewrite E.
Qed.

Lemma rstrip_chars_head (l : list string) :
  head_not_space l = true -> head_not_space (rstrip_chars l) = true.
Proof.
  destruct l as [|ch r]; [reflexivity|]. cbn [head_not_space rstrip_chars].
  intros H. pose proof H as ->%negb_true_iff. exact H.
Qed.

Lemma rstrip_chars_last (l : list string) : last_not_space (rstrip_chars l) = true.
Proof.
  induction l as [|ch r IH]; [reflexivity|]. cbn [rstrip_chars].
  destruct (rstrip_chars r) as [|c r'] eqn:E.
  - rewrite andb_true_r. destruct (is_space ch) eqn:Es; [reflexivity|].
    unfold last_not_space. cbn. now rewrite Es.
  - rewrite andb_false_r. now rewrite last_not_space_cons.
Qed.

Lemma lstrip_chars_split (l : list string) :
  exists la, l = (la ++ lstrip_chars l)%list /\ forallb is_space la = true.
Proof.
  induction l as [|ch r (la & IH & Hla)]; [now exists []|]. cbn [lstrip_chars].
  destruct (is_space ch) eqn:E; [|now exists []].
  exists (ch :: la). cbn [app forallb]. rewrite E, Hla. split; [now rewrite <- IH | reflexivity].
Qed.

Lemma rstrip_chars_split (l : list string) :
  exists lb, l = (rstrip_chars l ++ lb)%list /\ forallb is_space lb = true.
Proof.
  induction l as [|ch r (lb & IH & Hlb)]; [now exists []|]. cbn [rstrip_chars].
  destruct (rstrip_chars r) as [|c r'] eqn:E.
  - rewrite andb_true_r. cbn [app] in IH. destruct (is_space ch) eqn:Es.
    + exists (ch :: lb). cbn [app forallb]. rewrite Es, Hlb. split; [congruence | reflexivity].
    + exists lb. cbn [app]. split; [congruence | exact Hlb].
  - rewrite andb_false_r. exists lb. cbn [app] in *. split; [congruence | exact Hlb].
Qed.

Lemma proper_lstrip (l : list string) : proper l = true -> proper (lstrip_chars l) = true.
Proof.
  intros H. destruct (lstrip_chars_split l) as (la & E & _). rewrite E in H.
  now apply proper_app in H.
Qed.

Lemma proper_rstrip (l : list string) : proper l = true -> proper (rstrip_chars l) = true.
Proof.
  intros H. destruct (rstrip_chars_split l) as (lb & E & _). rewrite E in H.
  now apply proper_app in H.
Qed.

Lemma chars_strip (s : string) : chars (strip s) = rstrip_chars (lstrip_chars (chars s)).
Proof. unfold strip. apply chars_unchars, proper_rstrip, proper_lstrip, chars_proper. Qed.

(** A text that neither starts nor ends with whitespace is not changed. *)
Lemma strip_fixed (s : string) :
  no_space_first s = true -> no_space_last s = true -> strip s = s.
Proof.
  unfold no_space_first, no_space_last, strip. intros H1 H2.
  rewrite lstrip_chars_fixed by exact H1. rewrite rstrip_chars_fixed by exact H2.
  apply unchars_chars.
Qed.

Lemma strip_trimmed (s : string) :
  no_space_first (strip s) = true /\ no_space_last (strip s) = true.
Proof.
  unfold no_space_first, no_space_last. rewrite chars_strip. split.
  - apply rstrip_chars_head, lstrip_chars_head.
  - apply rstrip_chars_last.
Qed.

Lemma strip_idempotent (s : string) : strip (strip s) = strip s.
Proof. apply strip_fixed; apply strip_trimmed. Qed.

(** What [strip] takes away is whitespace at the two ends. *)
Lemma strip_split (s : string) :
  exists a b, s = a ++ strip s ++ b /\ all_space a = true /\ all_space b = true.
Proof.
  destruct (lstrip_chars_split (chars s)) as (la & E1 & Ha).
  destruct (rstrip_chars_split (lstrip_chars (chars s))) as (lb & E2 & Hb).
  pose proof (chars_proper s) as Hp. rewrite E1 in Hp. apply proper_app in Hp as [Hpa Hp].
  rewrite E2 in Hp. apply proper_app in Hp as [_ Hpb].
  exists (unchars la), (unchars lb). split; [|split].
  - rewrite <- (unchars_chars s) at 1. rewrite E1 at 1. rewrite E2 at 1.
    unfold strip. now rewrite !unchars_app.
  - unfold all_space. now rewrite chars_unchars.
  - unfold all_space. now rewrite chars_unchars.
Qed.

Lemma rstrip_chars_nil (l : list string) :
  head_not_space l = true -> rstrip_chars l = [] -> l = [].
Proof.
  destruct l as [|ch r]; [reflexivity|]. cbn [head_not_space rstrip_chars].
  intros ->%negb_true_iff. discriminate.
Qed.

Lemma lstrip_chars_nil (l : list string) : lstrip_chars l = [] -> forallb is_space l = true.
Proof.
  induction l as [|ch r IH]; [reflexivity|]. cbn [lstrip_chars forallb].
  destruct (is_space ch); [exact IH | discriminate].
Qed.

Lemma lstrip_chars_all_space (l : list string) : forallb is_space l = true -> lstrip_chars l = [].
Proof.
  induction l as [|ch r IH]; [reflexivity|]. cbn [lstrip_chars forallb].
  intros [-> H]%andb_true_iff. now apply IH.
Qed.

(** [strip] leaves nothing exactly of the texts that hold only whitespace. *)
Lemma strip_empty (s : string) : is_empty (strip s) = all_space s.
Proof.
  unfold all_space. destruct (forallb is_space (chars s)) eqn:E.
  - unfold strip. now rewrite lstrip_chars_all_space.
  - apply is_empty_false. intros H. apply (f_equal chars) in H. rewrite chars_strip in H.
    cbn [chars] in H. apply rstrip_chars_nil in H; [|apply lstrip_chars_head].
    apply lstrip_chars_nil in H. congruence.
Qed.

(** A character that is no whitespace stays. *)
Lemma strip_chars_keeps (ch : string) (l : list string) :
  ch ∈ l -> is_space ch = false -> ch ∈ rstrip_chars (lstrip_chars l).
Proof.
  intros Hin Hs.
  assert (Hl : ch ∈ lstrip_chars l).
  { induction l as [|c l IH]; [exact Hin|]. cbn [lstrip_chars].
    destruct (is_space c) eqn:Ec; [|exact Hin].
    apply elem_of_cons in Hin as [->|Hin]; [congruence | now apply IH]. }
  clear Hin. induction (lstrip_chars l) as [|c r IH]; [exact Hl|]. cbn [rstrip_chars].
  apply elem_of_cons in Hl as [<-|Hl].
  - rewrite Hs. apply elem_of_cons. now left.
  - specialize (IH Hl). destruct (rstrip_chars r) as [|d r'] eqn:E.
    + now apply elem_of_nil in IH.
    + rewrite andb_false_r. apply elem_of_cons. now right.
Qed.

Lemma strip_keeps_mark (a b : string) (c : ascii) :
  (byte c <? 128)%N = true -> whitespace (byte c) = false -> starts_cont b = false ->
  is_empty (strip (a ++ String c b)) = false.
Proof.
  intros Hc Hw Hb. apply is_empty_false. unfold strip.
  apply (unchars_elem_not_empty (String c "")); [|discriminate].
  apply strip_chars_keeps.
  - rewrite chars_app.
    + apply elem_of_app. right.
      change (String c b) with (String c "" ++ b). rewrite chars_chunk_app by easy.
      apply elem_of_cons. now left.
    + cbn. unfold is_cont. apply N.ltb_lt in Hc. apply andb_false_iff. left.
      apply N.leb_gt. exact Hc.
  - rewrite ascii_lead_not_space by exact Hc. now rewrite Hw.
Qed.

End string_facts.

(* ===================================================================== *)
(** ** Entry identities *)
(* ===================================================================== *)

Section identity.

Definition bar : ascii := "|"%char.

Fixpoint ends_with_bar (s : string) : bool :=
  match s with
  | EmptyString => false
  | String c EmptyString => if ascii_dec c bar then true else false
  | String _ r => ends_with_bar r
  end.

(** A field after which the separator is found again without doubt: it holds
    no two bars in a row and does not end with a bar. *)
Definition sep_safe (s : string) : bool :=
  negb (contains "||" s) && negb (ends_with_bar s).

(** The condition on the six parts under which the hashed text determines
    them: the first five are [sep_safe], the first does not start and the
    last does not end with whitespace (which [strip] would take away). *)
Definition well_separated (parts : list string) : bool :=
  match parts with
  | [a; b; c; d; e; f] =>
      no_space_first a && sep_safe a && sep_safe b && sep_safe c && sep_safe d
      && sep_safe e && no_space_last f
  | _ => false
  end.

Lemma identity_parts_unfold (e : entry) :
  identity_parts e =
    [str (get "id" (VStr "") e); str (get "guid" (VStr "") e);
     str (get "link" (VStr "") e); str (get "title" (VStr "") e);
     str (get "published" (VStr "") e); str (get "updated" (VStr "") e)].
Proof. reflexivity. Qed.

Lemma join_six (a b c d e f : string) :
  join "||" [a; b; c; d; e; f]
  = a ++ "||" ++ b ++ "||" ++ c ++ "||" ++ d ++ "||" ++ e ++ "||" ++ f.
Proof. reflexivity. Qed.

(** The joined text always holds the separators, so it is never empty: the
    branch [if not raw] of [make_entry_key] is never taken. *)
Lemma joined_parts_not_empty (e : entry) : is_empty (joined_parts e) = false.
Proof.
  unfold joined_parts. rewrite identity_parts_unfold, join_six.
  set (a := str (get "id" (VStr "") e)).
  match goal with |- context [a ++ "||" ++ ?r] => set (rest := r) end.
  now apply (strip_keeps_mark a (String bar rest) bar).
Qed.

Lemma hash_input_joined (e : entry) : hash_input e = joined_parts e.
Proof. unfold hash_input. now rewrite joined_parts_not_empty. Qed.

Lemma make_entry_key_joined (e : entry) :
  make_entry_key e = Sha256.hexdigest (strip (join "||" (identity_parts e))).
Proof. unfold make_entry_key. now rewrite hash_input_joined. Qed.

(** Finding the first separator. *)
Lemma sep_safe_tail (c : ascii) (s : string) : sep_safe (String c s) = true -> sep_safe s = true.
Proof.
  unfold sep_safe. rewrite !andb_true_iff, !negb_true_iff. intros [Hc He]. split.
  - cbn [contains] in Hc. now apply orb_false_iff in Hc.
  - destruct s; [reflexivity | exact He].
Qed.

Lemma sep_safe_bar_head (s t u : string) :
  sep_safe (String bar s) = true -> s ++ "||" ++ t = String bar u -> False.
Proof.
  unfold sep_safe. rewrite andb_true_iff, !negb_true_iff. intros [Hc He] Heq.
  destruct s as [|d s]; [discriminate He|].
  simpl in Heq. injection Heq as -> _.
  cbn in Hc. destruct (ascii_dec bar bar) as [_|n]; [|now apply n].
  cbn in Hc. destruct (ascii_dec bar bar) as [_|n]; [discriminate|now apply n].
Qed.

Lemma split_at_separator (a1 a2 r1 r2 : string) :
  sep_safe a1 = true -> sep_safe a2 = true ->
  a1 ++ "||" ++ r1 = a2 ++ "||" ++ r2 -> a1 = a2 /\ r1 = r2.
Proof.
  revert a2. induction a1 as [|c a1 IH]; intros [|d a2] H1 H2 Heq.
  - simpl in Heq. split; [reflexivity | congruence].
  - exfalso. simpl in Heq. injection Heq as <- Heq.
    eapply (sep_safe_bar_head a2 r2 r1); [exact H2 | now symmetry].
  - exfalso. simpl in Heq. injection Heq as -> Heq.
    eapply (sep_safe_bar_head a1 r1 r2); [exact H1 | exact Heq].
  - simpl in Heq. injection Heq as -> Heq.
    destruct (IH a2 (sep_safe_tail _ _ H1) (sep_safe_tail _ _ H2) Heq) as [-> ->].
    now split.
Qed.

Lemma no_space_last_append (x y : string) :
  starts_cont y = false -> y <> "" -> no_space_last (x ++ y) = no_space_last y.
Proof.
  intros Hs Hy. unfold no_space_last. rewrite chars_app by exact Hs.
  apply last_not_space_app. intros H. now apply chars_nil in H.
Qed.

Lemma no_space_last_sep (x r : string) :
  no_space_last (x ++ "||" ++ r) = no_space_last (String bar r).
Proof.
  replace (x ++ "||" ++ r) with ((x ++ "|") ++ String bar r) by now rewrite append_assoc.
  now apply no_space_last_append.
Qed.

Lemma no_space_last_sep_bar (x r : string) :
  no_space_last (String bar (x ++ "||" ++ r)) = no_space_last (String bar r).
Proof. apply (no_space_last_sep (String bar x) r). Qed.

(** A bar before a text does not make it end with whitespace. *)
Lemma bar_last (f : string) : no_space_last f = true -> no_space_last (String bar f) = true.
Proof.
  unfold no_space_last. rewrite chars_cons. destruct (chars f) as [|ch l] eqn:E; [reflexivity|].
  intros H. destruct (starts_cont ch) eqn:Es; [|now rewrite last_not_space_cons].
  destruct l as [|c l]; [|now rewrite last_not_space_cons in *].
  unfold last_not_space. cbn [last]. rewrite ascii_lead_not_space by reflexivity.
  destruct ch; [discriminate Es|]. cbn [is_empty]. now rewrite andb_false_r.
Qed.

Lemma no_space_first_sep (a r : string) :
  no_space_first a = true -> no_space_first (a ++ "||" ++ r) = true.
Proof.
  unfold no_space_first. intros Ha. rewrite chars_app by reflexivity.
  destruct (chars a) as [|ch l]; [|exact Ha]. cbn [app].
  change ("||" ++ r) with (String bar "" ++ String bar r).
  now rewrite chars_chunk_app.
Qed.

Lemma join_six_fixed_by_strip (a b c d e f : string) :
  no_space_first a = true -> no_space_last f = true ->
  strip (join "||" [a; b; c; d; e; f]) = join "||" [a; b; c; d; e; f].
Proof.
  intros Ha Hf. rewrite join_six. apply strip_fixed.
  - now apply no_space_first_sep.
  - rewrite no_space_last_sep. rewrite !no_space_last_sep_bar. now apply bar_last.
Qed.

Lemma well_separated_injective (p q : list string) :
  well_separated p = true -> well_separated q = true ->
  strip (join "||" p) = strip (join "||" q) -> p = q.
Proof.
  destruct p as [|a1 [|b1 [|c1 [|d1 [|e1 [|f1 [|? ?]]]]]]]; try discriminate.
  destruct q as [|a2 [|b2 [|c2 [|d2 [|e2 [|f2 [|? ?]]]]]]]; try discriminate.
  unfold well_separated. rewrite !andb_true_iff.
  intros [[[[[[Hn1 Ha1] Hb1] Hc1] Hd1] He1] Hf1] [[[[[[Hn2 Ha2] Hb2] Hc2] Hd2] He2] Hf2].
  rewrite (join_six_fixed_by_strip a1) by assumption.
  rewrite (join_six_fixed_by_strip a2) by assumption.
  rewrite !join_six. intros H.
  apply split_at_separator in H as [-> H]; [|assumption..].
  apply split_at_separator in H as [-> H]; [|assumption..].
  apply split_at_separator in H as [-> H]; [|assumption..].
  apply split_at_separator in H as [-> H]; [|assumption..].
  apply split_at_separator in H as [-> H]; [|assumption..].
  now subst.
Qed.

End identity.

Section identity_frame.

Lemma get_insert_ne (k k' : string) (v dflt : pyval) (e : entry) :
  k' <> k -> get k dflt (<[k' := v]> e) = get k dflt e.
Proof. intros H. unfold get. now rewrite lookup_insert_ne. Qed.

Lemma get_delete_ne (k k' : string) (dflt : pyval) (e : entry) :
  k' <> k -> get k dflt (delete k' e) = get k dflt e.
Proof. intros H. unfold get. now rewrite lookup_delete_ne. Qed.

(** The identity looks at its six fields only. *)
Lemma identity_parts_agree (e1 e2 : entry) :
  (forall k, k ∈ identity_keys -> e1 !! k = e2 !! k) ->
  identity_parts e1 = identity_parts e2.
Proof.
  intros H. unfold identity_parts. apply map_ext_in. intros k Hk.
  unfold get. rewrite H; [reflexivity | now apply list_elem_of_In].
Qed.

Lemma make_entry_key_agree (e1 e2 : entry) :
  identity_parts e1 = identity_parts e2 -> make_entry_key e1 = make_entry_key e2.
Proof. intros H. now rewrite !make_entry_key_joined, H. Qed.

Lemma not_identity_key (k : string) :
  k = "summary" \/ k = "description" -> forall k', k' ∈ identity_keys -> k <> k'.
Proof.
  intros Hk k' Hk' ->. unfold identity_keys in Hk'.
  repeat (apply elem_of_cons in Hk' as [-> | Hk']; [destruct Hk; discriminate|]).
  now apply elem_of_nil in Hk'.
Qed.

Lemma first_rendered_agree (keys : list string) (e1 e2 : entry) :
  (forall k, k ∈ keys -> e1 !! k = e2 !! k) ->
  first_rendered keys e1 = first_rendered keys e2.
Proof.
  induction keys as [|k keys IH]; intros H; [reflexivity|].
  cbn [first_rendered]. unfold get. rewrite (H k) by (apply elem_of_cons; now left).
  rewrite IH; [reflexivity|]. intros k' Hk'. apply H. apply elem_of_cons. now right.
Qed.

End identity_frame.

(* ===================================================================== *)
(** ** Keyword filters *)
(* ===================================================================== *)

Section filters.

(** A keyword of a filter list matches a haystack when its normal form is
    not empty and occurs in the haystack. *)
Definition keyword_matches (hay kw : string) : Prop :=
  norm kw <> "" /\ occurs_in (norm kw) hay.

Lemma keyword_test (hay kw : string) :
  negb (is_empty (norm kw)) && contains (norm kw) hay = true <-> keyword_matches hay kw.
Proof.
  unfold keyword_matches.
  rewrite andb_true_iff, negb_true_iff, is_empty_false, contains_spec. reflexivity.
Qed.

(** Both keyword loops stop at the first keyword that matches. *)
Ltac first_match_loop l :=
  let kw := fresh "kw" in
  let IH := fresh "IH" in
  let E := fresh "E" in
  induction l as [|kw l IH]; cbn [exclude_hit include_hit];
  [ split; [discriminate | intros [? [H _]]; now apply elem_of_nil in H]
  | match goal with
    | |- context [negb (is_empty (norm kw)) && contains (norm kw) ?hay] =>
        destruct (negb (is_empty (norm kw)) && contains (norm kw) hay) eqn:E
    end;
    [ split; [intros _ | reflexivity];
      exists kw; split; [apply elem_of_cons; now left | now apply keyword_test]
    | rewrite IH; split;
      [ intros [k [Hk Hm]]; exists k; split; [apply elem_of_cons; now right | exact Hm]
      | intros [k [Hk Hm]]; apply elem_of_cons in Hk as [-> | Hk];
        [ apply keyword_test in Hm; congruence | now exists k ] ] ] ].

Lemma exclude_hit_spec (hay : string) (l : list string) :
  exclude_hit hay l = true <-> exists kw, kw ∈ l /\ keyword_matches hay kw.
Proof. first_match_loop l. Qed.

Lemma include_hit_spec (hay : string) (l : list string) :
  include_hit hay l = true <-> exists kw, kw ∈ l /\ keyword_matches hay kw.
Proof. first_match_loop l. Qed.

End filters.

(* ===================================================================== *)
(** ** Normal forms *)
(* ===================================================================== *)

Section normal_forms.

(** The code points that [lower] changes. *)
Definition upper_code (n : N) : bool :=
  (n =? 0x3a3)%N || (n =? 0x130)%N
  || match lower_code n lower_rows with Some _ => true | None => false end.

(** A character that [lower] changes. *)
Definition is_upper (ch : string) : bool :=
  match code ch with Some n => upper_code n | None => false end.

(** No character of the text is changed by [lower]. *)
Definition no_upper (s : string) : bool := forallb (fun ch => negb (is_upper ch)) (chars s).

(** Every whitespace character is a blank and follows a character that is
    no whitespace ([after_space] says what the previous character was). *)
Fixpoint single_blanks_chars (after_space : bool) (l : list string) : bool :=
  match l with
  | [] => true
  | ch :: r =>
      if is_space ch
      then String.eqb ch " " && negb after_space && single_blanks_chars true r
      else single_blanks_chars false r
  end.

Definition single_blanks (after_space : bool) (s : string) : bool :=
  single_blanks_chars after_space (chars s).

(** *** The table of lowercase mappings *)

(** The lowercase characters a row gives. *)
Definition expand (row : N * N * N * N) : list N :=
  let '(lo, hi, step, t) := row in
  map (fun i => (t + N.of_nat i * step)%N) (seq 0 (S (N.to_nat ((hi - lo) / step)))).

(** Every character [lower] can put into a text. *)
Definition lowered : list string :=
  map utf8 ([0x3c2; 0x3c3; 0x69; 0x307]%N ++ flat_map expand lower_rows).

(** A character that is one character, that [lower] leaves alone and that is
    no whitespace. *)
Definition settled (o : string) : bool := clean o && negb (is_upper o) && negb (is_space o).

Lemma lowered_settled : forallb settled lowered = true.
Proof. vm_compute. reflexivity. Qed.

Lemma whitespace_not_upper : forallb (fun n => negb (upper_code n)) whitespaces = true.
Proof. vm_compute. reflexivity. Qed.

Lemma lower_code_expand (n t : N) (rows : list (N * N * N * N)) :
  lower_code n rows = Some t -> In t (flat_map expand rows).
Proof.
  induction rows as [|[[[lo hi] step] t0] rows IH]; [discriminate|].
  cbn [lower_code flat_map]. destruct (n <? lo)%N eqn:Elo; [discriminate|].
  apply N.ltb_ge in Elo.
  destruct ((n <=? hi) && ((n - lo) mod step =? 0))%N eqn:E.
  - intros [= <-]. apply in_or_app. left.
    apply andb_true_iff in E as [Ehi Em]. apply N.leb_le in Ehi. apply N.eqb_eq in Em.
    unfold expand. apply in_map_iff. exists (N.to_nat ((n - lo) / step)). split.
    + rewrite N2Nat.id. f_equal. destruct (N.eq_dec step 0%N) as [->|Hs].
      * rewrite N.mod_0_r in Em. now rewrite N.mul_0_r, Em.
      * rewrite (N.div_mod (n - lo) step Hs) at 2. rewrite Em, N.add_0_r. apply N.mul_comm.
    + assert (Hk : ((n - lo) / step <= (hi - lo) / step)%N).
      { apply N.Div0.div_le_mono. lia. }
      revert Hk. generalize ((n - lo) / step)%N, ((hi - lo) / step)%N. intros k k' Hk.
      apply in_seq. lia.
  - intros H. apply in_or_app. right. now apply IH.
Qed.

Lemma settled_lowered (n : N) : In n ([0x3c2; 0x3c3; 0x69; 0x307]%N ++ flat_map expand lower_rows) ->
  settled (utf8 n) = true.
Proof.
  intros H. apply (proj1 (forallb_forall settled lowered) lowered_settled).
  unfold lowered. now apply in_map.
Qed.

(** [lower] leaves a character as it is or puts settled characters for it. *)
Lemma lower_char_cases (before after : list string) (ch : string) :
  (is_upper ch = false /\ lower_char before after ch = [ch]) \/
  (is_upper ch = true /\ lower_char before after ch <> [] /\
   forallb settled (lower_char before after ch) = true).
Proof.
  unfold lower_char, is_upper, upper_code. destruct (code ch) as [n|]; [|now left].
  destruct (n =? 0x3a3)%N.
  { right. split; [reflexivity|]. split; [discriminate|]. cbn [forallb]. rewrite andb_true_r.
    apply settled_lowered. destruct (final_sigma before after); cbn; tauto. }
  destruct (n =? 0x130)%N.
  { right. split; [reflexivity|]. split; [discriminate|]. cbn [forallb].
    rewrite !settled_lowered by (cbn; tauto). reflexivity. }
  destruct (lower_code n lower_rows) as [t|] eqn:E; [|now left].
  right. split; [reflexivity|]. split; [discriminate|]. cbn [forallb]. rewrite andb_true_r.
  apply settled_lowered. apply in_or_app. right. now apply (lower_code_expand n).
Qed.

Lemma space_not_upper (ch : string) : is_space ch = true -> is_upper ch = false.
Proof.
  unfold is_space, is_upper. destruct (code ch) as [n|]; [|reflexivity].
  unfold whitespace. intros (m & Hm & ->%N.eqb_eq)%existsb_exists.
  apply negb_true_iff.
  now apply (proj1 (forallb_forall _ whitespaces) whitespace_not_upper).
Qed.

Lemma settled_facts (o : string) :
  settled o = true -> clean o = true /\ is_upper o = false /\ is_space o = false.
Proof.
  unfold settled. rewrite !andb_true_iff, !negb_true_iff. tauto.
Qed.

(** *** [lower] *)

Lemma lower_chars_no_upper (before l : list string) :
  forallb (fun ch => negb (is_upper ch)) (lower_chars before l) = true.
Proof.
  revert before. induction l as [|ch r IH]; intros before; [reflexivity|].
  cbn [lower_chars]. rewrite forallb_app, IH, andb_true_r.
  destruct (lower_char_cases before r ch) as [[Hu ->] | (_ & _ & Hs)].
  - cbn. now rewrite Hu.
  - apply forallb_forall. intros o Ho.
    apply (proj1 (forallb_forall _ _) Hs), settled_facts in Ho as (_ & -> & _). reflexivity.
Qed.

Lemma lower_chars_fixed (before l : list string) :
  forallb (fun ch => negb (is_upper ch)) l = true -> lower_chars before l = l.
Proof.
  revert before. induction l as [|ch r IH]; intros before; [reflexivity|].
  cbn [forallb lower_chars]. intros [Hu Hr]%andb_true_iff. apply negb_true_iff in Hu.
  destruct (lower_char_cases before r ch) as [[_ ->] | (Hu' & _)]; [|congruence].
  cbn [app]. now rewrite IH.
Qed.

Lemma lower_chars_clean (before l : list string) :
  forallb clean l = true -> forallb clean (lower_chars before l) = true.
Proof.
  revert before. induction l as [|ch r IH]; intros before; [reflexivity|].
  cbn [forallb lower_chars]. intros [Hc Hr]%andb_true_iff. rewrite forallb_app, IH, andb_true_r by exact Hr.
  destruct (lower_char_cases before r ch) as [[_ ->] | (_ & _ & Hs)].
  - cbn. now rewrite Hc.
  - apply forallb_forall. intros o Ho.
    now apply (proj1 (forallb_forall _ _) Hs), settled_facts in Ho as (-> & _).
Qed.

Lemma lower_chars_proper (before l : list string) :
  proper l = true -> proper (lower_chars before l) = true.
Proof.
  destruct l as [|ch r]; [reflexivity|]. intros H.
  pose proof (proper_tail _ _ H) as Hr. cbn [proper] in H. apply andb_true_iff in H as [Hc _].
  cbn [lower_chars].
  destruct (lower_char_cases before r ch) as [[_ ->] | (_ & _ & Hs)].
  - cbn [app proper]. now rewrite Hc, lower_chars_clean.
  - apply forallb_clean_proper. rewrite forallb_app, lower_chars_clean, andb_true_r by exact Hr.
    apply forallb_forall. intros o Ho.
    now apply (proj1 (forallb_forall _ _) Hs), settled_facts in Ho as (-> & _).
Qed.

Lemma chars_lower (s : string) : chars (lower s) = lower_chars [] (chars s).
Proof. unfold lower. apply chars_unchars, lower_chars_proper, chars_proper. Qed.

Lemma lower_no_upper (s : string) : no_upper (lower s) = true.
Proof. unfold no_upper. rewrite chars_lower. apply lower_chars_no_upper. Qed.

Lemma lower_fixed (s : string) : no_upper s = true -> lower s = s.
Proof.
  unfold no_upper, lower. intros H. rewrite lower_chars_fixed by exact H. apply unchars_chars.
Qed.

Lemma lower_idempotent (s : string) : lower (lower s) = lower s.
Proof. apply lower_fixed, lower_no_upper. Qed.

Lemma single_blanks_chars_skip (b : bool) (outs rest : list string) :
  outs <> [] -> forallb settled outs = true ->
  single_blanks_chars b (outs ++ rest) = single_blanks_chars false rest.
Proof.
  revert b. induction outs as [|o outs IH]; intros b Hne Hs; [congruence|].
  cbn [forallb] in Hs. apply andb_true_iff in Hs as [Ho Hs].
  apply settled_facts in Ho as (_ & _ & Ho).
  cbn [app single_blanks_chars]. rewrite Ho.
  destruct outs as [|o' outs]; [reflexivity|]. now apply IH.
Qed.

Lemma lower_chars_single_blanks (b : bool) (before l : list string) :
  single_blanks_chars b (lower_chars before l) = single_blanks_chars b l.
Proof.
  revert b before. induction l as [|ch r IH]; intros b before; [reflexivity|].
  cbn [lower_chars].
  destruct (lower_char_cases before r ch) as [[_ ->] | (Hu & Hne & Hs)].
  - cbn [app single_blanks_chars]. now rewrite !IH.
  - rewrite single_blanks_chars_skip by assumption. cbn [single_blanks_chars].
    destruct (is_space ch) eqn:E; [apply space_not_upper in E; congruence|]. apply IH.
Qed.

Lemma lower_chars_head (before l : list string) :
  head_not_space l = true -> head_not_space (lower_chars before l) = true.
Proof.
  destruct l as [|ch r]; [reflexivity|]. cbn [head_not_space lower_chars]. intros H.
  destruct (lower_char_cases before r ch) as [[_ ->] | (_ & Hne & Hs)]; [exact H|].
  destruct (lower_char before r ch) as [|o outs]; [congruence|].
  cbn [forallb] in Hs. apply andb_true_iff in Hs as [Ho _].
  apply settled_facts in Ho as (_ & _ & Ho). cbn. now rewrite Ho.
Qed.

Lemma last_not_space_settled (outs : list string) :
  forallb settled outs = true -> last_not_space outs = true.
Proof.
  induction outs as [|o outs IH]; [reflexivity|]. cbn [forallb]. intros [Ho Hs]%andb_true_iff.
  destruct outs as [|o' outs]; [|rewrite last_not_space_cons; now apply IH].
  apply settled_facts in Ho as (_ & _ & Ho). unfold last_not_space. cbn. now rewrite Ho.
Qed.

Lemma lower_chars_not_nil (before : list string) (ch : string) (r : list string) :
  lower_chars before (ch :: r) <> [].
Proof.
  cbn [lower_chars]. destruct (lower_char_cases before r ch) as [[_ ->] | (_ & Hne & _)].
  - discriminate.
  - destruct (lower_char before r ch); [congruence | discriminate].
Qed.

Lemma lower_chars_last (before l : list string) :
  last_not_space l = true -> last_not_space (lower_chars before l) = true.
Proof.
  revert before. induction l as [|ch r IH]; intros before; [reflexivity|].
  destruct r as [|c r].
  - cbn [lower_chars]. rewrite app_nil_r. intros H.
    destruct (lower_char_cases before [] ch) as [[_ ->] | (_ & _ & Hs)]; [exact H|].
    now apply last_not_space_settled.
  - rewrite last_not_space_cons. intros H.
    change (lower_chars before (ch :: c :: r))
      with (lower_char before (c :: r) ch ++ lower_chars (ch :: before) (c :: r))%list.
    rewrite last_not_space_app by apply lower_chars_not_nil. now apply IH.
Qed.

(** *** [sub_ws] *)

Lemma blank_is_space : is_space " " = true.
Proof. reflexivity. Qed.

Lemma sub_ws_chars_single_blanks (b : bool) (l : list string) :
  single_blanks_chars b (sub_ws_chars b l) = true.
Proof.
  revert b. induction l as [|ch r IH]; intros b; [reflexivity|]. cbn [sub_ws_chars].
  destruct (is_space ch) eqn:Hc.
  - destruct b; [apply IH|]. cbn [single_blanks_chars]. rewrite blank_is_space.
    now rewrite IH.
  - cbn [single_blanks_chars]. rewrite Hc. apply IH.
Qed.

Lemma sub_ws_chars_fixed (b : bool) (l : list string) :
  single_blanks_chars b l = true -> sub_ws_chars b l = l.
Proof.
  revert b. induction l as [|ch r IH]; intros b; [reflexivity|].
  cbn [sub_ws_chars single_blanks_chars]. destruct (is_space ch).
  - intros [[Hb Hn]%andb_true_iff H]%andb_true_iff. apply String.eqb_eq in Hb as ->.
    apply negb_true_iff in Hn as ->. now rewrite IH.
  - intros H. now rewrite IH.
Qed.

Lemma sub_ws_chars_clean (b : bool) (l : list string) :
  forallb clean l = true -> forallb clean (sub_ws_chars b l) = true.
Proof.
  revert b. induction l as [|ch r IH]; intros b; [reflexivity|].
  cbn [forallb sub_ws_chars]. intros [Hc Hr]%andb_true_iff.
  destruct (is_space ch); [destruct b|]; cbn [forallb]; rewrite ?Hc, IH by exact Hr; reflexivity.
Qed.

Lemma sub_ws_chars_proper (b : bool) (l : list string) :
  proper l = true -> proper (sub_ws_chars b l) = true.
Proof.
  destruct l as [|ch r]; [reflexivity|]. intros H.
  pose proof (proper_tail _ _ H) as Hr. cbn [proper] in H. apply andb_true_iff in H as [Hc _].
  cbn [sub_ws_chars]. destruct (is_space ch); [destruct b|].
  - now apply forallb_clean_proper, sub_ws_chars_clean.
  - cbn [proper]. now rewrite sub_ws_chars_clean.
  - cbn [proper]. now rewrite Hc, sub_ws_chars_clean.
Qed.

Lemma chars_sub_ws (s : string) : chars (sub_ws s) = sub_ws_chars false (chars s).
Proof. unfold sub_ws. apply chars_unchars, sub_ws_chars_proper, chars_proper. Qed.

(** *** [strip] *)

Lemma single_blanks_chars_weaken (b : bool) (l : list string) :
  single_blanks_chars b l = true -> single_blanks_chars false l = true.
Proof.
  destruct l as [|ch r]; [reflexivity|]. cbn [single_blanks_chars].
  destruct (is_space ch); [|trivial]. destruct b; [|trivial].
  rewrite andb_false_r. discriminate.
Qed.

Lemma lstrip_chars_single_blanks (b : bool) (l : list string) :
  single_blanks_chars b l = true -> single_blanks_chars false (lstrip_chars l) = true.
Proof.
  revert b. induction l as [|ch r IH]; intros b; [reflexivity|]. cbn [lstrip_chars].
  destruct (is_space ch) eqn:Hc.
  - cbn [single_blanks_chars]. rewrite Hc, !andb_true_iff. intros [_ H]. now apply (IH true).
  - apply single_blanks_chars_weaken.
Qed.

Lemma rstrip_chars_single_blanks (b : bool) (l : list string) :
  single_blanks_chars b l = true -> single_blanks_chars b (rstrip_chars l) = true.
Proof.
  revert b. induction l as [|ch r IH]; intros b; [reflexivity|]. cbn [rstrip_chars].
  destruct (is_space ch && _) eqn:E; [reflexivity|].
  cbn [single_blanks_chars]. destruct (is_space ch).
  - rewrite !andb_true_iff. intros [H1 H2]. split; [exact H1 | now apply IH].
  - apply IH.
Qed.

(** *** [norm] *)

Lemma chars_norm (s : string) :
  chars (norm s) = lower_chars [] (rstrip_chars (lstrip_chars (sub_ws_chars false (chars s)))).
Proof. unfold norm. now rewrite chars_lower, chars_strip, chars_sub_ws. Qed.

Lemma norm_tidy (s : string) :
  no_upper (norm s) = true /\ single_blanks false (norm s) = true /\
  no_space_first (norm s) = true /\ no_space_last (norm s) = true.
Proof.
  unfold no_upper, single_blanks, no_space_first, no_space_last. rewrite chars_norm.
  split; [apply lower_chars_no_upper|]. split; [|split].
  - rewrite lower_chars_single_blanks.
    apply rstrip_chars_single_blanks, (lstrip_chars_single_blanks false),
      sub_ws_chars_single_blanks.
  - apply lower_chars_head, rstrip_chars_head, lstrip_chars_head.
  - apply lower_chars_last, rstrip_chars_last.
Qed.

(** A text in normal form is not changed. *)
Lemma norm_fixed (s : string) :
  no_upper s = true -> single_blanks false s = true ->
  no_space_first s = true -> no_space_last s = true -> norm s = s.
Proof.
  intros Hl Hb Hf Hla. unfold norm.
  assert (Hs : sub_ws s = s).
  { unfold sub_ws. rewrite sub_ws_chars_fixed by exact Hb. apply unchars_chars. }
  rewrite Hs, strip_fixed by assumption. now apply lower_fixed.
Qed.

Lemma norm_idempotent (s : string) : norm (norm s) = norm s.
Proof. destruct (norm_tidy s) as (Hu & Hb & Hf & Hl). now apply norm_fixed. Qed.

End normal_forms.

(* ===================================================================== *)
(** ** Published times *)
(* ===================================================================== *)

Section published.

(** [DD], [MM], [HH]: the two decimal digits of a number below 100. *)
Definition two_digits (z : Z) : string :=
  String (digit_char (z / 10)) (String (digit_char (z mod 10)) "").

(** [YYYY]: the four decimal digits of a number below 10000. *)
Definition four_digits (z : Z) : string :=
  String (digit_char (z / 1000)) (String (digit_char (z / 100 mod 10))
    (String (digit_char (z / 10 mod 10)) (String (digit_char (z mod 10)) ""))).

Lemma decimal_one (f : nat) (n : Z) :
  (n < 10)%Z -> decimal (S f) n = String (digit_char n) "".
Proof. intros H. cbn [decimal]. now rewrite (proj2 (Z.ltb_lt n 10) H). Qed.

Lemma decimal_more (f : nat) (n : Z) :
  (10 <= n)%Z ->
  decimal (S f) n = (decimal f (n / 10) ++ String (digit_char (n mod 10)) "")%string.
Proof. intros H. cbn [decimal]. now rewrite (proj2 (Z.ltb_ge n 10) H). Qed.

Lemma of_Z_nonneg (z : Z) : (0 <= z)%Z -> of_Z z = decimal (S (Z.to_nat (Z.log2 z))) z.
Proof. intros H. unfold of_Z. now rewrite (proj2 (Z.ltb_ge z 0) H). Qed.

Lemma zero_pad_two_digits (z : Z) : (0 <= z <= 99)%Z -> zero_pad 2 z = two_digits z.
Proof.
  intros Hz. unfold zero_pad, two_digits. rewrite of_Z_nonneg by lia.
  destruct (Z.ltb_spec z 10) as [Hlt | Hge].
  - rewrite decimal_one by exact Hlt.
    rewrite Z.div_small, Z.mod_small by lia. reflexivity.
  - pose proof (Z.log2_le_mono 10 z Hge) as Hlog. change (Z.log2 10) with 3%Z in Hlog.
    destruct (Z.to_nat (Z.log2 z)) as [|f] eqn:E; [lia|].
    rewrite decimal_more by exact Hge.
    rewrite decimal_one by (apply Z.div_lt_upper_bound; lia).
    reflexivity.
Qed.

Lemma year_four_digits (z : Z) : (1000 <= z <= 9999)%Z -> of_Z z = four_digits z.
Proof.
  intros Hz. unfold four_digits. rewrite of_Z_nonneg by lia.
  pose proof (Z.log2_le_mono 1000 z (proj1 Hz)) as Hlog.
  change (Z.log2 1000) with 9%Z in Hlog.
  destruct (Z.to_nat (Z.log2 z)) as [|[|[|f]]] eqn:E; try lia.
  assert (H1 : (100 <= z / 10)%Z) by (apply Z.div_le_lower_bound; lia).
  assert (H2 : (10 <= z / 10 / 10)%Z) by (apply Z.div_le_lower_bound; lia).
  assert (H3 : (z / 10 / 10 / 10 < 10)%Z).
  { apply Z.div_lt_upper_bound; [lia|]. apply Z.div_lt_upper_bound; [lia|].
    apply Z.div_lt_upper_bound; lia. }
  rewrite decimal_more by lia. rewrite decimal_more by lia.
  rewrite decimal_more by lia. rewrite decimal_one by exact H3.
  rewrite !Z.div_div by lia. reflexivity.
Qed.

Lemma in_range_spec (lo x hi : Z) : in_range lo x hi = true <-> (lo <= x <= hi)%Z.
Proof. unfold in_range. rewrite andb_true_iff, !Z.leb_le. reflexivity. Qed.

Lemma days_in_month_le (y m : Z) : (days_in_month y m <= 31)%Z.
Proof.
  unfold days_in_month.
  repeat match goal with |- context [if ?b then _ else _] => destruct b end; lia.
Qed.

(** What [make_datetime] accepts. *)
Definition valid_date (y m d hh mi ss : Z) : Prop :=
  (1 <= y <= 9999 /\ 1 <= m <= 12 /\ 1 <= d <= days_in_month y m
   /\ 0 <= hh <= 23 /\ 0 <= mi <= 59 /\ 0 <= ss <= 59)%Z.

Lemma make_datetime_spec (args : list Z) (dt : datetime) :
  make_datetime args = Some dt <->
  exists y m d rest,
    args = y :: m :: d :: rest /\
    dt = Datetime y m d (nth 0 rest 0%Z) (nth 1 rest 0%Z) (nth 2 rest 0%Z) /\
    valid_date y m d (nth 0 rest 0%Z) (nth 1 rest 0%Z) (nth 2 rest 0%Z).
Proof.
  unfold make_datetime, valid_date. split.
  - destruct args as [|y [|m [|d rest]]]; try discriminate.
    destruct (_ && _) eqn:E; [|discriminate]. intros [= <-].
    rewrite !andb_true_iff, !in_range_spec in E.
    exists y, m, d, rest. intuition.
  - intros (y & m & d & rest & -> & -> & H).
    rewrite <- !in_range_spec in H. destruct H as (-> & -> & -> & -> & -> & ->).
    reflexivity.
Qed.

(** The decimal digits of a year as [%Y] prints it: without padding. *)
Definition plain_digits (z : Z) : string :=
  if (z <? 10)%Z then String (digit_char z) ""
  else if (z <? 100)%Z then two_digits z
  else if (z <? 1000)%Z then
    String (digit_char (z / 100)) (String (digit_char (z / 10 mod 10))
      (String (digit_char (z mod 10)) ""))
  else four_digits z.

Lemma of_Z_plain_digits (z : Z) : (0 <= z <= 9999)%Z -> of_Z z = plain_digits z.
Proof.
  intros Hz. unfold plain_digits.
  destruct (Z.ltb_spec z 10) as [H1|H1].
  { rewrite of_Z_nonneg by lia. now apply decimal_one. }
  destruct (Z.ltb_spec z 100) as [H2|H2].
  { rewrite <- zero_pad_two_digits by lia. unfold zero_pad.
    rewrite of_Z_nonneg by lia.
    pose proof (Z.log2_le_mono 10 z H1) as Hlog. change (Z.log2 10) with 3%Z in Hlog.
    destruct (Z.to_nat (Z.log2 z)) as [|f] eqn:E; [lia|].
    rewrite decimal_more by exact H1.
    rewrite decimal_one by (apply Z.div_lt_upper_bound; lia). reflexivity. }
  destruct (Z.ltb_spec z 1000) as [H3|H3]; [|apply year_four_digits; lia].
  rewrite of_Z_nonneg by lia.
  pose proof (Z.log2_le_mono 100 z H2) as Hlog. change (Z.log2 100) with 6%Z in Hlog.
  destruct (Z.to_nat (Z.log2 z)) as [|[|f]] eqn:E; try lia.
  assert (H4 : (10 <= z / 10)%Z) by (apply Z.div_le_lower_bound; lia).
  assert (H5 : (z / 10 / 10 < 10)%Z).
  { apply Z.div_lt_upper_bound; [lia|]. apply Z.div_lt_upper_bound; lia. }
  rewrite decimal_more by lia. rewrite decimal_more by lia.
  rewrite decimal_one by exact H5. rewrite !Z.div_div by lia. reflexivity.
Qed.

(** The layout of a rendering, for every date [datetime] accepts. *)
Lemma strftime_layout_plain (dt : datetime) (args : list Z) :
  make_datetime args = Some dt ->
  strftime_dmY_HM dt =
    two_digits (dt_day dt) ++ "." ++ two_digits (dt_month dt) ++ "."
    ++ plain_digits (dt_year dt) ++ " "
    ++ two_digits (dt_hour dt) ++ ":" ++ two_digits (dt_minute dt).
Proof.
  intros H. apply make_datetime_spec in H as (y & m & d & rest & _ & -> & H).
  unfold valid_date in H. cbn [dt_year dt_month dt_day dt_hour dt_minute] in *.
  pose proof (days_in_month_le y m).
  unfold strftime_dmY_HM. cbn [dt_year dt_month dt_day dt_hour dt_minute].
  rewrite !zero_pad_two_digits, of_Z_plain_digits by lia. reflexivity.
Qed.

End published.

(* ===================================================================== *)
(** ** Effects of a run *)
(* ===================================================================== *)

Local Open Scope list_scope.

Section effects.
Context (en : env).

Lemma bind_run {A B : Type} (m : M A) (k : A -> M B) (w : world) :
  (m ≫= k) w =
    match m w with
    | (Return a, w') => k a w'
    | (Raise e, w') => (Raise e, w')
    end.
Proof. reflexivity. Qed.

Lemma ret_run {A : Type} (a : A) (w : world) : (mret a : M A) w = (Return a, w).
Proof. reflexivity. Qed.

(** A credential is missing: the test of [telegram_send]. *)
Definition missing_credentials : bool :=
  is_empty (getenv en "TELEGRAM_BOT_TOKEN") || is_empty (getenv en "TELEGRAM_CHAT_ID").

(** The call [telegram_send] makes for a text. *)
Definition request_for (text : string) : request :=
  Request ("https://api.telegram.org/bot" +:+ getenv en "TELEGRAM_BOT_TOKEN" +:+ "/sendMessage")
          (getenv en "TELEGRAM_CHAT_ID") text.

Lemma telegram_send_missing (text : string) (w : world) :
  missing_credentials = true ->
  telegram_send en text w = (Raise MissingCredentials, w).
Proof. unfold telegram_send, missing_credentials. now intros ->. Qed.

Lemma telegram_send_present (text : string) (w : world) :
  missing_credentials = false ->
  telegram_send en text w =
    (if post_ok en (log w) (request_for text) then Return tt else Raise DeliveryFailed,
     World (disk w) (log w ++ [Posted (request_for text) (post_ok en (log w) (request_for text))])).
Proof. unfold telegram_send, missing_credentials. now intros ->. Qed.

(** The events of a run that goes on: fetches, prints and accepted posts. *)
Definition calm (ev : event) : Prop :=
  match ev with
  | Fetched _ | Printed _ => True
  | Posted _ ok => ok = true
  | Saved _ | ErrorPrinted _ => False
  end.

(** What every step of the loops does to the world: the state file is left
    alone; the new events are calm, up to the refused post that an exception
    [DeliveryFailed] comes from; and without credentials nothing is posted. *)
Definition effect_of {A : Type} (o : outcome A) (evs : list event) : Prop :=
  match o with
  | Return _ => Forall calm evs /\ (missing_credentials = true -> posts evs = [])
  | Raise MissingCredentials =>
      missing_credentials = true /\ Forall calm evs /\ posts evs = []
  | Raise DeliveryFailed =>
      missing_credentials = false /\
      exists evs0 r, evs = evs0 ++ [Posted r false] /\ Forall calm evs0
  end.

Definition tame {A : Type} (m : M A) : Prop :=
  forall w, disk (m w).2 = disk w /\
            exists evs, log (m w).2 = log w ++ evs /\ effect_of (m w).1 evs.

Lemma posts_app (l k : list event) : posts (l ++ k) = posts l ++ posts k.
Proof. apply omap_app. Qed.

Lemma saves_app (l k : list event) : saves (l ++ k) = saves l ++ saves k.
Proof. apply omap_app. Qed.

Lemma delivered_app (l k : list event) : delivered (l ++ k) = delivered l ++ delivered k.
Proof. apply omap_app. Qed.

Lemma calm_no_saves (evs : list event) : Forall calm evs -> saves evs = [].
Proof.
  induction 1 as [|ev evs Hev _ IH]; [reflexivity|].
  destruct ev; cbn in *; try exact IH; contradiction.
Qed.

Lemma tame_ret {A : Type} (a : A) : tame (mret a).
Proof.
  intros w. split; [reflexivity|]. exists []. split; [now rewrite app_nil_r|].
  split; [constructor | reflexivity].
Qed.

Lemma tame_bind {A B : Type} (m : M A) (k : A -> M B) :
  tame m -> (forall a, tame (k a)) -> tame (m ≫= k).
Proof.
  intros Hm Hk w. rewrite bind_run. specialize (Hm w).
  destruct (m w) as [[a|x] w1]; cbn [fst snd] in *.
  - destruct Hm as (Hd1 & evs1 & Hl1 & Hc1 & Hp1).
    specialize (Hk a w1). destruct Hk as (Hd2 & evs2 & Hl2 & He2).
    split; [congruence|]. exists (evs1 ++ evs2).
    split; [rewrite Hl2, Hl1; now rewrite app_assoc|].
    destruct (k a w1) as [[b|[|]] w2]; cbn [fst snd effect_of] in *.
    + destruct He2 as [Hc2 Hp2]. split; [now apply Forall_app|].
      intros Hmiss. now rewrite posts_app, Hp1, Hp2.
    + destruct He2 as (Hmiss & Hc2 & Hp2). split; [exact Hmiss|].
      split; [now apply Forall_app | now rewrite posts_app, Hp1, Hp2].
    + destruct He2 as (Hmiss & evs0 & r & -> & Hc0). split; [exact Hmiss|].
      exists (evs1 ++ evs0), r. split; [now rewrite app_assoc | now apply Forall_app].
  - exact Hm.
Qed.

Lemma tame_emit (ev : event) : calm ev -> posts [ev] = [] -> tame (emit ev).
Proof.
  intros Hc Hp w. split; [reflexivity|]. exists [ev]. split; [reflexivity|].
  split; [now repeat constructor | now intros _].
Qed.

Lemma tame_telegram_send (text : string) : tame (telegram_send en text).
Proof.
  intros w. destruct missing_credentials eqn:Hm.
  - rewrite telegram_send_missing by exact Hm. split; [reflexivity|].
    exists []. split; [now rewrite app_nil_r|]. now repeat split.
  - rewrite telegram_send_present by exact Hm. split; [reflexivity|].
    eexists. split; [reflexivity|].
    destruct (post_ok en (log w) (request_for text)); cbn.
    + split; [now repeat constructor | congruence].
    + split; [exact Hm|]. exists [], (request_for text). now split.
Qed.

Lemma tame_fetch (url : string) : tame (fetch en url).
Proof.
  unfold fetch. apply tame_bind; [now apply tame_emit | intros _; apply tame_ret].
Qed.

Lemma tame_process_entry name inc exc e st : tame (process_entry en name inc exc e st).
Proof.
  unfold process_entry. case_decide; [apply tame_ret|].
  apply tame_bind; [|intros; apply tame_ret].
  destruct (passes_filters _ _ _ _); [|apply tame_ret].
  apply tame_bind; [apply tame_telegram_send | intros; apply tame_ret].
Qed.

Lemma tame_process_entries name inc exc es st : tame (process_entries en name inc exc es st).
Proof.
  revert st. induction es as [|e es IH]; intros st; cbn [process_entries].
  - apply tame_ret.
  - apply tame_bind; [apply tame_process_entry | exact IH].
Qed.

Lemma tame_process_feed f st : tame (process_feed en f st).
Proof.
  unfold process_feed. destruct (is_empty (feed_url f)); [apply tame_ret|].
  apply tame_bind; [apply tame_fetch|]. intros p. destruct (bozo p).
  - apply tame_bind; [now apply tame_emit | intros; apply tame_ret].
  - apply tame_bind; [apply tame_process_entries|].
    intros r. destruct (new_hashes r); apply tame_ret.
Qed.

Lemma tame_process_feeds feeds st : tame (process_feeds en feeds st).
Proof.
  revert st. induction feeds as [|f feeds IH]; intros st; cbn [process_feeds].
  - apply tame_ret.
  - apply tame_bind; [apply tame_process_feed | exact IH].
Qed.

End effects.

(* ===================================================================== *)
(** ** Seen sets across a run *)
(* ===================================================================== *)

Section seen_sets.
Context (en : env).

(** The iteration order of a set lists each of its elements once. *)
Definition order_ok : Prop :=
  forall X : gset string,
    NoDup (set_order en X) /\ forall x, x ∈ set_order en X <-> x ∈ X.

(** The identities stored for a URL, as the set a run starts from. *)
Definition stored (m : seen_store) (url : string) : gset string :=
  list_to_set (default [] (m !! url)).

(** The identities of the entries a run looks at in a feed. *)
Definition feed_ids (f : feed) : gset string :=
  if is_empty (feed_url f) then ∅
  else
    let p := feedparser_parse en (feed_url f) in
    if bozo p then ∅ else list_to_set (make_entry_key <$> considered f p).

(** The same over the feeds of the configuration that share a URL. *)
Fixpoint ids_for (feeds : list feed) (url : string) : gset string :=
  match feeds with
  | [] => ∅
  | f :: rest =>
      (if decide (feed_url f = url) then feed_ids f else ∅) ∪ ids_for rest url
  end.

Lemma slice_last_length {A : Type} (n : nat) (l : list A) : length (slice_last n l) <= n.
Proof. unfold slice_last. rewrite length_drop. lia. Qed.

Lemma slice_last_all {A : Type} (n : nat) (l : list A) : length l <= n -> slice_last n l = l.
Proof. intros H. unfold slice_last. now replace (length l - n) with 0 by lia. Qed.

Lemma order_ok_set (X : gset string) : order_ok -> list_to_set (set_order en X) = X.
Proof.
  intros H. apply set_eq. intros x. rewrite elem_of_list_to_set. apply (H X).
Qed.

Lemma order_ok_length (X : gset string) : order_ok -> length (set_order en X) = size X.
Proof.
  intros H. unfold size, set_size. cbn. apply Permutation_length, NoDup_Permutation.
  - apply (H X).
  - apply NoDup_elements.
  - intros x. rewrite elem_of_elements. apply (H X).
Qed.

Lemma trim_keeps_small_set (X : gset string) :
  order_ok -> size X <= 400 -> list_to_set (slice_last 400 (set_order en X)) = X.
Proof.
  intros H Hs. rewrite slice_last_all by now rewrite order_ok_length.
  now apply order_ok_set.
Qed.

(** *** One entry *)

Lemma process_entry_seen name inc exc e st w :
  make_entry_key e ∈ seen_hashes st ->
  process_entry en name inc exc e st w = (Return st, w).
Proof. intros H. unfold process_entry. now rewrite decide_True. Qed.

Lemma process_entry_filtered name inc exc e st w :
  make_entry_key e ∉ seen_hashes st ->
  passes_filters (entry_title e) (entry_summary e) inc exc = false ->
  process_entry en name inc exc e st w =
    (Return (FeedState ({[make_entry_key e]} ∪ seen_hashes st)
                       (new_hashes st ++ [make_entry_key e]) (sent st)), w).
Proof.
  intros H Hp. unfold process_entry. rewrite decide_False by exact H.
  now rewrite Hp.
Qed.

(** The text handed to [telegram_send] for an entry. *)
Definition message_for (name : string) (e : entry) : string :=
  build_message name
    (if is_empty (entry_title e) then "(ohne Titel)" else entry_title e)
    (entry_link e) (format_published e).

Lemma process_entry_passing name inc exc e st w :
  make_entry_key e ∉ seen_hashes st ->
  passes_filters (entry_title e) (entry_summary e) inc exc = true ->
  process_entry en name inc exc e st w =
    match telegram_send en (message_for name e) w with
    | (Return _, w') =>
        (Return (FeedState ({[make_entry_key e]} ∪ seen_hashes st)
                           (new_hashes st ++ [make_entry_key e]) (S (sent st))), w')
    | (Raise x, w') => (Raise x, w')
    end.
Proof.
  intros H Hp. unfold process_entry. rewrite decide_False by exact H.
  rewrite Hp, !bind_run. fold (message_for name e).
  now destruct (telegram_send en (message_for name e) w) as [[[]|x] w'].
Qed.

Lemma process_entry_returns name inc exc e st w st' w' :
  process_entry en name inc exc e st w = (Return st', w') ->
  (make_entry_key e ∈ seen_hashes st /\ st' = st) \/
  (make_entry_key e ∉ seen_hashes st /\
   seen_hashes st' = ({[make_entry_key e]} ∪ seen_hashes st) /\
   new_hashes st' = new_hashes st ++ [make_entry_key e] /\
   sent st <= sent st').
Proof.
  destruct (decide (make_entry_key e ∈ seen_hashes st)) as [Hin|Hout].
  - rewrite process_entry_seen by exact Hin. intros [= <- <-]. now left.
  - right. split; [exact Hout|].
    destruct (passes_filters (entry_title e) (entry_summary e) inc exc) eqn:Hp.
    + rewrite process_entry_passing in H by assumption.
      destruct (telegram_send en (message_for name e) w) as [[[]|x] w1]; [|discriminate].
      injection H as <- <-. cbn. repeat split; lia.
    + rewrite process_entry_filtered in H by assumption.
      injection H as <- <-. cbn. repeat split; lia.
Qed.

(** *** The entries of a feed *)

Lemma process_entries_all_seen name inc exc es st w :
  (forall e, e ∈ es -> make_entry_key e ∈ seen_hashes st) ->
  process_entries en name inc exc es st w = (Return st, w).
Proof.
  induction es as [|e es IH]; intros H; cbn [process_entries]; [reflexivity|].
  rewrite bind_run, process_entry_seen by (apply H, elem_of_cons; now left).
  apply IH. intros e' He'. apply H, elem_of_cons. now right.
Qed.

Lemma process_entries_returns name inc exc es st w st' w' :
  process_entries en name inc exc es st w = (Return st', w') ->
  exists added,
    new_hashes st' = new_hashes st ++ added /\
    seen_hashes st' = (seen_hashes st ∪ list_to_set added) /\
    seen_hashes st' = (seen_hashes st ∪ list_to_set (make_entry_key <$> es)) /\
    sent st <= sent st'.
Proof.
  revert st w. induction es as [|e es IH]; intros st w; cbn [process_entries].
  - intros [= <- <-]. exists []. rewrite app_nil_r, fmap_nil, list_to_set_nil.
    repeat split; [set_solver..|lia].
  - rewrite bind_run.
    destruct (process_entry en name inc exc e st w) as [[st1|x] w1] eqn:E1; [|discriminate].
    intros H. apply IH in H as (added & Hn & Hs & Hk & Hsent).
    apply process_entry_returns in E1 as [[Hin ->] | (Hout & Hs1 & Hn1 & Hsent1)].
    + exists added. repeat split; try assumption.
      rewrite Hk, fmap_cons, list_to_set_cons. set_solver.
    + exists (make_entry_key e :: added).
      split; [rewrite Hn, Hn1; now rewrite <- app_assoc|].
      split; [rewrite Hs, Hs1, list_to_set_cons; set_solver|].
      split; [rewrite Hk, Hs1, fmap_cons, list_to_set_cons; set_solver | lia].
Qed.

End seen_sets.

Section feeds_facts.
Context (en : env).

(** *** One feed *)

Lemma process_feed_skipped f st w :
  is_empty (feed_url f) = true -> process_feed en f st w = (Return st, w).
Proof. intros H. unfold process_feed. now rewrite H. Qed.

Lemma process_feed_malformed f st w :
  is_empty (feed_url f) = false ->
  bozo (feedparser_parse en (feed_url f)) = true ->
  process_feed en f st w =
    (Return st,
     World (disk w)
           (log w ++ [Fetched (feed_url f);
                      Printed ("Warnung: Feed-Parsing-Problem bei " +:+ feed_url f)])).
Proof.
  intros Hu Hb. unfold process_feed. rewrite Hu. unfold fetch.
  rewrite !bind_run. cbn [emit]. rewrite ret_run, Hb, !bind_run. cbn [emit disk log].
  rewrite ret_run, <- app_assoc. reflexivity.
Qed.

(** The loop variables a well-formed feed starts from. *)
Definition feed_start (f : feed) (st : run_state) : feed_state :=
  FeedState (stored (seen_map st) (feed_url f)) [] (total_sent st).

(** What the end of the loop makes of its variables. *)
Definition feed_finish (f : feed) (st : run_state) (r : feed_state) : run_state :=
  match new_hashes r with
  | [] => RunState (seen_map st) (changed st) (sent r)
  | _ => RunState (<[feed_url f := slice_last 400 (set_order en (seen_hashes r))]> (seen_map st))
                  true (sent r)
  end.

Lemma process_feed_wellformed f st w :
  is_empty (feed_url f) = false ->
  bozo (feedparser_parse en (feed_url f)) = false ->
  process_feed en f st w =
    match process_entries en (default "Feed" (f_name f)) (f_include_any f) (f_exclude_any f)
            (considered f (feedparser_parse en (feed_url f))) (feed_start f st)
            (World (disk w) (log w ++ [Fetched (feed_url f)])) with
    | (Return r, w') => (Return (feed_finish f st r), w')
    | (Raise x, w') => (Raise x, w')
    end.
Proof.
  intros Hu Hb. unfold process_feed. rewrite Hu. unfold fetch.
  rewrite !bind_run. cbn [emit]. rewrite ret_run, Hb, bind_run.
  unfold feed_start, stored.
  destruct (process_entries _ _ _ _ _ _ _) as [[r|x] w']; [|reflexivity].
  unfold feed_finish. now destruct (new_hashes r).
Qed.

(** The stored identities after a feed: nothing changes, or the list of the
    feed's URL is replaced by the trimmed set. *)
Lemma process_feed_returns f st w st' w' :
  process_feed en f st w = (Return st', w') ->
  (seen_map st' = seen_map st /\ changed st' = changed st /\
   feed_ids en f ⊆ stored (seen_map st) (feed_url f)) \/
  (seen_map st' =
     <[feed_url f :=
         slice_last 400 (set_order en (stored (seen_map st) (feed_url f) ∪ feed_ids en f))]>
       (seen_map st) /\
   changed st' = true).
Proof.
  intros H. unfold feed_ids.
  destruct (is_empty (feed_url f)) eqn:Hu.
  { rewrite process_feed_skipped in H by exact Hu. injection H as <- <-.
    left. repeat split. set_solver. }
  destruct (bozo (feedparser_parse en (feed_url f))) eqn:Hb.
  { rewrite process_feed_malformed in H by assumption. injection H as <- <-.
    left. repeat split. set_solver. }
  rewrite process_feed_wellformed in H by assumption.
  destruct (process_entries _ _ _ _ _ _ _) as [[r|x] w1] eqn:E; [|discriminate].
  injection H as <- <-.
  apply process_entries_returns in E as (added & Hn & Hs & Hk & _).
  cbn [feed_start seen_hashes new_hashes] in *. unfold feed_finish.
  destruct (new_hashes r) as [|k ks] eqn:En.
  - left. cbn. repeat split.
    destruct added; [|discriminate]. rewrite list_to_set_nil in Hs.
    rewrite Hs in Hk. set_solver.
  - right. cbn. now rewrite Hk.
Qed.

Lemma stored_insert (m : seen_store) (u u' : string) (l : list string) :
  stored (<[u := l]> m) u' = if decide (u = u') then list_to_set l else stored m u'.
Proof.
  unfold stored. case_decide as H.
  - subst. now rewrite lookup_insert_eq.
  - now rewrite lookup_insert_ne.
Qed.

(** *** The feeds of a configuration *)

Lemma feed_ids_in_ids_for (feeds : list feed) (f : feed) :
  f ∈ feeds -> feed_ids en f ⊆ ids_for en feeds (feed_url f).
Proof.
  induction feeds as [|g feeds IH]; intros H.
  - now apply elem_of_nil in H.
  - cbn [ids_for]. apply elem_of_cons in H as [<- | H].
    + rewrite decide_True by reflexivity. set_solver.
    + specialize (IH H). set_solver.
Qed.

(** While no stored set outgrows the bound, a run that returns has recorded
    every identity it met. *)
Lemma process_feeds_records (feeds : list feed) st w st' w' :
  order_ok en ->
  process_feeds en feeds st w = (Return st', w') ->
  Forall (fun f => size (stored (seen_map st) (feed_url f) ∪ ids_for en feeds (feed_url f)) <= 400)
         feeds ->
  forall u, stored (seen_map st') u = stored (seen_map st) u ∪ ids_for en feeds u.
Proof.
  intros Hord. revert st w. induction feeds as [|f feeds IH]; intros st w; cbn [process_feeds].
  - intros [= <- <-] _ u. cbn. set_solver.
  - rewrite bind_run.
    destruct (process_feed en f st w) as [[st1|x] w1] eqn:E1; [|discriminate].
    intros H Hb u.
    apply Forall_cons in Hb as [Hf Hb].
    assert (Hst1 : forall v, stored (seen_map st1) v =
              stored (seen_map st) v ∪ (if decide (feed_url f = v) then feed_ids en f else ∅)).
    { intros v. apply process_feed_returns in E1 as [(-> & _ & Hsub) | [-> _]].
      - case_decide; [subst v|]; set_solver.
      - rewrite stored_insert. case_decide; [subst v|set_solver].
        apply trim_keeps_small_set; [exact Hord|].
        etrans; [|exact Hf]. apply subseteq_size. cbn [ids_for].
        rewrite decide_True by reflexivity. set_solver. }
    rewrite (IH st1 w1 H).
    + rewrite Hst1. cbn [ids_for]. set_solver.
    + eapply Forall_impl; [exact Hb|]. intros g Hg. cbn beta in *.
      etrans; [|exact Hg]. apply subseteq_size. rewrite Hst1. cbn [ids_for]. set_solver.
Qed.

(** A run that returns with [changed] unset has not touched the mapping. *)
Lemma process_feeds_unchanged (feeds : list feed) st w st' w' :
  process_feeds en feeds st w = (Return st', w') ->
  changed st' = false -> seen_map st' = seen_map st /\ changed st = false.
Proof.
  revert st w. induction feeds as [|f feeds IH]; intros st w; cbn [process_feeds].
  - intros [= <- <-] H. now split.
  - rewrite bind_run.
    destruct (process_feed en f st w) as [[st1|x] w1] eqn:E1; [|discriminate].
    intros H Hc. destruct (IH _ _ H Hc) as [Hm Hc1].
    apply process_feed_returns in E1 as [(Hm1 & Hc2 & _) | [_ Hc2]]; [|congruence].
    split; congruence.
Qed.

(** A run over feeds whose identities are all stored does nothing but fetch
    and warn. *)
Definition silent (ev : event) : Prop :=
  match ev with Fetched _ | Printed _ => True | _ => False end.

Lemma silent_no_posts (evs : list event) : Forall silent evs -> posts evs = [].
Proof.
  induction 1 as [|ev evs Hev _ IH]; [reflexivity|].
  destruct ev; cbn in *; try exact IH; contradiction.
Qed.

Lemma silent_no_saves (evs : list event) : Forall silent evs -> saves evs = [].
Proof.
  induction 1 as [|ev evs Hev _ IH]; [reflexivity|].
  destruct ev; cbn in *; try exact IH; contradiction.
Qed.

Lemma process_feed_silent f st w :
  feed_ids en f ⊆ stored (seen_map st) (feed_url f) ->
  exists evs, process_feed en f st w = (Return st, World (disk w) (log w ++ evs))
              /\ Forall silent evs.
Proof.
  intros Hsub. unfold feed_ids in Hsub.
  destruct (is_empty (feed_url f)) eqn:Hu.
  { exists []. rewrite process_feed_skipped by exact Hu. rewrite app_nil_r.
    split; [now destruct w | constructor]. }
  destruct (bozo (feedparser_parse en (feed_url f))) eqn:Hb.
  { eexists. rewrite process_feed_malformed by assumption.
    split; [reflexivity | now repeat constructor]. }
  exists [Fetched (feed_url f)]. rewrite process_feed_wellformed by assumption.
  rewrite process_entries_all_seen.
  - split; [|now repeat constructor]. unfold feed_finish. cbn.
    now destruct st.
  - intros e He. cbn. apply Hsub, elem_of_list_to_set, list_elem_of_fmap. now exists e.
Qed.

Lemma process_feeds_silent (feeds : list feed) st w :
  (forall f, f ∈ feeds -> feed_ids en f ⊆ stored (seen_map st) (feed_url f)) ->
  exists evs, process_feeds en feeds st w = (Return st, World (disk w) (log w ++ evs))
              /\ Forall silent evs.
Proof.
  revert w. induction feeds as [|f feeds IH]; intros w H; cbn [process_feeds].
  - exists []. rewrite app_nil_r, ret_run. split; [now destruct w | constructor].
  - rewrite bind_run.
    destruct (process_feed_silent f st w) as (evs1 & -> & Hs1).
    { apply H, elem_of_cons. now left. }
    destruct (IH (World (disk w) (log w ++ evs1))) as (evs2 & -> & Hs2).
    { intros g Hg. apply H, elem_of_cons. now right. }
    exists (evs1 ++ evs2). cbn [disk log]. rewrite app_assoc.
    split; [reflexivity | now apply Forall_app].
Qed.

End feeds_facts.

Section main_facts.
Context (en : env).

(** The last line [main] prints. *)
Definition done_line (n : nat) : string :=
  "Done. Sent " +:+ of_Z (Z.of_nat n) +:+ " messages.".

Lemma main_no_feeds w :
  main en [] w =
    (Return 1%Z, World (disk w) (log w ++ [Printed "Keine Feeds in config.json gefunden."])).
Proof. reflexivity. Qed.

Lemma main_feeds (feeds : list feed) w :
  feeds <> [] ->
  main en feeds w =
    match process_feeds en feeds (RunState (disk w) false 0) w with
    | (Return st, w1) =>
        (Return 0%Z,
         if changed st
         then World (seen_map st)
                    (log w1 ++ [Saved (seen_map st); Printed (done_line (total_sent st))])
         else World (disk w1) (log w1 ++ [Printed (done_line (total_sent st))]))
    | (Raise x, w1) => (Raise x, w1)
    end.
Proof.
  intros Hne. destruct feeds as [|f feeds]; [congruence|].
  unfold main. rewrite bind_run. cbn [load_state]. rewrite bind_run.
  destruct (process_feeds en (f :: feeds) _ w) as [[st|x] w1]; [|reflexivity].
  rewrite !bind_run. destruct (changed st).
  - cbn [save_state emit disk log]. rewrite bind_run. cbn [emit disk log].
    rewrite ret_run, <- app_assoc. reflexivity.
  - reflexivity.
Qed.

Lemma script_run (feeds : list feed) w :
  script en feeds w =
    match main en feeds w with
    | (Raise x, w') => (Raise x, World (disk w') (log w' ++ [ErrorPrinted x]))
    | r => r
    end.
Proof. reflexivity. Qed.

End main_facts.

(** Every list in the mapping after the feeds is the one from before or has
    at most 400 elements. *)
Lemma process_feeds_bounded (en : env) (feeds : list feed) st w st' w' :
  process_feeds en feeds st w = (Return st', w') ->
  forall u l, seen_map st' !! u = Some l -> seen_map st !! u = Some l \/ length l <= 400.
Proof.
  revert st w. induction feeds as [|f feeds IH]; intros st w; cbn [process_feeds].
  - intros [= <- <-] u l H. now left.
  - rewrite bind_run.
    destruct (process_feed en f st w) as [[st1|x] w1] eqn:E1; [|discriminate].
    intros H u l Hl. destruct (IH _ _ H u l Hl) as [H1 | H1]; [|now right].
    apply process_feed_returns in E1 as [(Hm & _ & _) | [Hm _]].
    + left. congruence.
    + rewrite Hm in H1. destruct (decide (feed_url f = u)) as [<-|Hne].
      * rewrite lookup_insert_eq in H1. injection H1 as <-.
        right. apply slice_last_length.
      * rewrite lookup_insert_ne in H1 by exact Hne. now left.
Qed.

Lemma process_entry_ext (en : env) name inc exc (e e' : entry) st w :
  make_entry_key e = make_entry_key e' ->
  entry_title e = entry_title e' ->
  entry_summary e = entry_summary e' ->
  entry_link e = entry_link e' ->
  format_published e = format_published e' ->
  process_entry en name inc exc e st w = process_entry en name inc exc e' st w.
Proof. intros H1 H2 H3 H4 H5. unfold process_entry. now rewrite H1, H2, H3, H4, H5. Qed.

(* ===================================================================== *)
(** ** Runs that follow one another *)
(* ===================================================================== *)

Section repeated_runs.
Context (en : env).

Lemma size_list_to_set_le (l : list string) :
  size (list_to_set (C := gset string) l) <= length l.
Proof.
  induction l as [|x l IH]; [now rewrite list_to_set_nil, size_empty|].
  rewrite list_to_set_cons, size_union_alt, size_singleton. cbn [length].
  assert (Hsub : list_to_set l ∖ {[x]} ⊆ list_to_set (C := gset string) l) by set_solver.
  apply subseteq_size in Hsub. lia.
Qed.

Lemma process_feeds_single f st w : process_feeds en [f] st w = process_feed en f st w.
Proof.
  cbn [process_feeds]. rewrite bind_run.
  now destruct (process_feed en f st w) as [[st1|x] w1].
Qed.

(** A run over some feeds that returns: its status is 0, and the state file
    holds the mapping the feeds left. *)
Lemma script_returns (feeds : list feed) w c w1 :
  feeds <> [] ->
  script en feeds w = (Return c, w1) ->
  c = 0%Z /\
  exists st wp,
    process_feeds en feeds (RunState (disk w) false 0) w = (Return st, wp) /\
    disk w1 = seen_map st /\
    log w1 = log wp ++ (if changed st then [Saved (seen_map st)] else [])
                    ++ [Printed (done_line (total_sent st))].
Proof.
  intros Hne. rewrite script_run, main_feeds by exact Hne.
  pose proof (tame_process_feeds en feeds (RunState (disk w) false 0) w) as [Hd _].
  destruct (process_feeds en feeds _ w) as [[st|x] wp] eqn:E; [|discriminate].
  cbn [snd] in Hd.
  destruct (changed st) eqn:Hc; intros [= <- <-]; (split; [reflexivity|]);
    exists st, wp; (split; [reflexivity|]); cbn [disk log]; rewrite Hc.
  - split; reflexivity.
  - split; [|reflexivity].
    apply process_feeds_unchanged in E as [-> _]; [exact Hd | exact Hc].
Qed.

(** What a run stores never exceeds the bound, when the state file did not
    to begin with. *)
Lemma stored_after_run_small (feeds : list feed) w c w1 :
  (forall u l, disk w !! u = Some l -> length l <= 400) ->
  script en feeds w = (Return c, w1) ->
  forall u, size (stored (disk w1) u) <= 400.
Proof.
  intros Hw H u. unfold stored.
  destruct (disk w1 !! u) as [l|] eqn:El;
    [|change (size (list_to_set (C := gset string) []) <= 400);
      rewrite list_to_set_nil, size_empty; lia].
  change (size (list_to_set (C := gset string) l) <= 400).
  etrans; [apply size_list_to_set_le|].
  assert (Hcases : disk w !! u = Some l \/ length l <= 400).
  { destruct feeds as [|f feeds].
    - rewrite script_run, main_no_feeds in H. injection H as _ <-. now left.
    - apply script_returns in H as (_ & st & wp & E & Hd & _); [|discriminate].
      rewrite Hd in El. apply (process_feeds_bounded _ _ _ _ _ _ E u l El). }
  destruct Hcases as [H1|H1]; [now apply (Hw u) | exact H1].
Qed.

(** A feed with an identity that is not stored makes the run write the
    state file. *)
Lemma unseen_identity_is_saved f w c w1 :
  ~ feed_ids en f ⊆ stored (disk w) (feed_url f) ->
  script en [f] w = (Return c, w1) ->
  exists evs, log w1 = log w ++ evs /\ saves evs <> [].
Proof.
  intros Hn H. apply script_returns in H as (_ & st & wp & E & _ & Hl); [|discriminate].
  pose proof (tame_process_feeds en [f] (RunState (disk w) false 0) w) as (_ & evs & Hlp & _).
  rewrite E in Hlp. cbn [snd] in Hlp.
  rewrite process_feeds_single in E.
  apply process_feed_returns in E as [(_ & _ & Hsub) | [_ Hc]]; [contradiction|].
  rewrite Hc in Hl. eexists. split; [rewrite Hl, Hlp; now rewrite <- app_assoc|].
  rewrite !saves_app. cbn. now destruct (saves evs).
Qed.

(** *** Entries that pass the filter *)

Lemma telegram_send_returns text w u w1 :
  telegram_send en text w = (Return u, w1) ->
  w1 = World (disk w) (log w ++ [Posted (request_for en text) true]).
Proof.
  destruct (missing_credentials en) eqn:Hm.
  - rewrite telegram_send_missing by exact Hm. discriminate.
  - rewrite telegram_send_present by exact Hm.
    destruct (post_ok en (log w) (request_for en text)); [|discriminate].
    now intros [= _ <-].
Qed.

Lemma process_entries_posts name inc exc es st w st' w' :
  (forall e, e ∈ es -> passes_filters (entry_title e) (entry_summary e) inc exc = true) ->
  (exists e, e ∈ es /\ make_entry_key e ∉ seen_hashes st) ->
  process_entries en name inc exc es st w = (Return st', w') ->
  exists evs r, log w' = log w ++ evs /\ Posted r true ∈ evs.
Proof.
  revert st w. induction es as [|e es IH]; intros st w Hpass [e0 [He0 Hout]].
  - now apply elem_of_nil in He0.
  - cbn [process_entries]. rewrite bind_run.
    destruct (decide (make_entry_key e ∈ seen_hashes st)) as [Hin|Hnew].
    + rewrite process_entry_seen by exact Hin. apply IH.
      * intros e' He'. apply Hpass, elem_of_cons. now right.
      * exists e0. split; [|exact Hout].
        apply elem_of_cons in He0 as [-> | He0]; [contradiction | exact He0].
    + rewrite process_entry_passing; [|exact Hnew | apply Hpass, elem_of_cons; now left].
      destruct (telegram_send en (message_for name e) w) as [[u|x] w1] eqn:Es; [|discriminate].
      apply telegram_send_returns in Es as ->. intros H.
      pose proof (tame_process_entries en name inc exc es
                    (FeedState ({[make_entry_key e]} ∪ seen_hashes st)
                               (new_hashes st ++ [make_entry_key e]) (S (sent st)))
                    (World (disk w) (log w ++ [Posted (request_for en (message_for name e)) true])))
        as (_ & evs & Hl & _).
      rewrite H in Hl. cbn [snd log] in Hl.
      exists ([Posted (request_for en (message_for name e)) true] ++ evs), (request_for en (message_for name e)).
      split; [rewrite Hl; now rewrite <- app_assoc|].
      apply elem_of_app. left. apply elem_of_cons. now left.
Qed.

(** A well-formed feed whose entries all pass, one of them not stored: a
    run that returns has posted a message. *)
Lemma unseen_passing_is_posted f w c w1 :
  is_empty (feed_url f) = false ->
  bozo (feedparser_parse en (feed_url f)) = false ->
  (forall e, e ∈ considered f (feedparser_parse en (feed_url f)) ->
             passes_filters (entry_title e) (entry_summary e)
                            (f_include_any f) (f_exclude_any f) = true) ->
  ~ feed_ids en f ⊆ stored (disk w) (feed_url f) ->
  script en [f] w = (Return c, w1) ->
  exists r, Posted r true ∈ log w1.
Proof.
  intros Hu Hb Hpass Hn H.
  apply script_returns in H as (_ & st & wp & E & _ & Hl); [|discriminate].
  rewrite process_feeds_single, process_feed_wellformed in E by assumption.
  destruct (process_entries _ _ _ _ _ _ _) as [[r|x] w2] eqn:Ee; [|discriminate].
  injection E as _ <-.
  apply process_entries_posts in Ee as (evs & r0 & Hle & Hin).
  - exists r0. rewrite Hl, Hle. cbn [log].
    apply elem_of_app. left. apply elem_of_app. now right.
  - exact Hpass.
  - unfold feed_ids in Hn. rewrite Hu, Hb in Hn.
    apply (not_set_Forall_Exists (fun x => x ∈ stored (disk w) (feed_url f))) in Hn
      as (k & Hk & Hnk).
    apply elem_of_list_to_set, list_elem_of_fmap in Hk as (e & -> & He).
    exists e. split; [exact He | exact Hnk].
Qed.

(** *** Runs without credentials *)

(** Without credentials the first entry that is not stored ends the loop,
    when the entries pass the filter: nothing was done before it. *)
Lemma process_entries_missing name inc exc es st w :
  missing_credentials en = true ->
  (forall e, e ∈ es -> passes_filters (entry_title e) (entry_summary e) inc exc = true) ->
  (exists e, e ∈ es /\ make_entry_key e ∉ seen_hashes st) ->
  process_entries en name inc exc es st w = (Raise MissingCredentials, w).
Proof.
  intros Hm. induction es as [|e es IH]; intros Hpass [e0 [He0 Hout]].
  - now apply elem_of_nil in He0.
  - cbn [process_entries]. rewrite bind_run.
    destruct (decide (make_entry_key e ∈ seen_hashes st)) as [Hin|Hnew].
    + rewrite process_entry_seen by exact Hin. apply IH.
      * intros e' He'. apply Hpass, elem_of_cons. now right.
      * exists e0. split; [|exact Hout].
        apply elem_of_cons in He0 as [-> | He0]; [contradiction | exact He0].
    + rewrite process_entry_passing; [|exact Hnew | apply Hpass, elem_of_cons; now left].
      now rewrite telegram_send_missing.
Qed.

Lemma script_missing_credentials f rest w :
  missing_credentials en = true ->
  is_empty (feed_url f) = false ->
  bozo (feedparser_parse en (feed_url f)) = false ->
  (forall e, e ∈ considered f (feedparser_parse en (feed_url f)) ->
             passes_filters (entry_title e) (entry_summary e)
                            (f_include_any f) (f_exclude_any f) = true) ->
  (exists e, e ∈ considered f (feedparser_parse en (feed_url f)) /\
             make_entry_key e ∉ stored (disk w) (feed_url f)) ->
  script en (f :: rest) w =
    (Raise MissingCredentials,
     World (disk w) (log w ++ [Fetched (feed_url f); ErrorPrinted MissingCredentials])).
Proof.
  intros Hm Hu Hb Hpass Hnew. rewrite script_run, main_feeds by discriminate.
  cbn [process_feeds]. rewrite bind_run, process_feed_wellformed by assumption.
  rewrite process_entries_missing by assumption. cbn [disk log].
  now rewrite <- app_assoc.
Qed.

(** *** Runs that cannot fail *)

(** The credentials are there and the transport accepts every call. *)
Definition reliable : Prop :=
  missing_credentials en = false /\ forall l r, post_ok en l r = true.

Definition returns {A : Type} (m : M A) : Prop := forall w, exists a w', m w = (Return a, w').

Lemma returns_ret {A : Type} (a : A) : returns (mret a).
Proof. intros w. now exists a, w. Qed.

Lemma returns_bind {A B : Type} (m : M A) (k : A -> M B) :
  returns m -> (forall a, returns (k a)) -> returns (m ≫= k).
Proof.
  intros Hm Hk w. rewrite bind_run. destruct (Hm w) as (a & w1 & ->). apply Hk.
Qed.

Lemma returns_emit ev : returns (emit ev).
Proof. intros w. eexists _, _. reflexivity. Qed.

Lemma returns_telegram_send text : reliable -> returns (telegram_send en text).
Proof.
  intros [Hm Hp] w. rewrite telegram_send_present by exact Hm. rewrite Hp.
  eexists _, _. reflexivity.
Qed.

Lemma returns_process_entries name inc exc es st :
  reliable -> returns (process_entries en name inc exc es st).
Proof.
  intros Hr. revert st. induction es as [|e es IH]; intros st; cbn [process_entries].
  - apply returns_ret.
  - apply returns_bind; [|exact IH].
    unfold process_entry. case_decide; [apply returns_ret|].
    apply returns_bind; [|intros; apply returns_ret].
    destruct (passes_filters _ _ _ _); [|apply returns_ret].
    apply returns_bind; [now apply returns_telegram_send | intros; apply returns_ret].
Qed.

Lemma returns_process_feeds feeds st : reliable -> returns (process_feeds en feeds st).
Proof.
  intros Hr. revert st. induction feeds as [|f feeds IH]; intros st; cbn [process_feeds].
  - apply returns_ret.
  - apply returns_bind; [|exact IH].
    unfold process_feed. destruct (is_empty (feed_url f)); [apply returns_ret|].
    apply returns_bind.
    { unfold fetch. apply returns_bind; [apply returns_emit | intros; apply returns_ret]. }
    intros p. destruct (bozo p).
    + apply returns_bind; [apply returns_emit | intros; apply returns_ret].
    + apply returns_bind; [now apply returns_process_entries|].
      intros r. destruct (new_hashes r); apply returns_ret.
Qed.

Lemma script_reliable (feeds : list feed) w :
  reliable -> feeds <> [] -> exists w1, script en feeds w = (Return 0%Z, w1).
Proof.
  intros Hr Hne. rewrite script_run, main_feeds by exact Hne.
  destruct (returns_process_feeds feeds (RunState (disk w) false 0) Hr w) as (st & wp & ->).
  destruct (changed st); eexists; reflexivity.
Qed.

End repeated_runs.

(* ===================================================================== *)
(** ** Example configurations *)
(* ===================================================================== *)

(** An entry with a numbered [id] and a title. *)
Definition numbered_entry (title : string) (i : nat) : entry :=
  <[ "id" := VStr (of_Z (Z.of_nat i)) ]> {[ "title" := VStr title ]}.

Definition numbered_entries (n : nat) (title : string) : list entry :=
  numbered_entry title <$> seq 0 n.

Definition demo_environ : gmap string string :=
  <[ "TELEGRAM_BOT_TOKEN" := "token" ]> {[ "TELEGRAM_CHAT_ID" := "42" ]}.

(** Credentials are set, the feed transport returns the given entries, the
    delivery transport accepts every call, and a set is iterated in the
    order of its elements in the model. *)
Definition demo_env (es : list entry) : env :=
  Env demo_environ (fun _ => Parsed false es) (fun _ _ => true) elements.

(** The same with a feed transport that flags every result as malformed. *)
Definition broken_env : env :=
  Env demo_environ (fun _ => Parsed true []) (fun _ _ => true) elements.

Definition demo_url : string := "https://example.org/feed".

Definition demo_feed (exclude_any : option (list string)) : feed :=
  Feed (Some "Weather") (Some demo_url) None exclude_any (Some 500%Z).

(** 401 entries, one more than the trim keeps. *)
Definition storm_entries : list entry := numbered_entries 401 "Storm warning".

(** Two entries, the second of which a filter on "spam" keeps out. *)
Definition small_entries : list entry :=
  [numbered_entry "Storm warning" 1; numbered_entry "Spam offer" 2].

Fixpoint all_distinct (l : list string) : bool :=
  match l with
  | [] => true
  | x :: r => forallb (fun y => negb (String.eqb x y)) r && all_distinct r
  end.

Section examples.

Lemma all_distinct_NoDup (l : list string) : all_distinct l = true -> NoDup l.
Proof.
  induction l as [|x l IH]; [constructor|].
  cbn [all_distinct]. rewrite andb_true_iff, forallb_forall. intros [Hx Hl].
  constructor; [|now apply IH].
  intros Hin. apply list_elem_of_In, Hx in Hin.
  now rewrite String.eqb_refl in Hin.
Qed.

Lemma demo_order_ok (p : string -> parsed) (ok : list event -> request -> bool) :
  order_ok (Env demo_environ p ok elements).
Proof.
  intros X. split; [apply NoDup_elements | intros x; apply elem_of_elements].
Qed.

Lemma demo_reliable (es : list entry) : reliable (demo_env es).
Proof. split; [vm_compute; reflexivity | reflexivity]. Qed.

Lemma demo_feed_url exc : feed_url (demo_feed exc) = demo_url.
Proof. vm_compute. reflexivity. Qed.

Lemma demo_considered es exc :
  length es <= 500 ->
  considered (demo_feed exc) (feedparser_parse (demo_env es) (feed_url (demo_feed exc))) = es.
Proof.
  intros H. unfold considered, slice_to. cbn [f_max_items demo_feed from_option id].
  cbn [feedparser_parse demo_env entries]. change (0 <=? 500)%Z with true. cbn match.
  apply take_ge. change (Z.to_nat 500) with 500. exact H.
Qed.

Lemma demo_feed_ids es exc :
  length es <= 500 ->
  feed_ids (demo_env es) (demo_feed exc) = list_to_set (make_entry_key <$> es).
Proof.
  intros H. unfold feed_ids. rewrite (demo_considered es exc H).
  now rewrite demo_feed_url.
Qed.

Lemma storm_entries_length : length storm_entries = 401.
Proof. unfold storm_entries, numbered_entries. now rewrite length_fmap, length_seq. Qed.

(** The identities of the 401 entries are 401 different strings. *)
Lemma storm_keys_distinct : all_distinct (make_entry_key <$> storm_entries) = true.
Proof. vm_compute. reflexivity. Qed.

Lemma storm_feed_ids_size exc : size (feed_ids (demo_env storm_entries) (demo_feed exc)) = 401.
Proof.
  rewrite demo_feed_ids by (rewrite storm_entries_length; lia).
  rewrite size_list_to_set by apply all_distinct_NoDup, storm_keys_distinct.
  now rewrite length_fmap, storm_entries_length.
Qed.

Lemma numbered_entry_title title i :
  entry_title (numbered_entry title i) = strip (str (or_empty (VStr title))).
Proof.
  unfold entry_title, get, numbered_entry.
  now rewrite lookup_insert_ne, lookup_singleton_eq by discriminate.
Qed.

Lemma numbered_entry_summary title i : entry_summary (numbered_entry title i) = "".
Proof.
  unfold entry_summary, get, numbered_entry.
  rewrite !lookup_insert_ne, !lookup_singleton_ne by discriminate. reflexivity.
Qed.

Lemma posted_is_delivered (l : list event) (r : request) :
  Posted r true ∈ l -> delivered l <> [].
Proof.
  intros H Hd. assert (Hr : r ∈ delivered l).
  { apply list_elem_of_omap. now exists (Posted r true). }
  rewrite Hd in Hr. now apply elem_of_nil in Hr.
Qed.

(** After a first run over the 401 entries, starting with no state, one of
    their identities is not stored. *)
Lemma storm_overflow exc w1 c :
  script (demo_env storm_entries) [demo_feed exc] (World ∅ []) = (Return c, w1) ->
  ~ feed_ids (demo_env storm_entries) (demo_feed exc)
      ⊆ stored (disk w1) (feed_url (demo_feed exc)).
Proof.
  intros H Hsub. apply subseteq_size in Hsub. rewrite storm_feed_ids_size in Hsub.
  assert (Hw : forall u l, disk (World ∅ []) !! u = Some l -> length l <= 400).
  { intros u l Hl. cbn [disk] in Hl. now rewrite lookup_empty in Hl. }
  pose proof (stored_after_run_small _ _ _ _ _ Hw H (feed_url (demo_feed exc))).
  lia.
Qed.

End examples.

(* ===================================================================== *)
(** * The properties the specification states *)
(* ===================================================================== *)

(** C1 (the script departs from it). The joined text of the six fields
    always holds the five separators, so it is never empty and every entry
    is hashed from it: the serialization of the whole entry is never used.
    For two entries whose six identity fields are all empty and whose content
    differs, the serializations differ, so the fallback would tell them
    apart, but both are hashed from the ten separator characters and get one
    identity. *)
Theorem empty_identity_fields_share_one_key :
  (forall e : entry, hash_input e = strip (join "||" (identity_parts e))) /\
  let e1 : entry := {[ "summary" := VStr "first report" ]} in
  let e2 : entry := {[ "summary" := VStr "second report" ]} in
  identity_parts e1 = [""; ""; ""; ""; ""; ""] /\
  identity_parts e2 = [""; ""; ""; ""; ""; ""] /\
  prefix 500 (json_dumps e1) <> prefix 500 (json_dumps e2) /\
  hash_input e1 = "||||||||||" /\
  hash_input e2 = "||||||||||" /\
  make_entry_key e1 = make_entry_key e2.
Proof.
  split; [exact hash_input_joined|].
  cbv zeta. repeat split; try (vm_compute; reflexivity).
  vm_compute. discriminate.
Qed.

(** C2, as stated, fails: a field that holds the separator. The entries
    (id = "a||", guid = "b") and (id = "a", guid = "||b") differ in two
    fields and have the same identity. *)
Lemma separator_in_field_collides :
  identity_parts (<[ "id" := VStr "a||" ]> {[ "guid" := VStr "b" ]})
    <> identity_parts (<[ "id" := VStr "a" ]> {[ "guid" := VStr "||b" ]})
  /\ make_entry_key (<[ "id" := VStr "a||" ]> {[ "guid" := VStr "b" ]})
     = make_entry_key (<[ "id" := VStr "a" ]> {[ "guid" := VStr "||b" ]}).
Proof.
  split; [vm_compute; discriminate | vm_compute; reflexivity].
Qed.

(** C2, amended. Entries with the same six fields have the same identity.
    Entries whose six fields differ are hashed from different texts, provided
    that in both the first five fields hold no two bars in a row and do not
    end with a bar, [id] does not start and [updated] does not end with
    whitespace (any character that [strip] removes). *)
Theorem identity_determined_by_separated_fields (e1 e2 : entry) :
  (identity_parts e1 = identity_parts e2 -> make_entry_key e1 = make_entry_key e2) /\
  (well_separated (identity_parts e1) = true ->
   well_separated (identity_parts e2) = true ->
   identity_parts e1 <> identity_parts e2 ->
   hash_input e1 <> hash_input e2).
Proof.
  split; [apply make_entry_key_agree|].
  intros H1 H2 Hne Heq. apply Hne.
  rewrite !hash_input_joined in Heq. unfold joined_parts in Heq.
  now apply well_separated_injective.
Qed.

(** C2, an instance: two entries with different ids and a title that holds
    a single bar are hashed from different texts. *)
Lemma identity_determined_by_separated_fields_witness :
  hash_input (<[ "id" := VStr "tag:example.org,2024:1" ]> {[ "title" := VStr "Rain | Wind" ]})
  <> hash_input (<[ "id" := VStr "tag:example.org,2024:2" ]> {[ "title" := VStr "Rain | Wind" ]}).
Proof.
  apply (proj2 (identity_determined_by_separated_fields
                  (<[ "id" := VStr "tag:example.org,2024:1" ]> {[ "title" := VStr "Rain | Wind" ]})
                  (<[ "id" := VStr "tag:example.org,2024:2" ]> {[ "title" := VStr "Rain | Wind" ]}))).
  - vm_compute. reflexivity.
  - vm_compute. reflexivity.
  - vm_compute. discriminate.
Defined.

(** C3. The haystack is the normal form of the title, a blank and the
    normal form of the summary; a keyword matches when its normal form is
    not empty and occurs in the haystack. [passes_filters] is [False] when a
    keyword of [exclude_any] matches; otherwise it is [True] when
    [include_any] is empty, and else it is [True] exactly when a keyword of
    [include_any] matches. A normal form holds no character that [lower]
    would change and no whitespace but single blanks between other
    characters, and a text of that form is its own normal form; whitespace
    and case are those of Unicode. *)
Theorem passes_filters_decides (title summary : string)
    (include_any exclude_any : option (list string)) :
  let hay := norm title +:+ " " +:+ norm summary in
  let matches kw := norm kw <> "" /\ occurs_in (norm kw) hay in
  let excluded := exists kw, kw ∈ default [] exclude_any /\ matches kw in
  let included := exists kw, kw ∈ default [] include_any /\ matches kw in
  (excluded -> passes_filters title summary include_any exclude_any = false) /\
  (~ excluded -> default [] include_any = [] ->
   passes_filters title summary include_any exclude_any = true) /\
  (~ excluded -> default [] include_any <> [] ->
   (passes_filters title summary include_any exclude_any = true <-> included)) /\
  (forall s,
     no_upper (norm s) = true /\ single_blanks false (norm s) = true /\
     no_space_first (norm s) = true /\ no_space_last (norm s) = true) /\
  (forall s,
     no_upper s = true -> single_blanks false s = true ->
     no_space_first s = true -> no_space_last s = true -> norm s = s) /\
  passes_filters "Breaking: Outage" "" (Some []) (Some ["outage"]) = false /\
  passes_filters ("ÄRGER  im" +:+ utf8 0xa0 +:+ "Büro") "" None (Some ["ärger IM büro"]) = false.
Proof.
  cbv zeta. fold (haystack title summary).
  split; [|split; [|split; [|split; [|split; [|split]]]]].
  - intros H. unfold passes_filters. apply (exclude_hit_spec (haystack title summary)) in H.
    now rewrite H.
  - intros Hn Hi. unfold passes_filters. rewrite Hi.
    destruct (exclude_hit _ _) eqn:E; [|reflexivity].
    apply exclude_hit_spec in E. contradiction.
  - intros Hn Hi. unfold passes_filters.
    destruct (exclude_hit _ _) eqn:E.
    { apply exclude_hit_spec in E. contradiction. }
    destruct (default [] include_any) as [|kw l] eqn:Ei; [congruence|].
    apply include_hit_spec.
  - apply norm_tidy.
  - apply norm_fixed.
  - vm_compute. reflexivity.
  - vm_compute. reflexivity.
Qed.

(** C4, as stated, fails: a feed of 401 new entries, all of which pass (no
    filter), no state to begin with. The first run posts them and stores 400
    of the 401 identities, whichever order the set is iterated in; the second
    run over the same entries, started from the stored state, posts again and
    writes the state file again. *)
Lemma second_run_dispatches_again :
  let en := demo_env storm_entries in
  let first := script en [demo_feed None] (World ∅ []) in
  let second := script en [demo_feed None] (World (disk first.2) []) in
  first.1 = Return 0%Z /\
  second.1 = Return 0%Z /\
  delivered (log second.2) <> [] /\
  saves (log second.2) <> [].
Proof.
  cbv zeta.
  destruct (script_reliable (demo_env storm_entries) [demo_feed None] (World ∅ [])
              (demo_reliable _)) as [w1 E1]; [discriminate|].
  rewrite E1. cbn [fst snd].
  destruct (script_reliable (demo_env storm_entries) [demo_feed None] (World (disk w1) [])
              (demo_reliable _)) as [w2 E2]; [discriminate|].
  rewrite E2. cbn [fst snd].
  pose proof (storm_overflow None w1 0%Z E1) as Hn.
  split; [reflexivity|]. split; [reflexivity|]. split.
  - destruct (unseen_passing_is_posted (demo_env storm_entries) (demo_feed None)
                (World (disk w1) []) 0%Z w2) as [r Hr]; try assumption.
    + vm_compute. reflexivity.
    + reflexivity.
    + intros e _. reflexivity.
    + now apply (posted_is_delivered _ r).
  - destruct (unseen_identity_is_saved (demo_env storm_entries) (demo_feed None)
                (World (disk w1) []) 0%Z w2 Hn E2) as (evs & Hl & Hs).
    cbn [log] in Hl. now rewrite Hl.
Qed.

(** C4, amended. Let a first run return (no delivery fails), and let, for
    the URL of every feed, the identities stored before the run together with
    those of the entries the run looks at under that URL be at most 400, so
    that no trim drops one (a set being iterated over each of its elements
    once). Then a second run over the same entries, started from the state
    the first run left, returns with the same status, posts nothing and does
    not write the state file. *)
Theorem second_run_is_silent (en : env) (feeds : list feed) (w w1 w2 : world) (c : Z) :
  order_ok en ->
  Forall (fun f => size (stored (disk w) (feed_url f) ∪ ids_for en feeds (feed_url f)) <= 400)
         feeds ->
  script en feeds w = (Return c, w1) ->
  disk w2 = disk w1 ->
  exists evs,
    script en feeds w2 = (Return c, World (disk w1) (log w2 ++ evs))
    /\ posts evs = [] /\ saves evs = [].
Proof.
  intros Hord Hb H Hd. destruct feeds as [|f feeds].
  - rewrite script_run, main_no_feeds in H. injection H as <- <-.
    rewrite script_run, main_no_feeds. cbn [disk]. rewrite Hd.
    eexists. split; [reflexivity|]. now split.
  - apply script_returns in H as (-> & st & wp & E & Hst & _); [|discriminate].
    pose proof (process_feeds_records en _ _ _ _ _ Hord E Hb) as Hrec.
    cbn [seen_map] in Hrec.
    destruct (process_feeds_silent en (f :: feeds) (RunState (disk w2) false 0) w2)
      as (evs & E2 & Hs).
    { intros g Hg. cbn [seen_map]. rewrite Hd, Hst, Hrec.
      pose proof (feed_ids_in_ids_for en _ _ Hg). set_solver. }
    rewrite script_run, main_feeds, E2 by discriminate. cbn [changed disk log total_sent].
    exists (evs ++ [Printed (done_line 0)]). rewrite Hd, <- app_assoc.
    split; [reflexivity|]. split.
    + rewrite posts_app, (silent_no_posts _ Hs). reflexivity.
    + rewrite saves_app, (silent_no_saves _ Hs). reflexivity.
Qed.

(** C4, an instance: two new entries, one of them filtered out; the second
    run adds nothing to the log but its fetch and its last line. *)
Lemma second_run_is_silent_witness :
  exists evs,
    script (demo_env small_entries) [demo_feed (Some ["spam"])]
           (script (demo_env small_entries) [demo_feed (Some ["spam"])] (World ∅ [])).2
    = (Return 0%Z,
       World (disk (script (demo_env small_entries) [demo_feed (Some ["spam"])] (World ∅ [])).2)
             (log (script (demo_env small_entries) [demo_feed (Some ["spam"])] (World ∅ [])).2
              ++ evs))
    /\ posts evs = [] /\ saves evs = [].
Proof.
  apply (second_run_is_silent (demo_env small_entries) [demo_feed (Some ["spam"])]
           (World ∅ [])).
  - apply demo_order_ok.
  - apply Forall_cons. split; [|now apply Forall_nil].
    assert (Hsize : size (stored (disk (World ∅ [])) (feed_url (demo_feed (Some ["spam"])))
                          ∪ ids_for (demo_env small_entries) [demo_feed (Some ["spam"])]
                              (feed_url (demo_feed (Some ["spam"])))) = 2)
      by (vm_compute; reflexivity).
    rewrite Hsize. lia.
  - vm_compute. reflexivity.
  - reflexivity.
Defined.

(** C5. After the trim at the end of a feed the list stored for the feed has
    at most 400 identities: a feed leaves the mapping as it was (nothing was
    added, no trim), or it replaces the list of its URL by one of at most 400
    elements and sets [changed]; and whatever a run writes to the state file,
    each list in the file is the one from before the run or has at most 400
    elements. *)
Theorem trimmed_seen_list_bounded (en : env) :
  (forall f st w st' w',
     process_feed en f st w = (Return st', w') ->
     seen_map st' = seen_map st \/
     exists l, seen_map st' = <[ feed_url f := l ]> (seen_map st)
               /\ length l <= 400 /\ changed st' = true) /\
  (forall feeds w u l,
     disk (script en feeds w).2 !! u = Some l ->
     disk w !! u = Some l \/ length l <= 400).
Proof.
  split.
  - intros f st w st' w' H.
    apply process_feed_returns in H as [(Hm & _ & _) | [Hm Hc]]; [now left|].
    right. eexists. split; [exact Hm|]. split; [apply slice_last_length | exact Hc].
  - intros feeds w u l. rewrite script_run.
    destruct feeds as [|f feeds]; [rewrite main_no_feeds; cbn; now left|].
    rewrite main_feeds by discriminate.
    pose proof (tame_process_feeds en (f :: feeds) (RunState (disk w) false 0) w) as [Hd _].
    destruct (process_feeds en (f :: feeds) _ w) as [[st|x] w1] eqn:E; cbn [snd] in *.
    + destruct (changed st); cbn [disk]; [|rewrite Hd; now left].
      intros Hl. apply (process_feeds_bounded _ _ _ _ _ _ E u l Hl).
    + cbn [disk]. rewrite Hd. now left.
Qed.

(** C6, as stated, fails: the feed of 401 new entries with a filter that
    keeps every one of them out. The first run returns and has recorded all
    401 identities in its seen set, but the trim stores 400 of them: one of
    the filtered entries is not in the stored state, and the second run over
    the same entries finds it unseen, puts it to the filter again and writes
    the state file again. *)
Lemma filtered_entry_is_looked_at_again :
  let en := demo_env storm_entries in
  let f := demo_feed (Some ["storm"]) in
  let first := script en [f] (World ∅ []) in
  let second := script en [f] (World (disk first.2) []) in
  (forall e, e ∈ storm_entries ->
     passes_filters (entry_title e) (entry_summary e) None (Some ["storm"]) = false) /\
  first.1 = Return 0%Z /\
  (exists e, e ∈ storm_entries /\ make_entry_key e ∉ stored (disk first.2) (feed_url f)) /\
  second.1 = Return 0%Z /\
  saves (log second.2) <> [].
Proof.
  cbv zeta.
  destruct (script_reliable (demo_env storm_entries) [demo_feed (Some ["storm"])] (World ∅ [])
              (demo_reliable _)) as [w1 E1]; [discriminate|].
  rewrite E1. cbn [fst snd].
  destruct (script_reliable (demo_env storm_entries) [demo_feed (Some ["storm"])]
              (World (disk w1) []) (demo_reliable _)) as [w2 E2]; [discriminate|].
  rewrite E2. cbn [fst snd].
  pose proof (storm_overflow (Some ["storm"]) w1 0%Z E1) as Hn.
  split; [|split; [reflexivity|split; [|split; [reflexivity|]]]].
  - intros e He. unfold storm_entries, numbered_entries in He.
    apply list_elem_of_fmap in He as (i & -> & _).
    rewrite numbered_entry_title, numbered_entry_summary. vm_compute. reflexivity.
  - rewrite demo_feed_ids in Hn by (rewrite storm_entries_length; lia).
    apply (not_set_Forall_Exists
             (fun x => x ∈ stored (disk w1) (feed_url (demo_feed (Some ["storm"]))))) in Hn
      as (k & Hk & Hnk).
    apply elem_of_list_to_set, list_elem_of_fmap in Hk as (e & -> & He).
    exists e. split; [exact He | exact Hnk].
  - destruct (unseen_identity_is_saved (demo_env storm_entries) (demo_feed (Some ["storm"]))
                (World (disk w1) []) 0%Z w2 Hn E2) as (evs & Hl & Hs).
    cbn [log] in Hl. now rewrite Hl.
Qed.

(** C6, amended. An entry that is not seen yet and whose delivery, if it has
    one, succeeds is added to the seen set of the loop whether or not it
    passes the filter; one that fails the filter is added without any effect
    on the world. An entry whose identity is in the seen set is passed over,
    whatever the filter lists are. After a run that returns (no delivery
    fails), provided that for the URL of every feed the identities stored
    before together with those the run looks at are at most 400, so that no
    trim drops one, the identity of every entry the run looked at is in the
    stored state: the next run starts the feed's loop with it in the seen
    set. *)
Theorem filtered_entry_stays_seen (en : env) :
  (forall name inc exc e st w st' w',
     process_entry en name inc exc e st w = (Return st', w') ->
     make_entry_key e ∈ seen_hashes st') /\
  (forall name inc exc e st w,
     make_entry_key e ∉ seen_hashes st ->
     passes_filters (entry_title e) (entry_summary e) inc exc = false ->
     process_entry en name inc exc e st w =
       (Return (FeedState ({[make_entry_key e]} ∪ seen_hashes st)
                          (new_hashes st ++ [make_entry_key e]) (sent st)), w)) /\
  (forall name inc exc e st w,
     make_entry_key e ∈ seen_hashes st ->
     process_entry en name inc exc e st w = (Return st, w)) /\
  (forall feeds w c w1,
     order_ok en ->
     Forall (fun f => size (stored (disk w) (feed_url f) ∪ ids_for en feeds (feed_url f)) <= 400)
            feeds ->
     script en feeds w = (Return c, w1) ->
     forall f e,
       f ∈ feeds ->
       is_empty (feed_url f) = false ->
       bozo (feedparser_parse en (feed_url f)) = false ->
       e ∈ considered f (feedparser_parse en (feed_url f)) ->
       make_entry_key e ∈ stored (disk w1) (feed_url f)).
Proof.
  split; [|split; [|split]].
  - intros name inc exc e st w st' w' H.
    apply process_entry_returns in H as [[Hin ->] | (_ & -> & _)]; [exact Hin | set_solver].
  - intros. now apply process_entry_filtered.
  - intros. now apply process_entry_seen.
  - intros feeds w c w1 Hord Hb H f e Hf Hu Hbz He.
    assert (Hne : feeds <> []) by (intros ->; now apply elem_of_nil in Hf).
    apply script_returns in H as (_ & st & wp & E & Hst & _); [|exact Hne].
    pose proof (process_feeds_records en _ _ _ _ _ Hord E Hb (feed_url f)) as Hrec.
    cbn [seen_map] in Hrec. rewrite Hst, Hrec.
    apply elem_of_union. right. apply (feed_ids_in_ids_for en _ _ Hf).
    unfold feed_ids. rewrite Hu, Hbz.
    apply elem_of_list_to_set, list_elem_of_fmap. now exists e.
Qed.

(** C6, an instance: the entry that the filter on "spam" keeps out is in
    the state the run stores. *)
Lemma filtered_entry_stays_seen_witness :
  make_entry_key (numbered_entry "Spam offer" 2)
  ∈ stored (disk (script (demo_env small_entries) [demo_feed (Some ["spam"])] (World ∅ [])).2)
           (feed_url (demo_feed (Some ["spam"]))).
Proof.
  apply (proj2 (proj2 (proj2 (filtered_entry_stays_seen (demo_env small_entries))))
           [demo_feed (Some ["spam"])] (World ∅ []) 0%Z
           (script (demo_env small_entries) [demo_feed (Some ["spam"])] (World ∅ [])).2).
  - apply demo_order_ok.
  - apply Forall_cons. split; [|now apply Forall_nil].
    assert (Hsize : size (stored (disk (World ∅ [])) (feed_url (demo_feed (Some ["spam"])))
                          ∪ ids_for (demo_env small_entries) [demo_feed (Some ["spam"])]
                              (feed_url (demo_feed (Some ["spam"])))) = 2)
      by (vm_compute; reflexivity).
    rewrite Hsize. lia.
  - vm_compute. reflexivity.
  - apply elem_of_cons. now left.
  - vm_compute. reflexivity.
  - reflexivity.
  - rewrite demo_considered by (cbn; lia). apply elem_of_cons. right. apply elem_of_cons. now left.
Defined.

(** C7. A delivery that fails ends the run at once. Without credentials
    [telegram_send] raises and leaves the world as it is (no call is made);
    a refused call raises. An entry that is not stored and passes the filter
    is handed to [telegram_send], and an exception of that call is the
    result of the entry, unchanged; an exception of an entry, of the entries
    of a feed or of a feed is the result of the loop around it, whatever
    entries and feeds follow. So a run without credentials whose first feed
    holds an entry to send ends with the exception right after the fetch,
    whatever feeds follow. A run that ends with an exception has not written
    the state file, and its last event before the error message is the
    refused call (or, without credentials, it has made no call at all); a
    run that returns has no refused call behind it. *)
Theorem delivery_failure_aborts_run (en : env) :
  (forall text w,
     missing_credentials en = true ->
     telegram_send en text w = (Raise MissingCredentials, w)) /\
  (forall text w,
     missing_credentials en = false ->
     post_ok en (log w) (request_for en text) = false ->
     telegram_send en text w =
       (Raise DeliveryFailed,
        World (disk w) (log w ++ [Posted (request_for en text) false]))) /\
  (forall name inc exc e st w x w',
     make_entry_key e ∉ seen_hashes st ->
     passes_filters (entry_title e) (entry_summary e) inc exc = true ->
     telegram_send en (message_for name e) w = (Raise x, w') ->
     process_entry en name inc exc e st w = (Raise x, w')) /\
  (forall name inc exc e rest st w x w',
     process_entry en name inc exc e st w = (Raise x, w') ->
     process_entries en name inc exc (e :: rest) st w = (Raise x, w')) /\
  (forall f st w x w',
     is_empty (feed_url f) = false ->
     bozo (feedparser_parse en (feed_url f)) = false ->
     process_entries en (default "Feed" (f_name f)) (f_include_any f) (f_exclude_any f)
       (considered f (feedparser_parse en (feed_url f))) (feed_start f st)
       (World (disk w) (log w ++ [Fetched (feed_url f)])) = (Raise x, w') ->
     process_feed en f st w = (Raise x, w')) /\
  (forall f rest st w x w',
     process_feed en f st w = (Raise x, w') ->
     process_feeds en (f :: rest) st w = (Raise x, w')) /\
  (forall f rest w,
     missing_credentials en = true ->
     is_empty (feed_url f) = false ->
     bozo (feedparser_parse en (feed_url f)) = false ->
     (forall e, e ∈ considered f (feedparser_parse en (feed_url f)) ->
                passes_filters (entry_title e) (entry_summary e)
                               (f_include_any f) (f_exclude_any f) = true) ->
     (exists e, e ∈ considered f (feedparser_parse en (feed_url f)) /\
                make_entry_key e ∉ stored (disk w) (feed_url f)) ->
     script en (f :: rest) w =
       (Raise MissingCredentials,
        World (disk w) (log w ++ [Fetched (feed_url f); ErrorPrinted MissingCredentials]))) /\
  (forall feeds w x w',
     script en feeds w = (Raise x, w') ->
     disk w' = disk w /\
     exists evs,
       log w' = log w ++ evs ++ [ErrorPrinted x] /\
       saves evs = [] /\
       match x with
       | MissingCredentials => missing_credentials en = true /\ posts evs = []
       | DeliveryFailed => exists evs0 r, evs = evs0 ++ [Posted r false] /\ Forall (calm) evs0
       end) /\
  (forall feeds w c w',
     script en feeds w = (Return c, w') ->
     exists evs,
       log w' = log w ++ evs /\
       (forall r, Posted r false ∉ evs) /\
       (missing_credentials en = true -> posts evs = [])).
Proof.
  split; [intros; now apply telegram_send_missing|].
  split.
  { intros text w Hm Hp. rewrite telegram_send_present by exact Hm. now rewrite Hp. }
  split.
  { intros name inc exc e st w x w' Hk Hp H. rewrite process_entry_passing by assumption.
    now rewrite H. }
  split.
  { intros name inc exc e rest st w x w' H. cbn [process_entries]. now rewrite bind_run, H. }
  split.
  { intros f st w x w' Hu Hb H. rewrite process_feed_wellformed by assumption. now rewrite H. }
  split.
  { intros f rest st w x w' H. cbn [process_feeds]. now rewrite bind_run, H. }
  split; [intros; now apply script_missing_credentials|].
  split.
  - intros feeds w x w'. rewrite script_run.
    destruct feeds as [|f feeds]; [rewrite main_no_feeds; discriminate|].
    rewrite main_feeds by discriminate.
    pose proof (tame_process_feeds en (f :: feeds) (RunState (disk w) false 0) w)
      as (Hd & evs & Hl & He).
    destruct (process_feeds en (f :: feeds) _ w) as [[st|y] w1];
      [destruct (changed st); discriminate|].
    intros [= <- <-]. cbn [fst snd disk log] in *. split; [exact Hd|].
    exists evs. split; [rewrite Hl; now rewrite app_assoc|].
    destruct y; cbn [effect_of] in He.
    + destruct He as (Hm & Hc & Hp). split; [now apply calm_no_saves | now split].
    + destruct He as (Hm & evs0 & r & -> & Hc). split.
      * rewrite saves_app, (calm_no_saves _ Hc). reflexivity.
      * now exists evs0, r.
  - intros feeds w c w'. rewrite script_run.
    assert (Hcalm : forall evs, Forall calm evs -> forall r, Posted r false ∉ evs).
    { intros evs Hc r Hin. rewrite Forall_forall in Hc. now apply Hc in Hin. }
    destruct feeds as [|f feeds].
    { rewrite main_no_feeds. intros [= <- <-]. eexists. split; [reflexivity|].
      split; [|reflexivity]. intros r Hin.
      apply elem_of_cons in Hin as [Hin|Hin]; [discriminate | now apply elem_of_nil in Hin]. }
    rewrite main_feeds by discriminate.
    pose proof (tame_process_feeds en (f :: feeds) (RunState (disk w) false 0) w)
      as (Hd & evs & Hl & He).
    destruct (process_feeds en (f :: feeds) _ w) as [[st|y] w1]; [|discriminate].
    cbn [fst snd effect_of] in *. destruct He as [Hc Hp].
    destruct (changed st); intros [= <- <-]; cbn [log]; rewrite Hl, <- app_assoc;
      eexists; (split; [reflexivity|]); split.
    + intros r Hin. apply elem_of_app in Hin as [Hin|Hin]; [now apply (Hcalm evs Hc r)|].
      repeat (apply elem_of_cons in Hin as [Hin|Hin]; [discriminate|]).
      now apply elem_of_nil in Hin.
    + intros Hm. rewrite posts_app, (Hp Hm). reflexivity.
    + intros r Hin. apply elem_of_app in Hin as [Hin|Hin]; [now apply (Hcalm evs Hc r)|].
      repeat (apply elem_of_cons in Hin as [Hin|Hin]; [discriminate|]).
      now apply elem_of_nil in Hin.
    + intros Hm. rewrite posts_app, (Hp Hm). reflexivity.
Qed.

(** C7, an instance: no credentials in the environment, two entries to send,
    two feeds. The run ends right after the first fetch. *)
Lemma delivery_failure_aborts_run_witness :
  script (Env ∅ (fun _ => Parsed false small_entries) (fun _ _ => true) elements)
         [demo_feed None; demo_feed None] (World ∅ [])
  = (Raise MissingCredentials,
     World ∅ ([] ++ [Fetched (feed_url (demo_feed None)); ErrorPrinted MissingCredentials])).
Proof.
  destruct (delivery_failure_aborts_run
              (Env ∅ (fun _ => Parsed false small_entries) (fun _ _ => true) elements))
    as (_ & _ & _ & _ & _ & _ & H & _).
  apply (H (demo_feed None) [demo_feed None] (World ∅ [])).
  - vm_compute. reflexivity.
  - vm_compute. reflexivity.
  - reflexivity.
  - intros e _. reflexivity.
  - exists (numbered_entry "Storm warning" 1). split.
    + change (considered _ _) with small_entries. apply elem_of_cons. now left.
    + unfold stored. cbn [disk]. rewrite lookup_empty. apply not_elem_of_empty.
Defined.

(** C8. A feed whose fetch is flagged malformed: the run prints the warning,
    posts nothing, leaves the stored identities, the [changed] flag and the
    count of sent messages as they were, and goes on with the next feed. *)
Theorem malformed_feed_is_skipped (en : env) (f : feed) (rest : list feed)
    (st : run_state) (w : world) :
  is_empty (feed_url f) = false ->
  bozo (feedparser_parse en (feed_url f)) = true ->
  let w' := World (disk w)
                  (log w ++ [Fetched (feed_url f);
                             Printed ("Warnung: Feed-Parsing-Problem bei " +:+ feed_url f)]) in
  process_feed en f st w = (Return st, w') /\
  process_feeds en (f :: rest) st w = process_feeds en rest st w'.
Proof.
  intros Hu Hb. cbv zeta. split; [now apply process_feed_malformed|].
  cbn [process_feeds]. rewrite bind_run. now rewrite process_feed_malformed.
Qed.

(** C8, an instance: a feed transport that flags its result, two feeds. *)
Lemma malformed_feed_is_skipped_witness :
  process_feed broken_env (demo_feed None) (RunState ∅ false 0) (World ∅ [])
  = (Return (RunState ∅ false 0),
     World ∅ [Fetched demo_url; Printed "Warnung: Feed-Parsing-Problem bei https://example.org/feed"])
  /\ process_feeds broken_env [demo_feed None; demo_feed None] (RunState ∅ false 0) (World ∅ [])
     = process_feeds broken_env [demo_feed None] (RunState ∅ false 0)
         (World ∅ [Fetched demo_url;
                   Printed "Warnung: Feed-Parsing-Problem bei https://example.org/feed"]).
Proof.
  apply (malformed_feed_is_skipped broken_env (demo_feed None) [demo_feed None]
           (RunState ∅ false 0) (World ∅ [])).
  - vm_compute. reflexivity.
  - vm_compute. reflexivity.
Defined.

(** C9, as stated, fails for the years before 1000: the rendering of a time
    tuple of the year 999 has a year of three digits, not the layout
    [DD.MM.YYYY HH:MM]. *)
Lemma early_year_is_not_padded :
  format_published {[ "published_parsed" := VTuple [999; 1; 2; 3; 4; 5; 2; 2; 0]%Z ]}
    = "02.01.999 03:04"
  /\ String.length
       (format_published {[ "published_parsed" := VTuple [999; 1; 2; 3; 4; 5; 2; 2; 0]%Z ]})
     <> String.length "DD.MM.YYYY HH:MM".
Proof. split; [vm_compute; reflexivity | vm_compute; discriminate]. Qed.

(** C9, amended. [format_published] returns the rendering of
    [published_parsed] when that is a time tuple that renders, else the
    rendering of [updated_parsed] when that one renders. A rendering prints
    the tuple's own day, month, hour and minute with two digits each and the
    year without padding, which is [DD.MM.YYYY HH:MM] from the year 1000 on.
    When neither renders, the result is the string value of [published]
    when the entry has that key, else of [updated] when it has that key,
    else the empty string, [None] and other false values counting as the
    empty string (a [published] that is there but [None] does not let
    [updated] in); of that text the whitespace at the two ends is taken
    away and nothing else. *)
Theorem format_published_prefers_parsed_times (e : entry) :
  let pp := get "published_parsed" VNone e in
  let up := get "updated_parsed" VNone e in
  let renders t := truthy t = true /\ is_Some (render_parsed t) in
  let text := str (or_empty (get "published" (get "updated" (VStr "") e) e)) in
  (forall s, truthy pp = true -> render_parsed pp = Some s -> format_published e = s) /\
  (forall s, ~ renders pp -> truthy up = true -> render_parsed up = Some s ->
             format_published e = s) /\
  (~ renders pp -> ~ renders up ->
     format_published e = strip text /\
     (exists a b, text = a +:+ format_published e +:+ b
                  /\ all_space a = true /\ all_space b = true) /\
     no_space_first (format_published e) = true /\
     no_space_last (format_published e) = true /\
     (no_space_first text = true -> no_space_last text = true -> format_published e = text) /\
     (forall v, e !! "published" = Some v -> text = str (or_empty v)) /\
     (forall s, e !! "published" = Some (VStr s) -> text = s) /\
     (e !! "published" = Some VNone -> text = "" /\ format_published e = "") /\
     (e !! "published" = None ->
        (forall v, e !! "updated" = Some v -> text = str (or_empty v)) /\
        (forall s, e !! "updated" = Some (VStr s) -> text = s) /\
        (e !! "updated" = Some VNone -> text = "" /\ format_published e = "") /\
        (e !! "updated" = None -> text = "" /\ format_published e = ""))) /\
  (forall y m d hh mi ss rest,
     valid_date y m d hh mi ss ->
     render_parsed (VTuple (y :: m :: d :: hh :: mi :: ss :: rest)) =
       Some (two_digits d +:+ "." +:+ two_digits m +:+ "." +:+ plain_digits y +:+ " "
             +:+ two_digits hh +:+ ":" +:+ two_digits mi)) /\
  (forall y, (1000 <= y)%Z -> plain_digits y = four_digits y).
Proof.
  cbv zeta.
  assert (Hstr : forall s, str (or_empty (VStr s)) = s) by (now intros [|c s]).
  assert (Hfall : ~ (truthy (get "published_parsed" VNone e) = true
                      /\ is_Some (render_parsed (get "published_parsed" VNone e))) ->
                  ~ (truthy (get "updated_parsed" VNone e) = true
                      /\ is_Some (render_parsed (get "updated_parsed" VNone e))) ->
                  format_published e =
                    strip (str (or_empty (get "published" (get "updated" (VStr "") e) e)))).
  { intros Hp Hu. unfold format_published. cbn [first_rendered].
    destruct (truthy (get "published_parsed" VNone e)) eqn:Tp;
      [destruct (render_parsed (get "published_parsed" VNone e)) eqn:Rp;
         [exfalso; apply Hp; split; [reflexivity | now eexists]|]|];
      (destruct (truthy (get "updated_parsed" VNone e)) eqn:Tu;
         [destruct (render_parsed (get "updated_parsed" VNone e)) eqn:Ru;
            [exfalso; apply Hu; split; [reflexivity | now eexists]|]|]);
      reflexivity. }
  split; [|split; [|split; [|split]]].
  - intros s Ht Hr. unfold format_published. cbn [first_rendered]. now rewrite Ht, Hr.
  - intros s Hp Ht Hr. unfold format_published. cbn [first_rendered].
    rewrite Ht, Hr.
    destruct (truthy (get "published_parsed" VNone e)) eqn:Tp; [|reflexivity].
    destruct (render_parsed (get "published_parsed" VNone e)) eqn:Rp; [|reflexivity].
    exfalso. apply Hp. split; [reflexivity | now eexists].
  - intros Hp Hu. rewrite (Hfall Hp Hu). clear Hfall Hp Hu.
    set (text := str (or_empty (get "published" (get "updated" (VStr "") e) e))).
    split; [reflexivity|]. split; [apply strip_split|].
    split; [apply strip_trimmed|]. split; [apply strip_trimmed|].
    split; [apply strip_fixed|].
    subst text. unfold get. split; [|split; [|split]].
    + intros v Hv. now rewrite Hv.
    + intros s Hv. rewrite Hv. cbn [from_option id]. apply Hstr.
    + intros Hv. rewrite Hv. split; reflexivity.
    + intros Hn. rewrite Hn. cbn [from_option id]. split; [|split; [|split]].
      * intros v Hv. now rewrite Hv.
      * intros s Hv. rewrite Hv. cbn [from_option id]. apply Hstr.
      * intros Hv. rewrite Hv. split; reflexivity.
      * intros Hv. rewrite Hv. split; reflexivity.
  - intros y m d hh mi ss rest Hv. cbn [render_parsed].
    change (take 6 (y :: m :: d :: hh :: mi :: ss :: rest)) with [y; m; d; hh; mi; ss].
    assert (Hdt : make_datetime [y; m; d; hh; mi; ss] = Some (Datetime y m d hh mi ss)).
    { apply make_datetime_spec. exists y, m, d, [hh; mi; ss].
      split; [reflexivity | split; [reflexivity | exact Hv]]. }
    rewrite Hdt. cbn [fmap option_fmap option_map]. f_equal.
    now rewrite (strftime_layout_plain _ _ Hdt).
  - intros y Hy. unfold plain_digits.
    destruct (Z.ltb_spec y 10); [lia|]. destruct (Z.ltb_spec y 100); [lia|].
    destruct (Z.ltb_spec y 1000); [lia | reflexivity].
Qed.

(** C9, an instance: a time tuple of the year 999. *)
Lemma format_published_prefers_parsed_times_witness :
  render_parsed (VTuple [999; 1; 2; 3; 4; 5; 2; 2; 0]%Z) =
    Some (two_digits 2 +:+ "." +:+ two_digits 1 +:+ "." +:+ plain_digits 999 +:+ " "
          +:+ two_digits 3 +:+ ":" +:+ two_digits 4).
Proof.
  apply (proj1 (proj2 (proj2 (proj2 (format_published_prefers_parsed_times ∅))))).
  unfold valid_date. vm_compute. intuition discriminate.
Defined.

(** C10. For an entry without the key [summary], the summary given to the
    filter is the trimmed [description] (empty when that is absent too): an
    entry that is not stored is sent or kept back as the filter decides on
    its title and that text, and the loop treats the entry as it treats the
    same entry with the description stored under [summary]. The identity
    does not depend on either field. *)
Theorem description_stands_in_for_summary (e : entry) :
  (e !! "summary" = None ->
     let description := strip (str (or_empty (get "description" (VStr "") e))) in
     entry_summary e = description /\
     (e !! "description" = None -> entry_summary e = "") /\
     (forall en name inc exc st w,
        make_entry_key e ∉ seen_hashes st ->
        passes_filters (entry_title e) description inc exc = false ->
        process_entry en name inc exc e st w =
          (Return (FeedState ({[make_entry_key e]} ∪ seen_hashes st)
                             (new_hashes st ++ [make_entry_key e]) (sent st)), w)) /\
     (forall en name inc exc st w,
        make_entry_key e ∉ seen_hashes st ->
        passes_filters (entry_title e) description inc exc = true ->
        process_entry en name inc exc e st w =
          match telegram_send en (message_for name e) w with
          | (Return _, w') =>
              (Return (FeedState ({[make_entry_key e]} ∪ seen_hashes st)
                                 (new_hashes st ++ [make_entry_key e]) (S (sent st))), w')
          | (Raise x, w') => (Raise x, w')
          end) /\
     (forall d en name inc exc st w,
        e !! "description" = Some d ->
        process_entry en name inc exc e st w
        = process_entry en name inc exc (<[ "summary" := d ]> e) st w)) /\
  (forall k v, k = "summary" \/ k = "description" ->
     make_entry_key (<[ k := v ]> e) = make_entry_key e /\
     make_entry_key (delete k e) = make_entry_key e).
Proof.
  split.
  - intros Hs. cbv zeta.
    assert (Hsum : entry_summary e = strip (str (or_empty (get "description" (VStr "") e)))).
    { unfold entry_summary. unfold get at 1. now rewrite Hs. }
    split; [exact Hsum|]. split; [|split; [|split]].
    + intros Hd. rewrite Hsum. unfold get. now rewrite Hd.
    + intros en name inc exc st w Hk Hp. rewrite <- Hsum in Hp.
      now apply process_entry_filtered.
    + intros en name inc exc st w Hk Hp. rewrite <- Hsum in Hp.
      now apply process_entry_passing.
    + intros d en name inc exc st w Hd. apply process_entry_ext.
      * apply make_entry_key_agree, identity_parts_agree. intros k Hk.
        rewrite lookup_insert_ne; [reflexivity|].
        apply (not_identity_key "summary"); [now left | exact Hk].
      * unfold entry_title. now rewrite get_insert_ne.
      * rewrite Hsum. unfold entry_summary, get. rewrite lookup_insert_eq, Hd. reflexivity.
      * unfold entry_link. now rewrite get_insert_ne.
      * unfold format_published.
        rewrite (first_rendered_agree _ e (<[ "summary" := d ]> e)).
        -- now rewrite !get_insert_ne.
        -- intros k Hk. rewrite lookup_insert_ne; [reflexivity|].
           intros <-. repeat (apply elem_of_cons in Hk as [Hk|Hk]; [discriminate|]).
           now apply elem_of_nil in Hk.
  - intros k v Hk. split; apply make_entry_key_agree, identity_parts_agree; intros k' Hk'.
    + apply lookup_insert_ne. now apply not_identity_key.
    + apply lookup_delete_ne. now apply not_identity_key.
Qed.

(** C10, an instance: an entry without a summary whose description holds an
    excluded keyword is kept back. *)
Lemma description_stands_in_for_summary_witness :
  let e : entry := <[ "title" := VStr "Weather" ]> {[ "description" := VStr " Storm ahead " ]} in
  process_entry (demo_env []) "Feed" None (Some ["storm"]) e (FeedState ∅ [] 0) (World ∅ [])
  = (Return (FeedState ({[make_entry_key e]} ∪ ∅) ([] ++ [make_entry_key e]) 0), World ∅ []).
Proof.
  cbv zeta.
  destruct (proj1 (description_stands_in_for_summary
                     (<[ "title" := VStr "Weather" ]> {[ "description" := VStr " Storm ahead " ]})))
    as (_ & _ & H & _); [vm_compute; reflexivity|].
  apply H.
  - apply not_elem_of_empty.
  - vm_compute. reflexivity.
Defined.


(* ===================================================================== *)
(** * Further properties of the script *)
(* ===================================================================== *)

(** ** Normal forms of [norm] *)

(** X1. The result of [norm] is in normal form: it holds no character that
    [lower] would change, its only whitespace characters are single blanks
    between other characters (none at either end), and [norm] leaves it as
    it is; whitespace and case are those of Unicode. *)
Theorem norm_normal_form (s : string) :
  no_upper (norm s) = true /\
  single_blanks false (norm s) = true /\
  no_space_first (norm s) = true /\
  no_space_last (norm s) = true /\
  norm (norm s) = norm s.
Proof.
  destruct (norm_tidy s) as (H1 & H2 & H3 & H4).
  repeat split; try assumption. apply norm_idempotent.
Qed.

(** ** Keyword filters *)

Section filter_facts.

Lemma exclude_hit_norm (hay : string) (l : list string) :
  exclude_hit hay (norm <$> l) = exclude_hit hay l.
Proof.
  induction l as [|kw l IH]; [reflexivity|].
  rewrite fmap_cons. cbn [exclude_hit]. now rewrite norm_idempotent, IH.
Qed.

Lemma include_hit_norm (hay : string) (l : list string) :
  include_hit hay (norm <$> l) = include_hit hay l.
Proof.
  induction l as [|kw l IH]; [reflexivity|].
  rewrite fmap_cons. cbn [include_hit]. now rewrite norm_idempotent, IH.
Qed.

Lemma haystack_norm (title summary : string) :
  haystack (norm title) (norm summary) = haystack title summary.
Proof. unfold haystack. now rewrite !norm_idempotent. Qed.

(** A keyword list (or [None]) with every keyword in normal form. *)
Definition norm_keywords (o : option (list string)) : option (list string) :=
  (fun l : list string => norm <$> l) <$> o.

(** The normal form of a text is empty exactly when the text holds nothing
    but whitespace. *)
Lemma sub_ws_chars_all_space (b : bool) (l : list string) :
  forallb is_space (sub_ws_chars b l) = forallb is_space l.
Proof.
  revert b. induction l as [|ch r IH]; intros b; [reflexivity|]. cbn [sub_ws_chars forallb].
  destruct (is_space ch) eqn:E; [destruct b|]; cbn [forallb andb];
    rewrite ?blank_is_space, ?E, IH; reflexivity.
Qed.

Lemma lower_empty (s : string) : is_empty (lower s) = is_empty s.
Proof.
  unfold lower. destruct (chars s) as [|ch r] eqn:E.
  - now rewrite (chars_nil s E).
  - assert (Hs : s <> "") by (intros ->; discriminate).
    apply is_empty_false in Hs. rewrite Hs. apply is_empty_false. intros H.
    apply unchars_nil in H; [now apply lower_chars_not_nil in H|].
    apply lower_chars_proper. rewrite <- E. apply chars_proper.
Qed.

Lemma norm_empty (s : string) : is_empty (norm s) = all_space s.
Proof.
  unfold norm. rewrite lower_empty, strip_empty. unfold all_space.
  now rewrite chars_sub_ws, sub_ws_chars_all_space.
Qed.

(** The keywords of a list that hold something other than whitespace. *)
Definition proper_keywords (l : list string) : list string :=
  List.filter (fun kw => negb (all_space kw)) l.

Lemma exclude_hit_proper (hay : string) (l : list string) :
  exclude_hit hay (proper_keywords l) = exclude_hit hay l.
Proof.
  induction l as [|kw l IH]; [reflexivity|].
  unfold proper_keywords in *. cbn [List.filter exclude_hit]. rewrite <- norm_empty.
  destruct (is_empty (norm kw)) eqn:E; cbn [negb andb]; [exact IH|].
  cbn [exclude_hit]. rewrite E. cbn [negb andb]. now rewrite IH.
Qed.

Lemma include_hit_blank (hay : string) (l : list string) :
  Forall (fun kw => all_space kw = true) l -> include_hit hay l = false.
Proof.
  induction 1 as [|kw l Hkw _ IH]; [reflexivity|].
  cbn [include_hit]. rewrite norm_empty, Hkw. exact IH.
Qed.

End filter_facts.

(** X2. The filter looks at normal forms only: it gives the same answer
    when title, summary and every keyword are replaced by their normal
    forms, so case and the amount and kind of whitespace in the texts and in
    the keywords never change the outcome. *)
Theorem passes_filters_sees_normal_forms (title summary : string)
    (include_any exclude_any : option (list string)) :
  passes_filters (norm title) (norm summary)
                 (norm_keywords include_any) (norm_keywords exclude_any)
  = passes_filters title summary include_any exclude_any.
Proof.
  unfold passes_filters. rewrite haystack_norm.
  assert (Hd : forall o : option (list string),
             default [] (norm_keywords o) = norm <$> default [] o) by (now intros [l|]).
  rewrite !Hd, exclude_hit_norm.
  destruct (exclude_hit _ _); [reflexivity|].
  destruct (default [] include_any) as [|kw l]; [reflexivity|].
  rewrite fmap_cons. rewrite <- (include_hit_norm _ (kw :: l)). now rewrite fmap_cons.
Qed.

(** X3. Keywords that are empty or hold nothing but whitespace (blanks,
    tabs, no-break spaces, ...) never match: they can be dropped from
    [exclude_any] without changing any answer, but an [include_any] list
    that is not empty and holds only such keywords rejects every entry. *)
Theorem blank_keywords_never_match (title summary : string)
    (include_any : option (list string)) (exclude_any : list string) :
  passes_filters title summary include_any (Some (proper_keywords exclude_any))
  = passes_filters title summary include_any (Some exclude_any)
  /\ (forall kw l exc,
        Forall (fun k => all_space k = true) (kw :: l) ->
        passes_filters title summary (Some (kw :: l)) exc = false).
Proof.
  split.
  - unfold passes_filters. cbn [from_option id]. now rewrite exclude_hit_proper.
  - intros kw l exc H. unfold passes_filters. cbn [from_option id].
    destruct (exclude_hit _ _); [reflexivity|]. now apply include_hit_blank.
Qed.

(** X3, an instance: an include list of one keyword that is a blank and a
    no-break space, no excludes. *)
Lemma blank_keywords_never_match_witness :
  passes_filters "Storm warning" "" (Some [" " +:+ utf8 0xa0]) None = false.
Proof.
  apply (proj2 (blank_keywords_never_match "Storm warning" "" None [])
           (" " +:+ utf8 0xa0) [] None).
  apply Forall_cons. split; [vm_compute; reflexivity | now apply Forall_nil].
Defined.

(** ** The shape of an identity *)

Section key_shape.

(** A character of lower-case hexadecimal notation. *)
Definition is_hex (c : ascii) : bool :=
  let n := nat_of_ascii c in
  ((48 <=? n)%nat && (n <=? 57)%nat) || ((97 <=? n)%nat && (n <=? 102)%nat).

Fixpoint all_hex (s : string) : bool :=
  match s with
  | EmptyString => true
  | String c r => is_hex c && all_hex r
  end.

Lemma hex_digit_is_hex (n : Z) : is_hex (Sha256.hex_digit n) = true.
Proof.
  unfold Sha256.hex_digit. generalize (Z.to_nat n). intros k.
  do 16 (destruct k as [|k]; [reflexivity|]). reflexivity.
Qed.

Lemma length_append (a b : string) :
  String.length (a ++ b)%string = String.length a + String.length b.
Proof. induction a as [|c a IH]; [reflexivity|]. cbn. now rewrite IH. Qed.

Lemma all_hex_append (a b : string) : all_hex (a ++ b)%string = all_hex a && all_hex b.
Proof.
  induction a as [|c a IH]; [reflexivity|]. cbn. rewrite IH. now rewrite andb_assoc.
Qed.

Lemma hex_byte_shape (b : Z) :
  String.length (Sha256.hex_byte b) = 2 /\ all_hex (Sha256.hex_byte b) = true.
Proof.
  unfold Sha256.hex_byte. split; [reflexivity|].
  cbn [all_hex]. now rewrite !hex_digit_is_hex.
Qed.

Lemma hex_word_shape (w : Z) :
  String.length (Sha256.hex_word w) = 8 /\ all_hex (Sha256.hex_word w) = true.
Proof.
  unfold Sha256.hex_word, Sha256.be_bytes.
  cbn [seq rev app map String.concat].
  repeat rewrite ?length_append, ?all_hex_append.
  split.
  - now rewrite !(proj1 (hex_byte_shape _)).
  - now rewrite !(proj2 (hex_byte_shape _)).
Qed.

Lemma hexdigest_shape (s : string) :
  String.length (Sha256.hexdigest s) = 64 /\ all_hex (Sha256.hexdigest s) = true.
Proof.
  unfold Sha256.hexdigest. cbn [map String.concat].
  repeat rewrite ?length_append, ?all_hex_append.
  split.
  - now rewrite !(proj1 (hex_word_shape _)).
  - now rewrite !(proj2 (hex_word_shape _)).
Qed.

End key_shape.

(** X4. Whatever the entry holds, its identity is a string of exactly 64
    lower-case hexadecimal characters. *)
Theorem make_entry_key_shape (e : entry) :
  String.length (make_entry_key e) = 64 /\ all_hex (make_entry_key e) = true.
Proof. unfold make_entry_key. apply hexdigest_shape. Qed.

(** ** What a feed posts and records *)

Section accounting.
Context (en : env).

(** A post for an entry of [es] that passes the filter and whose identity
    is not in [seen]. *)
Definition posted_from (name : string) (inc exc : option (list string))
    (es : list entry) (seen : gset string) (ev : event) : Prop :=
  exists e ok,
    ev = Posted (request_for en (message_for name e)) ok /\
    e ∈ es /\
    passes_filters (entry_title e) (entry_summary e) inc exc = true /\
    make_entry_key e ∉ seen.

Lemma posted_from_weaken name inc exc e es (seen seen' : gset string) ev :
  seen ⊆ seen' ->
  posted_from name inc exc es seen' ev -> posted_from name inc exc (e :: es) seen ev.
Proof.
  intros Hsub (e0 & ok & -> & He0 & Hp & Hk). exists e0, ok.
  repeat split; [apply elem_of_cons; now right | exact Hp | set_solver].
Qed.

(** The books of the loop over the entries: the identities it added, the
    messages it counted and the posts it made. *)
Definition entries_account (es : list entry) (st st' : feed_state) (evs : list event) : Prop :=
  exists added,
    new_hashes st' = new_hashes st ++ added /\
    NoDup added /\
    (forall k, k ∈ added -> k ∉ seen_hashes st /\ k ∈ make_entry_key <$> es) /\
    seen_hashes st' = seen_hashes st ∪ list_to_set added /\
    sent st' = sent st + length (delivered evs) /\
    length (delivered evs) <= length added.

Lemma process_entries_account name inc exc es st w o w' :
  process_entries en name inc exc es st w = (o, w') ->
  exists evs,
    log w' = log w ++ evs /\
    Forall (posted_from name inc exc es (seen_hashes st)) evs /\
    match o with
    | Return st' => entries_account es st st' evs
    | Raise _ => True
    end.
Proof.
  revert st w. induction es as [|e es IH]; intros st w; cbn [process_entries].
  { intros [= <- <-]. exists []. rewrite app_nil_r. split; [reflexivity|].
    split; [constructor|]. exists []. rewrite app_nil_r, list_to_set_nil.
    repeat split; [constructor | now apply elem_of_nil in H | now apply elem_of_nil in H
                  | set_solver | cbn; lia | cbn; lia]. }
  rewrite bind_run.
  destruct (decide (make_entry_key e ∈ seen_hashes st)) as [Hin|Hnew].
  { rewrite process_entry_seen by exact Hin. intros H.
    apply IH in H as (evs & Hl & Hf & Ho). exists evs. split; [exact Hl|]. split.
    - eapply Forall_impl; [exact Hf|]. intros ev. now apply posted_from_weaken.
    - destruct o as [st'|x]; [|exact I].
      destruct Ho as (added & Hn & Hnd & Hk & Hs & Hsent & Hle).
      exists added. repeat split; try assumption; try (now apply Hk).
      rewrite fmap_cons. apply elem_of_cons. right. now apply Hk. }
  set (st1 sent' := FeedState ({[make_entry_key e]} ∪ seen_hashes st)
                              (new_hashes st ++ [make_entry_key e]) sent').
  assert (Hrest : forall sent' w1 evs1,
            log w1 = log w ++ evs1 ->
            Forall (posted_from name inc exc (e :: es) (seen_hashes st)) evs1 ->
            sent' = sent st + length (delivered evs1) ->
            length (delivered evs1) <= 1 ->
            process_entries en name inc exc es (st1 sent') w1 = (o, w') ->
            exists evs,
              log w' = log w ++ evs /\
              Forall (posted_from name inc exc (e :: es) (seen_hashes st)) evs /\
              match o with
              | Return st' => entries_account (e :: es) st st' evs
              | Raise _ => True
              end).
  { intros sent' w1 evs1 Hl1 Hf1 Hs1 Hle1 H.
    apply IH in H as (evs & Hl & Hf & Ho). exists (evs1 ++ evs).
    split; [rewrite Hl, Hl1; now rewrite app_assoc|]. split.
    - apply Forall_app. split; [exact Hf1|].
      eapply Forall_impl; [exact Hf|]. intros ev. apply posted_from_weaken.
      cbn. set_solver.
    - destruct o as [st'|x]; [|exact I].
      destruct Ho as (added & Hn & Hnd & Hk & Hs & Hsent & Hle). cbn in Hn, Hk, Hs, Hsent.
      exists (make_entry_key e :: added). rewrite delivered_app, length_app.
      split; [rewrite Hn; now rewrite <- app_assoc|].
      split; [constructor; [|exact Hnd]; intros Hin; apply Hk in Hin as [Hin _]; set_solver|].
      split.
      { intros k Hin. rewrite fmap_cons. apply elem_of_cons in Hin as [-> | Hin].
        - split; [exact Hnew | apply elem_of_cons; now left].
        - apply Hk in Hin as [H1 H2]. split; [set_solver | apply elem_of_cons; now right]. }
      split; [rewrite Hs, list_to_set_cons; set_solver|].
      split; [lia | cbn [length]; lia]. }
  destruct (passes_filters (entry_title e) (entry_summary e) inc exc) eqn:Hp.
  - rewrite process_entry_passing by assumption.
    destruct (missing_credentials en) eqn:Hm.
    + rewrite telegram_send_missing by exact Hm. intros [= <- <-].
      exists []. rewrite app_nil_r. now repeat split.
    + rewrite telegram_send_present by exact Hm.
      set (req := request_for en (message_for name e)).
      assert (Hev : forall ok, posted_from name inc exc (e :: es) (seen_hashes st) (Posted req ok)).
      { intros ok. exists e, ok. repeat split; [apply elem_of_cons; now left | exact Hp | exact Hnew]. }
      destruct (post_ok en (log w) req).
      * apply (Hrest (S (sent st)) _ [Posted req true]);
          [reflexivity | now repeat constructor | cbn; lia | cbn; lia].
      * intros [= <- <-]. exists [Posted req false].
        split; [reflexivity|]. split; [now repeat constructor | exact I].
  - rewrite process_entry_filtered by assumption.
    apply (Hrest (sent st) w []); [now rewrite app_nil_r | constructor | cbn; lia | cbn; lia].
Qed.

End accounting.

Section feed_accounting.
Context (en : env).

(** The three ways through a feed. *)
Lemma process_feed_cases f st w :
  (is_empty (feed_url f) = true /\ process_feed en f st w = (Return st, w)) \/
  (is_empty (feed_url f) = false /\ bozo (feedparser_parse en (feed_url f)) = true /\
   process_feed en f st w =
     (Return st,
      World (disk w)
            (log w ++ [Fetched (feed_url f);
                       Printed ("Warnung: Feed-Parsing-Problem bei " +:+ feed_url f)]))) \/
  (is_empty (feed_url f) = false /\ bozo (feedparser_parse en (feed_url f)) = false /\
   process_feed en f st w =
     match process_entries en (default "Feed" (f_name f)) (f_include_any f) (f_exclude_any f)
             (considered f (feedparser_parse en (feed_url f))) (feed_start f st)
             (World (disk w) (log w ++ [Fetched (feed_url f)])) with
     | (Return r, w') => (Return (feed_finish en f st r), w')
     | (Raise x, w') => (Raise x, w')
     end).
Proof.
  destruct (is_empty (feed_url f)) eqn:Hu; [left; split; [reflexivity|]; now apply process_feed_skipped|].
  right. destruct (bozo (feedparser_parse en (feed_url f))) eqn:Hb.
  - left. split; [reflexivity|]. split; [reflexivity|]. now apply process_feed_malformed.
  - right. split; [reflexivity|]. split; [reflexivity|]. now apply process_feed_wellformed.
Qed.

Lemma feed_finish_sent f st r : total_sent (feed_finish en f st r) = sent r.
Proof. unfold feed_finish. now destruct (new_hashes r). Qed.

(** The count of sent messages grows by the accepted posts of the feed. *)
Lemma process_feed_sent f st w st' w' :
  process_feed en f st w = (Return st', w') ->
  exists evs, log w' = log w ++ evs /\ total_sent st' = total_sent st + length (delivered evs).
Proof.
  destruct (process_feed_cases f st w) as [[_ ->] | [(_ & _ & ->) | (_ & _ & ->)]].
  - intros [= <- <-]. exists []. rewrite app_nil_r. cbn. split; [reflexivity | lia].
  - intros [= <- <-]. eexists. split; [reflexivity|]. cbn. lia.
  - destruct (process_entries _ _ _ _ _ _ _) as [[r|x] w1] eqn:E; [|discriminate].
    intros [= <- <-].
    apply process_entries_account in E as (evs & Hl & _ & added & _ & _ & _ & _ & Hs & _).
    cbn [log] in Hl. cbn [feed_start sent] in Hs.
    exists ([Fetched (feed_url f)] ++ evs).
    split; [rewrite Hl; now rewrite <- app_assoc|].
    rewrite feed_finish_sent, delivered_app. cbn. lia.
Qed.

Lemma process_feeds_sent feeds st w st' w' :
  process_feeds en feeds st w = (Return st', w') ->
  exists evs, log w' = log w ++ evs /\ total_sent st' = total_sent st + length (delivered evs).
Proof.
  revert st w. induction feeds as [|f feeds IH]; intros st w; cbn [process_feeds].
  - intros [= <- <-]. exists []. rewrite app_nil_r. cbn. split; [reflexivity | lia].
  - rewrite bind_run.
    destruct (process_feed en f st w) as [[st1|x] w1] eqn:E1; [|discriminate].
    intros H. apply process_feed_sent in E1 as (evs1 & Hl1 & Hs1).
    apply IH in H as (evs2 & Hl2 & Hs2). exists (evs1 ++ evs2).
    split; [rewrite Hl2, Hl1; now rewrite app_assoc|].
    rewrite delivered_app, length_app. lia.
Qed.

(** A feed touches the list of its own URL only. *)
Lemma process_feeds_frame feeds st w st' w' (u : string) :
  process_feeds en feeds st w = (Return st', w') ->
  (forall f, f ∈ feeds -> feed_url f <> u) ->
  seen_map st' !! u = seen_map st !! u.
Proof.
  revert st w. induction feeds as [|f feeds IH]; intros st w; cbn [process_feeds].
  - now intros [= <- <-] _.
  - rewrite bind_run.
    destruct (process_feed en f st w) as [[st1|x] w1] eqn:E1; [|discriminate].
    intros H Hu. rewrite (IH _ _ H) by (intros g Hg; apply Hu, elem_of_cons; now right).
    apply process_feed_returns in E1 as [(-> & _) | [-> _]]; [reflexivity|].
    apply lookup_insert_ne, Hu, elem_of_cons. now left.
Qed.

(** What the trim keeps comes from the set. *)
Lemma trim_subset (X : gset string) :
  order_ok en -> list_to_set (slice_last 400 (set_order en X)) ⊆ X.
Proof.
  intros Hord k Hk. apply elem_of_list_to_set in Hk. unfold slice_last in Hk.
  apply subseteq_drop in Hk. now apply (Hord X).
Qed.

Lemma process_feeds_stored_subset feeds st w st' w' :
  order_ok en ->
  process_feeds en feeds st w = (Return st', w') ->
  forall u, stored (seen_map st') u ⊆ stored (seen_map st) u ∪ ids_for en feeds u.
Proof.
  intros Hord. revert st w. induction feeds as [|f feeds IH]; intros st w; cbn [process_feeds].
  - intros [= <- <-] u. set_solver.
  - rewrite bind_run.
    destruct (process_feed en f st w) as [[st1|x] w1] eqn:E1; [|discriminate].
    intros H u. specialize (IH _ _ H u). cbn [ids_for].
    assert (Hst1 : stored (seen_map st1) u ⊆
                   stored (seen_map st) u ∪ (if decide (feed_url f = u) then feed_ids en f else ∅)).
    { apply process_feed_returns in E1 as [(-> & _) | [-> _]]; [set_solver|].
      rewrite stored_insert. case_decide; [subst u|set_solver].
      apply trim_subset, Hord. }
    set_solver.
Qed.

End feed_accounting.

(** X5. Whatever the outcome of a feed, each call it makes to the delivery
    transport is for an entry among the first [max_items] of a fetch that
    was not flagged, which passes the feed's filter and whose identity was
    not stored for the feed's URL; the text posted is the message built for
    that entry. No entry that is filtered out, already stored or beyond
    [max_items] is ever posted. *)
Theorem posts_only_for_new_passing_entries (en : env) (f : feed) (st : run_state) (w : world) :
  exists evs,
    log (process_feed en f st w).2 = log w ++ evs /\
    forall r ok,
      Posted r ok ∈ evs ->
      is_empty (feed_url f) = false /\
      bozo (feedparser_parse en (feed_url f)) = false /\
      exists e,
        e ∈ considered f (feedparser_parse en (feed_url f)) /\
        passes_filters (entry_title e) (entry_summary e)
                       (f_include_any f) (f_exclude_any f) = true /\
        make_entry_key e ∉ stored (seen_map st) (feed_url f) /\
        r = request_for en (message_for (default "Feed" (f_name f)) e).
Proof.
  destruct (process_feed_cases en f st w) as [[_ ->] | [(_ & _ & ->) | (Hu & Hb & ->)]].
  - exists []. rewrite app_nil_r. split; [reflexivity|].
    intros r ok H. now apply elem_of_nil in H.
  - eexists. split; [reflexivity|]. intros r ok H.
    repeat (apply elem_of_cons in H as [H|H]; [discriminate|]). now apply elem_of_nil in H.
  - destruct (process_entries _ _ _ _ _ _ _) as [o w1] eqn:E.
    apply process_entries_account in E as (evs & Hl & Hf & _). cbn [log] in Hl.
    exists ([Fetched (feed_url f)] ++ evs). split.
    { destruct o; cbn [snd]; rewrite Hl; now rewrite <- app_assoc. }
    intros r ok H. apply elem_of_app in H as [H|H].
    { apply list_elem_of_singleton in H. discriminate. }
    rewrite Forall_forall in Hf. apply Hf in H as (e & ok' & Heq & He & Hp & Hk).
    injection Heq as -> _. split; [exact Hu|]. split; [exact Hb|].
    exists e. now repeat split.
Qed.

(** X6. The last line of a run over some feeds reports exactly the number
    of posts that the delivery transport accepted during the run. *)
Theorem done_line_counts_deliveries (en : env) (feeds : list feed) (w w1 : world) :
  script en feeds w = (Return 0%Z, w1) ->
  exists evs,
    log w1 = log w ++ evs ++ [Printed (done_line (length (delivered evs)))].
Proof.
  intros H. assert (Hne : feeds <> []).
  { intros ->. rewrite script_run, main_no_feeds in H. discriminate. }
  apply script_returns in H as (_ & st & wp & E & _ & Hl); [|exact Hne].
  apply process_feeds_sent in E as (evs & Hlp & Hs). cbn [total_sent] in Hs.
  exists (evs ++ (if changed st then [Saved (seen_map st)] else [])).
  rewrite Hl, Hlp, Hs, delivered_app, length_app, <- !app_assoc.
  destruct (changed st); cbn [delivered omap length app]; now rewrite ?Nat.add_0_r, ?app_nil_r.
Qed.

(** X6, an instance: the run over the two small entries, one filtered out. *)
Lemma done_line_counts_deliveries_witness :
  exists evs,
    log (script (demo_env small_entries) [demo_feed (Some ["spam"])] (World ∅ [])).2
    = log (World ∅ []) ++ evs ++ [Printed (done_line (length (delivered evs)))].
Proof.
  apply (done_line_counts_deliveries (demo_env small_entries) [demo_feed (Some ["spam"])]).
  vm_compute. reflexivity.
Defined.

(** X7. Entries that share an identity are sent at most once: when a feed
    returns, the number of messages it sent is at most the number of
    different identities among its considered entries that were not stored
    for its URL. *)
Theorem feed_sends_once_per_new_identity (en : env) (f : feed) (st st' : run_state)
    (w w' : world) :
  process_feed en f st w = (Return st', w') ->
  total_sent st <= total_sent st' /\
  total_sent st' - total_sent st
    <= size (feed_ids en f ∖ stored (seen_map st) (feed_url f)).
Proof.
  destruct (process_feed_cases en f st w) as [[_ ->] | [(_ & _ & ->) | (Hu & Hb & ->)]];
    try (intros [= <- <-]; lia).
  destruct (process_entries _ _ _ _ _ _ _) as [[r|x] w1] eqn:E; [|discriminate].
  intros [= <- <-]. rewrite feed_finish_sent.
  apply process_entries_account in E
    as (evs & _ & _ & added & _ & Hnd & Hk & _ & Hs & Hle).
  cbn [feed_start sent seen_hashes] in *. split; [lia|].
  assert (Hsub : list_to_set added ⊆ feed_ids en f ∖ stored (seen_map st) (feed_url f)).
  { intros k Hin. apply elem_of_list_to_set, Hk in Hin as [Hout Hin].
    unfold feed_ids. rewrite Hu, Hb. apply elem_of_difference.
    split; [now apply elem_of_list_to_set | exact Hout]. }
  apply subseteq_size in Hsub. rewrite size_list_to_set in Hsub by exact Hnd. lia.
Qed.

(** X7, an instance: a fetch that holds the same entry three times, no
    filter, no state; the feed returns and has sent one message. *)
Lemma feed_sends_once_per_new_identity_witness :
  exists st' w',
    process_feed (demo_env (replicate 3 (numbered_entry "Storm warning" 1))) (demo_feed None)
                 (RunState ∅ false 0) (World ∅ []) = (Return st', w')
    /\ 0 <= total_sent st'
    /\ total_sent st' - 0
       <= size (feed_ids (demo_env (replicate 3 (numbered_entry "Storm warning" 1)))
                         (demo_feed None)
                ∖ stored ∅ (feed_url (demo_feed None))).
Proof.
  destruct (returns_process_feeds (demo_env (replicate 3 (numbered_entry "Storm warning" 1)))
              [demo_feed None] (RunState ∅ false 0) (demo_reliable _) (World ∅ []))
    as (st' & w' & E).
  rewrite process_feeds_single in E. exists st', w'. split; [exact E|].
  exact (feed_sends_once_per_new_identity _ _ _ _ _ _ E).
Defined.

(** X8. Identities are kept per URL: whatever the outcome of a run, the list
    stored for a URL that no configured feed has is the one from before. *)
Theorem other_urls_untouched (en : env) (feeds : list feed) (w : world) (u : string) :
  (forall f, f ∈ feeds -> feed_url f <> u) ->
  disk (script en feeds w).2 !! u = disk w !! u.
Proof.
  intros Hu. rewrite script_run.
  destruct feeds as [|f feeds]; [now rewrite main_no_feeds|].
  rewrite main_feeds by discriminate.
  pose proof (tame_process_feeds en (f :: feeds) (RunState (disk w) false 0) w) as [Hd _].
  destruct (process_feeds en (f :: feeds) _ w) as [[st|x] wp] eqn:E; cbn [snd] in *.
  - destruct (changed st); cbn [disk]; [|now rewrite Hd].
    now rewrite (process_feeds_frame en _ _ _ _ _ u E Hu).
  - cbn [disk]. now rewrite Hd.
Qed.

(** X8, an instance: a state file with a list for another URL. *)
Lemma other_urls_untouched_witness :
  disk (script (demo_env small_entries) [demo_feed None]
               (World {[ "https://example.org/other" := ["0123"] ]} [])).2
    !! "https://example.org/other"
  = disk (World {[ "https://example.org/other" := ["0123"] ]} []) !! "https://example.org/other".
Proof.
  apply (other_urls_untouched (demo_env small_entries) [demo_feed None]).
  intros f Hf. apply list_elem_of_singleton in Hf as ->. vm_compute. discriminate.
Defined.

(** X9. A run stores nothing foreign: whatever its outcome, every identity
    in the state file for a URL afterwards was there before or is the
    identity of an entry the run looked at under that URL (a set being
    iterated over its elements). *)
Theorem nothing_foreign_is_stored (en : env) (feeds : list feed) (w : world) (u : string) :
  order_ok en ->
  stored (disk (script en feeds w).2) u ⊆ stored (disk w) u ∪ ids_for en feeds u.
Proof.
  intros Hord. rewrite script_run.
  destruct feeds as [|f feeds]; [rewrite main_no_feeds; set_solver|].
  rewrite main_feeds by discriminate.
  pose proof (tame_process_feeds en (f :: feeds) (RunState (disk w) false 0) w) as [Hd _].
  destruct (process_feeds en (f :: feeds) _ w) as [[st|x] wp] eqn:E; cbn [snd] in *.
  - destruct (changed st); cbn [disk]; [|rewrite Hd; set_solver].
    apply (process_feeds_stored_subset en _ _ _ _ _ Hord E u).
  - cbn [disk]. rewrite Hd. set_solver.
Qed.

(** X9, an instance: the run over the two small entries. *)
Lemma nothing_foreign_is_stored_witness :
  stored (disk (script (demo_env small_entries) [demo_feed None] (World ∅ [])).2) demo_url
  ⊆ stored (disk (World ∅ [])) demo_url
    ∪ ids_for (demo_env small_entries) [demo_feed None] demo_url.
Proof.
  apply (nothing_foreign_is_stored (demo_env small_entries) [demo_feed None]).
  apply demo_order_ok.
Defined.

(** X10. A run writes the state file at most once: either it writes nothing
    and the file is as before, or its last two events are the write of the
    mapping that the file then holds and the final line, with no write
    before. *)
Theorem state_written_at_most_once (en : env) (feeds : list feed) (w : world) :
  exists evs,
    log (script en feeds w).2 = log w ++ evs /\
    ((saves evs = [] /\ disk (script en feeds w).2 = disk w) \/
     (exists evs0 n,
        evs = evs0 ++ [Saved (disk (script en feeds w).2); Printed (done_line n)]
        /\ saves evs0 = [])).
Proof.
  rewrite script_run. destruct feeds as [|f feeds].
  { rewrite main_no_feeds. eexists. split; [reflexivity|]. left. now split. }
  rewrite main_feeds by discriminate.
  pose proof (tame_process_feeds en (f :: feeds) (RunState (disk w) false 0) w)
    as (Hd & evs & Hl & He).
  destruct (process_feeds en (f :: feeds) _ w) as [[st|x] wp]; cbn [fst snd] in *.
  - destruct He as [Hc _]. destruct (changed st); cbn [snd disk log]; rewrite Hl, <- app_assoc;
      eexists; (split; [reflexivity|]).
    + right. exists evs, (total_sent st). split; [reflexivity | now apply calm_no_saves].
    + left. rewrite saves_app, (calm_no_saves _ Hc). now split.
  - cbn [snd disk log]. rewrite Hl, <- app_assoc. eexists. split; [reflexivity|].
    left. split; [|exact Hd]. rewrite saves_app.
    destruct x; cbn [effect_of] in He.
    + destruct He as (_ & Hc & _). now rewrite (calm_no_saves _ Hc).
    + destruct He as (_ & evs0 & r & -> & Hc). now rewrite saves_app, (calm_no_saves _ Hc).
Qed.

(** ** Feeds without a URL *)

(** The feed has a URL: the test [if not url: continue] lets it through. *)
Definition has_url (f : feed) : bool := negb (is_empty (feed_url f)).

Lemma process_feeds_filter_has_url (en : env) (feeds : list feed) st w :
  process_feeds en (List.filter has_url feeds) st w = process_feeds en feeds st w.
Proof.
  revert st w. induction feeds as [|f feeds IH]; intros st w; [reflexivity|].
  cbn [List.filter process_feeds]. unfold has_url at 1.
  destruct (is_empty (feed_url f)) eqn:Hu; cbn [negb].
  - rewrite bind_run, process_feed_skipped by exact Hu. apply IH.
  - cbn [process_feeds]. rewrite !bind_run.
    destruct (process_feed en f st w) as [[st1|x] w1]; [apply IH | reflexivity].
Qed.

(** X11. Feeds whose URL is absent, empty or nothing but whitespace are
    passed over without a fetch, a print or a change of state: the feeds of
    a configuration are processed like the list of those that have a URL. A
    configuration that is not empty but holds only such feeds therefore ends
    with status 0 and the report of 0 messages, the state file untouched
    (the empty configuration ends with status 1). *)
Theorem feeds_without_url_are_ignored (en : env) (feeds : list feed) (w : world) :
  (forall f, has_url f = negb (all_space (default "" (f_url f)))) /\
  (forall st, process_feeds en feeds st w = process_feeds en (List.filter has_url feeds) st w) /\
  (feeds <> [] ->
   Forall (fun f => has_url f = false) feeds ->
   script en feeds w = (Return 0%Z, World (disk w) (log w ++ [Printed (done_line 0)]))).
Proof.
  split; [intros f; unfold has_url, feed_url; now rewrite strip_empty|].
  split; [intros st; symmetry; apply process_feeds_filter_has_url|].
  intros Hne Hall. rewrite script_run, main_feeds by exact Hne.
  rewrite <- process_feeds_filter_has_url.
  assert (Hnil : List.filter has_url feeds = []).
  { clear Hne. induction Hall as [|f feeds Hf _ IH]; [reflexivity|].
    cbn [List.filter]. now rewrite Hf. }
  rewrite Hnil. reflexivity.
Qed.

(** X11, an instance: one feed with a URL of a blank and a no-break space,
    one without a URL. *)
Lemma feeds_without_url_are_ignored_witness :
  script (demo_env small_entries)
         [Feed (Some "A") (Some (" " +:+ utf8 0xa0)) None None None;
          Feed (Some "B") None None None None]
         (World ∅ [])
  = (Return 0%Z, World (disk (World ∅ [])) (log (World ∅ []) ++ [Printed (done_line 0)])).
Proof.
  apply (proj2 (proj2 (feeds_without_url_are_ignored (demo_env small_entries)
                  [Feed (Some "A") (Some (" " +:+ utf8 0xa0)) None None None;
                   Feed (Some "B") None None None None]
                  (World ∅ [])))).
  - discriminate.
  - repeat (apply Forall_cons; split; [vm_compute; reflexivity|]). now apply Forall_nil.
Defined.

(** ** Credentials *)

Section credentials.

(** A variable of the environment that is not set, or set to nothing but
    whitespace. *)
Definition blank_variable (en : env) (name : string) : bool :=
  match environ en !! name with
  | None => true
  | Some v => all_space v
  end.

Lemma getenv_empty (en : env) (name : string) :
  is_empty (getenv en name) = blank_variable en name.
Proof.
  unfold getenv, blank_variable. rewrite strip_empty.
  now destruct (environ en !! name).
Qed.

End credentials.

(** X12. [telegram_send] takes a credential for missing exactly when its
    variable is not set or holds nothing but whitespace (blanks, tabs,
    no-break spaces, ...). If one of the two
    is missing it raises and makes no call; otherwise it makes exactly one
    call, with the text as given, and raises only if that call is refused. *)
Theorem credentials_missing_when_blank (en : env) (text : string) (w : world) :
  (blank_variable en "TELEGRAM_BOT_TOKEN" || blank_variable en "TELEGRAM_CHAT_ID" = true ->
   telegram_send en text w = (Raise MissingCredentials, w)) /\
  (blank_variable en "TELEGRAM_BOT_TOKEN" || blank_variable en "TELEGRAM_CHAT_ID" = false ->
   exists ok : bool,
     telegram_send en text w =
       (if ok then Return tt else Raise DeliveryFailed,
        World (disk w) (log w ++ [Posted (request_for en text) ok]))
     /\ req_text (request_for en text) = text).
Proof.
  rewrite <- !getenv_empty. fold (missing_credentials en). split; intros H.
  - now apply telegram_send_missing.
  - exists (post_ok en (log w) (request_for en text)).
    split; [now apply telegram_send_present | reflexivity].
Qed.

(** X12, an instance: the chat id is set to a no-break space. *)
Lemma credentials_missing_when_blank_witness :
  telegram_send (Env (<[ "TELEGRAM_BOT_TOKEN" := "token" ]> {[ "TELEGRAM_CHAT_ID" := utf8 0xa0 ]})
                     (fun _ => Parsed false []) (fun _ _ => true) elements)
                "Storm warning" (World ∅ [])
  = (Raise MissingCredentials, World ∅ []).
Proof.
  apply (proj1 (credentials_missing_when_blank
                  (Env (<[ "TELEGRAM_BOT_TOKEN" := "token" ]> {[ "TELEGRAM_CHAT_ID" := utf8 0xa0 ]})
                       (fun _ => Parsed false []) (fun _ _ => true) elements)
                  "Storm warning" (World ∅ []))).
  vm_compute. reflexivity.
Defined.

(** ** The entries a feed looks at *)

(** X13. The entries a feed looks at are a prefix of the fetched ones: the
    first [max_items] of them (the first 30 when [max_items] is absent), all
    when there are fewer; a negative [max_items] does not fail but leaves
    out that many entries at the end. *)
Theorem considered_is_bounded_prefix (f : feed) (p : parsed) :
  considered f p `prefix_of` entries p /\
  (forall n, default 30%Z (f_max_items f) = n -> (0 <= n)%Z ->
             length (considered f p) = Nat.min (Z.to_nat n) (length (entries p))) /\
  (forall n, default 30%Z (f_max_items f) = n -> (n < 0)%Z ->
             length (considered f p) = length (entries p) - Z.to_nat (- n)).
Proof.
  unfold considered, slice_to. split; [|split].
  - destruct (0 <=? _)%Z; apply prefix_take.
  - intros n -> Hn. rewrite (proj2 (Z.leb_le 0 n) Hn). apply length_take.
  - intros n -> Hn. rewrite (proj2 (Z.leb_gt 0 n) Hn). rewrite length_take. lia.
Qed.

(** X13, an instance: two fetched entries, [max_items] 1. *)
Lemma considered_is_bounded_prefix_witness :
  length (considered (Feed None (Some demo_url) None None (Some 1%Z)) (Parsed false small_entries))
  = Nat.min (Z.to_nat 1) (length (entries (Parsed false small_entries))).
Proof.
  apply (proj1 (proj2 (considered_is_bounded_prefix
                         (Feed None (Some demo_url) None None (Some 1%Z))
                         (Parsed false small_entries)))).
  - reflexivity.
  - lia.
Defined.

(** ** Messages *)

(** X14. A message always starts with the newspaper mark, so it is never
    empty, and it never ends with whitespace (any character that [strip]
    removes), whatever the name, title, link and time are (empty, blank or
    spread over lines). *)
Theorem build_message_shape (feed_name title link published : string) :
  (exists rest, build_message feed_name title link published = newspaper_mark +:+ rest) /\
  no_space_last (build_message feed_name title link published) = true.
Proof.
  split; [|unfold build_message; apply strip_trimmed].
  unfold build_message.
  set (tail := (if is_empty published then [] else [clock_mark +:+ " " +:+ published])
               ++ (if is_empty link then [] else [strip link])).
  assert (Hjoin : exists x,
            join newline ([newspaper_mark +:+ " " +:+ feed_name; strip title] ++ tail)
            = newspaper_mark +:+ String " " x).
  { cbn [app join]. exists (feed_name +:+ newline +:+ join newline (strip title :: tail)).
    now rewrite !append_assoc. }
  destruct Hjoin as [x ->]. unfold strip.
  assert (Hm : is_space newspaper_mark = false) by (vm_compute; reflexivity).
  rewrite (chars_chunk_app newspaper_mark (String " " x)) by reflexivity.
  cbn [lstrip_chars]. rewrite Hm. cbn [rstrip_chars]. rewrite Hm. cbn [andb].
  rewrite unchars_cons. now eexists.
Qed.

(** ** The exit status *)

(** X15. The exit status tells the two ends of a run apart. A run without
    feeds prints its complaint, touches nothing else and ends with status 1.
    A run with feeds that returns ends with status 0; and with both
    credentials set and a transport that accepts every call it does return,
    whatever the feeds hold. *)
Theorem exit_status_of_a_run (en : env) (feeds : list feed) (w : world) :
  script en [] w =
    (Return 1%Z, World (disk w) (log w ++ [Printed "Keine Feeds in config.json gefunden."])) /\
  (feeds <> [] ->
   (forall c w1, script en feeds w = (Return c, w1) -> c = 0%Z) /\
   (reliable en -> exists w1, script en feeds w = (Return 0%Z, w1))).
Proof.
  split; [reflexivity|]. intros Hne. split.
  - intros c w1 H. now destruct (script_returns en feeds w c w1 Hne H).
  - intros Hr. now apply script_reliable.
Qed.

(** X15, an instance: the run over two entries ends with status 0. *)
Lemma exit_status_of_a_run_witness :
  exists w1, script (demo_env small_entries) [demo_feed None] (World ∅ []) = (Return 0%Z, w1).
Proof.
  apply (proj2 (exit_status_of_a_run (demo_env small_entries) [demo_feed None] (World ∅ []))).
  - discriminate.
  - apply demo_reliable.
Defined.
